(** * Cluster upgrade state manager (pkg/upgrade/upgrade_state.go)

    A shallow embedding of [ClusterUpgradeStateManager]: the snapshot data
    model, the ten phase processors and [ApplyState], followed by the
    properties of one reconciliation pass.

    Modelling conventions.
    - Every call to a collaborator (state provider, cordon, pod and drain
      managers) is appended to a log together with the answer it got.  The
      answer comes from [collaborators], an arbitrary function of the log so
      far and of the call: this covers every deterministic behaviour of the
      external world.  Collaborators are assumed not to write into the
      snapshot objects they are handed.
    - The [DrainSpec] the policy points to is the one object the manager
      writes through a pointer, so drain specs live in a store indexed by
      addresses and the policy holds an address.  The store is total: a
      non-nil Go pointer always refers to a live object.
    - Go's [int] is a 64-bit integer: sums and differences wrap.
    - Logging and the context handle have no effect on the decisions and
      are left out.  The pointers inside a [NodeUpgradeState] are
      dereferenced unconditionally by the code and are modelled as the
      objects themselves. *)

From Stdlib Require Import ZArith Lia.
From stdpp Require Import gmap strings list.

Local Open Scope Z_scope.

(** ** Go integers *)

Module GoInt.
Definition min_int : Z := - 2 ^ 63.
Definition max_int : Z := 2 ^ 63 - 1.

(** Two's complement wrap-around of a 64-bit signed integer. *)
Definition wrap (z : Z) : Z := (z + 2 ^ 63) mod 2 ^ 64 - 2 ^ 63.

Definition add (a b : Z) : Z := wrap (a + b).
Definition sub (a b : Z) : Z := wrap (a - b).

(** [len] of a slice; a Go slice never has more than [max_int] elements. *)
Definition len {A : Type} (l : list A) : Z := Z.of_nat (length l).

Definition in_range (z : Z) : Prop := min_int <= z <= max_int.
End GoInt.

(** ** Data model *)

(** Go's [error]: [inl e] is a non-nil error carrying its message. *)
Definition error : Type := string.

(** Modelled from the spec: the ten phase constants [UpgradeState...] are
    declared in another file of the package; the spec (3, 4.2) gives
    them as ten distinct phase values. *)
Inductive UpgradeState : Type :=
| UpgradeStateUnknown
| UpgradeStateDone
| UpgradeStateUpgradeRequired
| UpgradeStateCordonRequired
| UpgradeStateWaitForJobsRequired
| UpgradeStatePodDeletionRequired
| UpgradeStateDrainRequired
| UpgradeStatePodRestartRequired
| UpgradeStateFailed
| UpgradeStateUncordonRequired.

#[global] Instance UpgradeState_eq_dec : EqDecision UpgradeState.
Proof. solve_decision. Defined.

Definition UpgradeState_code (s : UpgradeState) : nat :=
  match s with
  | UpgradeStateUnknown => 0 | UpgradeStateDone => 1
  | UpgradeStateUpgradeRequired => 2 | UpgradeStateCordonRequired => 3
  | UpgradeStateWaitForJobsRequired => 4 | UpgradeStatePodDeletionRequired => 5
  | UpgradeStateDrainRequired => 6 | UpgradeStatePodRestartRequired => 7
  | UpgradeStateFailed => 8 | UpgradeStateUncordonRequired => 9
  end%nat.

Definition UpgradeState_of_code (n : nat) : option UpgradeState :=
  match n with
  | 0 => Some UpgradeStateUnknown | 1 => Some UpgradeStateDone
  | 2 => Some UpgradeStateUpgradeRequired | 3 => Some UpgradeStateCordonRequired
  | 4 => Some UpgradeStateWaitForJobsRequired
  | 5 => Some UpgradeStatePodDeletionRequired
  | 6 => Some UpgradeStateDrainRequired | 7 => Some UpgradeStatePodRestartRequired
  | 8 => Some UpgradeStateFailed | 9 => Some UpgradeStateUncordonRequired
  | _ => None
  end%nat.

#[global] Instance UpgradeState_countable : Countable UpgradeState.
Proof.
  apply (inj_countable UpgradeState_code UpgradeState_of_code).
  intros []; reflexivity.
Defined.

(** [v1.Node]: the fields the manager reads. *)
Record Node : Type := mkNode {
  Node_Name : string;
  Node_Labels : gmap string string;
  Node_Annotations : gmap string string;
  Node_Spec_Unschedulable : bool
}.

Record ContainerStatus : Type := mkContainerStatus {
  ContainerStatus_Name : string;
  ContainerStatus_Ready : bool
}.

(** [v1.Pod].  [Pod_DeletionTimestamp] is a pointer to a time; a time is the
    number of seconds since the zero instant. *)
Record Pod : Type := mkPod {
  Pod_Name : string;
  Pod_Labels : gmap string string;
  Pod_DeletionTimestamp : option Z;
  Pod_Status_Phase : string;
  Pod_Status_ContainerStatuses : list ContainerStatus
}.

(** [IsZero] on a pointer to [metav1.Time]: nil, or the zero instant. *)
Definition Time_IsZero (t : option Z) : bool :=
  match t with
  | None => true
  | Some s => s =? 0
  end.

Record DaemonSet : Type := mkDaemonSet {
  DaemonSet_Name : string;
  DaemonSet_Generation : Z
}.

Definition GetGeneration (ds : DaemonSet) : Z := DaemonSet_Generation ds.

(** The fields [Node] of [NodeUpgradeState] and [DrainSpec] of the policy
    are written with a trailing underscore, their names being those of the
    types. *)
Record NodeUpgradeState : Type := mkNodeUpgradeState {
  Node_ : Node;
  DriverPod : Pod;
  DriverDaemonSet : DaemonSet
}.

Record ClusterUpgradeState : Type := mkClusterUpgradeState {
  NodeStates : gmap UpgradeState (list NodeUpgradeState)
}.

Definition NewClusterUpgradeState : ClusterUpgradeState :=
  {| NodeStates := ∅ |}.

(** [currentState.NodeStates[k]]: a missing key reads as the nil slice. *)
Definition nodesIn (cs : ClusterUpgradeState) (k : UpgradeState)
  : list NodeUpgradeState :=
  default [] (NodeStates cs !! k).

(** *** Upgrade policy *)

(** Modelled from the spec: the policy types are declared in the [api]
    package; section 3 gives [WaitForCompletion] a pod-selector string and
    [DrainSpec] an [Enable] flag, a pod-selector string and further drain
    parameters, which are handed through untouched and are not
    represented. *)
Record WaitForCompletionSpec : Type := mkWaitForCompletionSpec {
  WaitForCompletionSpec_PodSelector : string
}.

Record DrainSpec : Type := mkDrainSpec {
  DrainSpec_Enable : bool;
  DrainSpec_PodSelector : string
}.

(** Address of a [DrainSpec] object. *)
Definition loc : Type := nat.

Section Manager.

(** The pod deletion spec is never inspected by the manager. *)
Context {PodDeletionSpec : Type}.

(** Modelled from the spec: the options of section 3.  [DrainSpec_] is a
    pointer: nil, or the address of the spec. *)
Record DriverUpgradePolicySpec : Type := mkDriverUpgradePolicySpec {
  AutoUpgrade : bool;
  MaxParallelUpgrades : Z;
  WaitForCompletion : option WaitForCompletionSpec;
  PodDeletion : option PodDeletionSpec;
  DrainSpec_ : option loc
}.

(** *** Collaborator calls *)

(** Modelled from the spec: the configurations handed to the Pod Manager
    and the Drain Manager (section 6), declared with these managers in other
    files; the fields are those the processors fill in. *)
Record PodManagerConfig : Type := mkPodManagerConfig {
  PodManagerConfig_Selector : string;
  PodManagerConfig_DeletionSpec : option PodDeletionSpec;
  PodManagerConfig_Nodes : list Node
}.

Record DrainConfiguration : Type := mkDrainConfiguration {
  DrainConfiguration_Spec : loc;
  DrainConfiguration_Nodes : list Node
}.

(** Modelled from the spec: one constructor per method of the four
    collaborator interfaces of section 6 (the context argument left out).
    [CallScheduleNodesDrain] also records what the spec it points to holds
    at the time of the call. *)
Inductive Call : Type :=
| CallChangeNodeUpgradeState (node : Node) (newNodeState : UpgradeState)
| CallChangeNodeUpgradeAnnotation (node : Node) (key value : string)
| CallCordon (node : Node)
| CallUncordon (node : Node)
| CallScheduleCheckOnPodCompletion (config : PodManagerConfig)
| CallSchedulePodEviction (config : PodManagerConfig)
| CallSchedulePodsRestart (pods : list Pod)
| CallScheduleNodesDrain (config : DrainConfiguration) (spec : DrainSpec).

(** A logged call with the answer it received ([None] is a nil error). *)
Definition Event : Type := Call * option error.

Record World : Type := mkWorld {
  calls : list Event;
  drainSpecs : loc -> DrainSpec
}.

(** *** What lies outside this file *)

(** The behaviour of the four collaborators. *)
Variable collaborators : list Event -> Call -> option error.

(** [utils.GetPodTemplateGeneration], [GetUpgradeInitialStateAnnotationKey],
    [GetUpgradeSkipNodeLabelKey] and [GetUpgradeSkipDrainPodLabelKey] are
    defined in other files. *)
Variable GetPodTemplateGeneration : Pod -> error + Z.
Variable GetUpgradeInitialStateAnnotationKey : string.
Variable GetUpgradeSkipNodeLabelKey : string.
Variable GetUpgradeSkipDrainPodLabelKey : string.

(** ** The monad of the manager: a world, and an error or a value *)

Definition M (A : Type) : Type := World -> (error + A) * World.

Definition ret {A : Type} (a : A) : M A := fun w => (inr a, w).

(** [return err] *)
Definition returnError {A : Type} (e : error) : M A := fun w => (inl e, w).

Definition bind {A B : Type} (m : M A) (k : A -> M B) : M B :=
  fun w =>
    match m w with
    | (inl e, w') => (inl e, w')
    | (inr a, w') => k a w'
    end.

Notation "x <- m ;; k" := (bind m (fun x => k))
  (at level 100, m at next level, right associativity).
Notation "m ;;; k" := (bind m (fun _ => k))
  (at level 100, right associativity).

(** Lifting of a pure [(value, error)] pair. *)
Definition lift {A : Type} (r : error + A) : M A :=
  match r with
  | inl e => returnError e
  | inr a => ret a
  end.

(** A collaborator call: logged, and its error (if any) returned. *)
Definition call (c : Call) : M unit :=
  fun w =>
    let r := collaborators (calls w) c in
    (match r with Some e => inl e | None => inr tt end,
     {| calls := calls w ++ [(c, r)]; drainSpecs := drainSpecs w |}).

(** [_ = f(...)]: the error is dropped. *)
Definition ignoreError (m : M unit) : M unit :=
  fun w => (inr tt, snd (m w)).

Definition readDrainSpec (l : loc) : M DrainSpec :=
  fun w => (inr (drainSpecs w l), w).

Definition writeDrainSpec (l : loc) (d : DrainSpec) : M unit :=
  fun w =>
    (inr tt,
     {| calls := calls w;
        drainSpecs := fun l' => if decide (l' = l) then d else drainSpecs w l' |}).

(** [for _, x := range l { body }] where the body either continues or
    returns an error. *)
Fixpoint forEach {A : Type} (l : list A) (body : A -> M unit) : M unit :=
  match l with
  | [] => ret tt
  | x :: rest => body x ;;; forEach rest body
  end.

(** [for _, x := range l { acc = body(acc, x) }] with the same two exits. *)
Fixpoint forEachAcc {A S : Type} (l : list A) (acc : S) (body : S -> A -> M S)
  : M S :=
  match l with
  | [] => ret acc
  | x :: rest => acc' <- body acc x ;; forEachAcc rest acc' body
  end.

(** ** Helpers of the manager (lines 548-588) *)

(** The loop over [ContainerStatuses]: false at the first container that is
    not ready. *)
Fixpoint containersReady (statuses : list ContainerStatus) : bool :=
  match statuses with
  | [] => true
  | c :: rest => if negb (ContainerStatus_Ready c) then false else containersReady rest
  end.

Definition isDriverPodInSync (nodeState : NodeUpgradeState) : error + bool :=
  match GetPodTemplateGeneration (DriverPod nodeState) with
  | inl err => inl err
  | inr podTemplateGeneration =>
      if (podTemplateGeneration =? GetGeneration (DriverDaemonSet nodeState))
         && String.eqb (Pod_Status_Phase (DriverPod nodeState)) "Running"
         && negb (GoInt.len (Pod_Status_ContainerStatuses (DriverPod nodeState)) =? 0)
      then inr (containersReady (Pod_Status_ContainerStatuses (DriverPod nodeState)))
      else inr false
  end.

(** [node.Labels[key]]: a missing key reads as the empty string. *)
Definition skipNodeUpgrade (node : Node) : bool :=
  if String.eqb (default "" (Node_Labels node !! GetUpgradeSkipNodeLabelKey)) "true"
  then true else false.

Definition isNodeUnschedulable (node : Node) : bool :=
  if Node_Spec_Unschedulable node then true else false.

(** ** The phase processors *)

Definition ProcessDoneOrUnknownNodes_body (nodeStateName : UpgradeState)
    (nodeState : NodeUpgradeState) : M unit :=
  podTemplateGeneration <- lift (GetPodTemplateGeneration (DriverPod nodeState)) ;;
  if negb (podTemplateGeneration =? GetGeneration (DriverDaemonSet nodeState)) then
    (if isNodeUnschedulable (Node_ nodeState) then
       call (CallChangeNodeUpgradeAnnotation (Node_ nodeState)
               GetUpgradeInitialStateAnnotationKey "true")
     else ret tt) ;;;
    call (CallChangeNodeUpgradeState (Node_ nodeState) UpgradeStateUpgradeRequired)
  else if decide (nodeStateName = UpgradeStateUnknown) then
    call (CallChangeNodeUpgradeState (Node_ nodeState) UpgradeStateDone)
  else ret tt.

Definition ProcessDoneOrUnknownNodes (currentClusterState : ClusterUpgradeState)
    (nodeStateName : UpgradeState) : M unit :=
  forEach (nodesIn currentClusterState nodeStateName)
          (ProcessDoneOrUnknownNodes_body nodeStateName).

(** The loop of [ProcessUpgradeRequiredNodes]: [break] when the limit is
    used up, [continue] on a node labelled for skipping, [limit--] after a
    successful write. *)
Fixpoint ProcessUpgradeRequiredNodes_loop (l : list NodeUpgradeState) (limit : Z)
  : M unit :=
  match l with
  | [] => ret tt
  | nodeState :: rest =>
      if limit <=? 0 then ret tt
      else if skipNodeUpgrade (Node_ nodeState) then
        ProcessUpgradeRequiredNodes_loop rest limit
      else
        call (CallChangeNodeUpgradeState (Node_ nodeState) UpgradeStateCordonRequired) ;;;
        ProcessUpgradeRequiredNodes_loop rest (GoInt.sub limit 1)
  end.

Definition ProcessUpgradeRequiredNodes (currentClusterState : ClusterUpgradeState)
    (limit : Z) : M unit :=
  ProcessUpgradeRequiredNodes_loop
    (nodesIn currentClusterState UpgradeStateUpgradeRequired) limit.

Definition ProcessCordonRequiredNodes_body (nodeState : NodeUpgradeState) : M unit :=
  call (CallCordon (Node_ nodeState)) ;;;
  call (CallChangeNodeUpgradeState (Node_ nodeState) UpgradeStateWaitForJobsRequired).

Definition ProcessCordonRequiredNodes (currentClusterState : ClusterUpgradeState)
  : M unit :=
  forEach (nodesIn currentClusterState UpgradeStateCordonRequired)
          ProcessCordonRequiredNodes_body.

(** [waitForCompletionSpec == nil || waitForCompletionSpec.PodSelector == ""] *)
Definition noWaitSelector (waitForCompletionSpec : option WaitForCompletionSpec)
  : bool :=
  match waitForCompletionSpec with
  | None => true
  | Some spec => String.eqb (WaitForCompletionSpec_PodSelector spec) ""
  end.

Definition ProcessWaitForJobsRequiredNodes (currentClusterState : ClusterUpgradeState)
    (waitForCompletionSpec : option WaitForCompletionSpec) : M unit :=
  nodes <- forEachAcc (nodesIn currentClusterState UpgradeStateWaitForJobsRequired) []
    (fun nodes nodeState =>
       let nodes := nodes ++ [Node_ nodeState] in
       (if noWaitSelector waitForCompletionSpec then
          ignoreError (call (CallChangeNodeUpgradeState (Node_ nodeState)
                               UpgradeStatePodDeletionRequired))
        else ret tt) ;;;
       ret nodes) ;;
  match waitForCompletionSpec with
  | None => ret tt
  | Some spec =>
      if String.eqb (WaitForCompletionSpec_PodSelector spec) "" then ret tt
      else if GoInt.len nodes =? 0 then ret tt
      else
        call (CallScheduleCheckOnPodCompletion
                {| PodManagerConfig_Selector := WaitForCompletionSpec_PodSelector spec;
                   PodManagerConfig_DeletionSpec := None;
                   PodManagerConfig_Nodes := nodes |})
  end.

Definition ProcessPodDeletionRequiredNodes (currentClusterState : ClusterUpgradeState)
    (podDeletionSpec : option PodDeletionSpec) : M unit :=
  let nodes :=
    map Node_ (nodesIn currentClusterState UpgradeStatePodDeletionRequired) in
  if GoInt.len nodes =? 0 then ret tt
  else
    call (CallSchedulePodEviction
            {| PodManagerConfig_Selector := "";
               PodManagerConfig_DeletionSpec := podDeletionSpec;
               PodManagerConfig_Nodes := nodes |}).

(** [fmt.Sprintf("%s!=true", GetUpgradeSkipDrainPodLabelKey())] *)
Definition skipDrainPodSelector : string :=
  GetUpgradeSkipDrainPodLabelKey +:+ "!=true".

Definition ProcessDrainNodes (currentClusterState : ClusterUpgradeState)
    (drainSpec : option loc) : M unit :=
  let disabled :=
    forEach (nodesIn currentClusterState UpgradeStateDrainRequired)
      (fun nodeState =>
         call (CallChangeNodeUpgradeState (Node_ nodeState)
                 UpgradeStatePodRestartRequired)) in
  match drainSpec with
  | None => disabled
  | Some p =>
      spec <- readDrainSpec p ;;
      if negb (DrainSpec_Enable spec) then disabled
      else
        (if String.eqb (DrainSpec_PodSelector spec) "" then
           writeDrainSpec p
             {| DrainSpec_Enable := DrainSpec_Enable spec;
                DrainSpec_PodSelector := skipDrainPodSelector |}
         else
           writeDrainSpec p
             {| DrainSpec_Enable := DrainSpec_Enable spec;
                DrainSpec_PodSelector :=
                  DrainSpec_PodSelector spec +:+ "," +:+ skipDrainPodSelector |}) ;;;
        spec' <- readDrainSpec p ;;
        call (CallScheduleNodesDrain
                {| DrainConfiguration_Spec := p;
                   DrainConfiguration_Nodes :=
                     map Node_ (nodesIn currentClusterState UpgradeStateDrainRequired) |}
                spec')
  end.

(** The block shared by [ProcessPodRestartNodes] (lines 443-471) and
    [ProcessUpgradeFailedNodes] (lines 492-519): what is done for a node
    whose driver pod is in sync. *)
Definition driverPodInSync_block (nodeState : NodeUpgradeState) : M unit :=
  let annotationKey := GetUpgradeInitialStateAnnotationKey in
  let newUpgradeState :=
    if decide (is_Some (Node_Annotations (Node_ nodeState) !! annotationKey))
    then UpgradeStateDone else UpgradeStateUncordonRequired in
  call (CallChangeNodeUpgradeState (Node_ nodeState) newUpgradeState) ;;;
  if decide (newUpgradeState = UpgradeStateDone) then
    call (CallChangeNodeUpgradeAnnotation (Node_ nodeState) annotationKey "null")
  else ret tt.

Definition ProcessPodRestartNodes_body (pods : list Pod) (nodeState : NodeUpgradeState)
  : M (list Pod) :=
  podTemplateGeneration <- lift (GetPodTemplateGeneration (DriverPod nodeState)) ;;
  if negb (podTemplateGeneration =? GetGeneration (DriverDaemonSet nodeState)) then
    if Time_IsZero (Pod_DeletionTimestamp (DriverPod nodeState))
    then ret (pods ++ [DriverPod nodeState])
    else ret pods
  else
    driverPodInSync <- lift (isDriverPodInSync nodeState) ;;
    (if driverPodInSync : bool then driverPodInSync_block nodeState else ret tt) ;;;
    ret pods.

Definition ProcessPodRestartNodes (currentClusterState : ClusterUpgradeState)
  : M unit :=
  pods <- forEachAcc (nodesIn currentClusterState UpgradeStatePodRestartRequired) []
            ProcessPodRestartNodes_body ;;
  call (CallSchedulePodsRestart pods).

Definition ProcessUpgradeFailedNodes_body (nodeState : NodeUpgradeState) : M unit :=
  driverPodInSync <- lift (isDriverPodInSync nodeState) ;;
  if driverPodInSync : bool then driverPodInSync_block nodeState else ret tt.

Definition ProcessUpgradeFailedNodes (currentClusterState : ClusterUpgradeState)
  : M unit :=
  forEach (nodesIn currentClusterState UpgradeStateFailed)
          ProcessUpgradeFailedNodes_body.

Definition ProcessUncordonRequiredNodes_body (nodeState : NodeUpgradeState) : M unit :=
  call (CallUncordon (Node_ nodeState)) ;;;
  call (CallChangeNodeUpgradeState (Node_ nodeState) UpgradeStateDone).

Definition ProcessUncordonRequiredNodes (currentClusterState : ClusterUpgradeState)
  : M unit :=
  forEach (nodesIn currentClusterState UpgradeStateUncordonRequired)
          ProcessUncordonRequiredNodes_body.

(** ** ApplyState *)

Definition upgradesInProgress (currentState : ClusterUpgradeState) : Z :=
  GoInt.add (GoInt.add (GoInt.add (GoInt.add (GoInt.add (GoInt.add
    (GoInt.len (nodesIn currentState UpgradeStateCordonRequired))
    (GoInt.len (nodesIn currentState UpgradeStateDrainRequired)))
    (GoInt.len (nodesIn currentState UpgradeStatePodRestartRequired)))
    (GoInt.len (nodesIn currentState UpgradeStateWaitForJobsRequired)))
    (GoInt.len (nodesIn currentState UpgradeStatePodDeletionRequired)))
    (GoInt.len (nodesIn currentState UpgradeStateFailed)))
    (GoInt.len (nodesIn currentState UpgradeStateUncordonRequired)).

Definition upgradesAvailable (currentState : ClusterUpgradeState)
    (upgradePolicy : DriverUpgradePolicySpec) : Z :=
  if MaxParallelUpgrades upgradePolicy =? 0 then
    GoInt.len (nodesIn currentState UpgradeStateUpgradeRequired)
  else
    GoInt.sub (MaxParallelUpgrades upgradePolicy) (upgradesInProgress currentState).

Definition ApplyState (currentState : option ClusterUpgradeState)
    (upgradePolicy : option DriverUpgradePolicySpec) : M unit :=
  match currentState with
  | None => returnError "currentState should not be empty"
  | Some currentState =>
      match upgradePolicy with
      | None => ret tt
      | Some upgradePolicy =>
          if negb (AutoUpgrade upgradePolicy) then ret tt
          else
            ProcessDoneOrUnknownNodes currentState UpgradeStateUnknown ;;;
            ProcessDoneOrUnknownNodes currentState UpgradeStateDone ;;;
            ProcessUpgradeRequiredNodes currentState
              (upgradesAvailable currentState upgradePolicy) ;;;
            ProcessCordonRequiredNodes currentState ;;;
            ProcessWaitForJobsRequiredNodes currentState
              (WaitForCompletion upgradePolicy) ;;;
            ProcessPodDeletionRequiredNodes currentState (PodDeletion upgradePolicy) ;;;
            ProcessDrainNodes currentState (DrainSpec_ upgradePolicy) ;;;
            ProcessPodRestartNodes currentState ;;;
            ProcessUpgradeFailedNodes currentState ;;;
            ProcessUncordonRequiredNodes currentState
      end
  end.

(** ** Scripts: the calls of a pass, laid out ahead of time

    Which calls a processor makes, and in which order, is fixed by the
    snapshot, the policy and the drain spec store; the collaborators only
    decide where the pass stops.  A script lists the steps; [runScript]
    plays it against the collaborators. *)

Inductive Step : Type :=
| Do (c : Call)       (* a call whose error ends the pass *)
| Try (c : Call)      (* a call whose error is dropped *)
| Abort (e : error)   (* an error found without any call *)
| SetDrainSpec (l : loc) (d : DrainSpec).

Definition updateSpec (h : loc -> DrainSpec) (l : loc) (d : DrainSpec)
  : loc -> DrainSpec :=
  fun l' => if decide (l' = l) then d else h l'.

Fixpoint runScript (s : list Step) : M unit :=
  match s with
  | [] => ret tt
  | Do c :: s' => call c ;;; runScript s'
  | Try c :: s' => ignoreError (call c) ;;; runScript s'
  | Abort e :: _ => returnError e
  | SetDrainSpec l d :: s' => writeDrainSpec l d ;;; runScript s'
  end.

Fixpoint stepCalls (s : list Step) : list Call :=
  match s with
  | [] => []
  | Do c :: s' => c :: stepCalls s'
  | Try c :: s' => c :: stepCalls s'
  | Abort _ :: s' => stepCalls s'
  | SetDrainSpec _ _ :: s' => stepCalls s'
  end.

Fixpoint tryCalls (s : list Step) : list Call :=
  match s with
  | [] => []
  | Try c :: s' => c :: tryCalls s'
  | _ :: s' => tryCalls s'
  end.

Definition isSet (st : Step) : bool :=
  match st with SetDrainSpec _ _ => true | _ => false end.

Definition noSet (s : list Step) : Prop := forallb (fun st => negb (isSet st)) s = true.

Definition ok (c : Call) : Event := (c, None).

(** The outcomes a script can have: the calls logged, the result and the
    store at the end. *)
Inductive Ran : list Step -> (loc -> DrainSpec) -> list Event -> error + unit ->
                (loc -> DrainSpec) -> Prop :=
| Ran_nil h : Ran [] h [] (inr tt) h
| Ran_do_ok c s h d r h' :
    Ran s h d r h' -> Ran (Do c :: s) h ((c, None) :: d) r h'
| Ran_do_err c e s h : Ran (Do c :: s) h [(c, Some e)] (inl e) h
| Ran_try c a s h d r h' :
    Ran s h d r h' -> Ran (Try c :: s) h ((c, a) :: d) r h'
| Ran_abort e s h : Ran (Abort e :: s) h [] (inl e) h
| Ran_set l ds s h d r h' :
    Ran s (updateSpec h l ds) d r h' -> Ran (SetDrainSpec l ds :: s) h d r h'.

(** The steps of each processor. *)

Definition ProcessDoneOrUnknownNodes_steps (nodeStateName : UpgradeState)
    (nodeState : NodeUpgradeState) : list Step :=
  match GetPodTemplateGeneration (DriverPod nodeState) with
  | inl e => [Abort e]
  | inr g =>
      if negb (g =? GetGeneration (DriverDaemonSet nodeState)) then
        (if isNodeUnschedulable (Node_ nodeState) then
           [Do (CallChangeNodeUpgradeAnnotation (Node_ nodeState)
                  GetUpgradeInitialStateAnnotationKey "true")]
         else []) ++
        [Do (CallChangeNodeUpgradeState (Node_ nodeState) UpgradeStateUpgradeRequired)]
      else if decide (nodeStateName = UpgradeStateUnknown) then
        [Do (CallChangeNodeUpgradeState (Node_ nodeState) UpgradeStateDone)]
      else []
  end.

Fixpoint ProcessUpgradeRequiredNodes_steps (l : list NodeUpgradeState) (limit : Z)
  : list Step :=
  match l with
  | [] => []
  | nodeState :: rest =>
      if limit <=? 0 then []
      else if skipNodeUpgrade (Node_ nodeState) then
        ProcessUpgradeRequiredNodes_steps rest limit
      else
        Do (CallChangeNodeUpgradeState (Node_ nodeState) UpgradeStateCordonRequired)
        :: ProcessUpgradeRequiredNodes_steps rest (GoInt.sub limit 1)
  end.

Definition ProcessCordonRequiredNodes_steps (nodeState : NodeUpgradeState)
  : list Step :=
  [Do (CallCordon (Node_ nodeState));
   Do (CallChangeNodeUpgradeState (Node_ nodeState) UpgradeStateWaitForJobsRequired)].

Definition ProcessWaitForJobsRequiredNodes_steps (l : list NodeUpgradeState)
    (waitForCompletionSpec : option WaitForCompletionSpec) : list Step :=
  match waitForCompletionSpec with
  | None =>
      map (fun ns => Try (CallChangeNodeUpgradeState (Node_ ns)
                            UpgradeStatePodDeletionRequired)) l
  | Some spec =>
      if String.eqb (WaitForCompletionSpec_PodSelector spec) "" then
        map (fun ns => Try (CallChangeNodeUpgradeState (Node_ ns)
                              UpgradeStatePodDeletionRequired)) l
      else if GoInt.len l =? 0 then []
      else
        [Do (CallScheduleCheckOnPodCompletion
               {| PodManagerConfig_Selector := WaitForCompletionSpec_PodSelector spec;
                  PodManagerConfig_DeletionSpec := None;
                  PodManagerConfig_Nodes := map Node_ l |})]
  end.

Definition ProcessPodDeletionRequiredNodes_steps (l : list NodeUpgradeState)
    (podDeletionSpec : option PodDeletionSpec) : list Step :=
  if GoInt.len l =? 0 then []
  else
    [Do (CallSchedulePodEviction
           {| PodManagerConfig_Selector := "";
              PodManagerConfig_DeletionSpec := podDeletionSpec;
              PodManagerConfig_Nodes := map Node_ l |})].

Definition drainDisabled_steps (l : list NodeUpgradeState) : list Step :=
  map (fun ns => Do (CallChangeNodeUpgradeState (Node_ ns)
                       UpgradeStatePodRestartRequired)) l.

(** [drainSpec.PodSelector] after the assignment of lines 398-402. *)
Definition augmentedSelector (selector : string) : string :=
  if String.eqb selector "" then skipDrainPodSelector
  else selector +:+ "," +:+ skipDrainPodSelector.

Definition augmentedSpec (spec : DrainSpec) : DrainSpec :=
  {| DrainSpec_Enable := DrainSpec_Enable spec;
     DrainSpec_PodSelector := augmentedSelector (DrainSpec_PodSelector spec) |}.

Definition ProcessDrainNodes_steps (l : list NodeUpgradeState)
    (drainSpec : option loc) (h : loc -> DrainSpec) : list Step :=
  match drainSpec with
  | None => drainDisabled_steps l
  | Some p =>
      if negb (DrainSpec_Enable (h p)) then drainDisabled_steps l
      else
        [SetDrainSpec p (augmentedSpec (h p));
         Do (CallScheduleNodesDrain
               {| DrainConfiguration_Spec := p;
                  DrainConfiguration_Nodes := map Node_ l |}
               (augmentedSpec (h p)))]
  end.

Definition driverPodInSync_steps (nodeState : NodeUpgradeState) : list Step :=
  if decide (is_Some (Node_Annotations (Node_ nodeState)
                        !! GetUpgradeInitialStateAnnotationKey)) then
    [Do (CallChangeNodeUpgradeState (Node_ nodeState) UpgradeStateDone);
     Do (CallChangeNodeUpgradeAnnotation (Node_ nodeState)
           GetUpgradeInitialStateAnnotationKey "null")]
  else
    [Do (CallChangeNodeUpgradeState (Node_ nodeState) UpgradeStateUncordonRequired)].

Definition ProcessUpgradeFailedNodes_steps (nodeState : NodeUpgradeState)
  : list Step :=
  match isDriverPodInSync nodeState with
  | inl e => [Abort e]
  | inr true => driverPodInSync_steps nodeState
  | inr false => []
  end.

Definition ProcessPodRestartNodes_steps (nodeState : NodeUpgradeState) : list Step :=
  match GetPodTemplateGeneration (DriverPod nodeState) with
  | inl e => [Abort e]
  | inr g =>
      if negb (g =? GetGeneration (DriverDaemonSet nodeState)) then []
      else ProcessUpgradeFailedNodes_steps nodeState
  end.

(** The driver pods handed to [SchedulePodsRestart]. *)
Definition ProcessPodRestartNodes_pods (nodeState : NodeUpgradeState) : list Pod :=
  match GetPodTemplateGeneration (DriverPod nodeState) with
  | inl _ => []
  | inr g =>
      if negb (g =? GetGeneration (DriverDaemonSet nodeState))
         && Time_IsZero (Pod_DeletionTimestamp (DriverPod nodeState))
      then [DriverPod nodeState] else []
  end.

Definition ProcessUncordonRequiredNodes_steps (nodeState : NodeUpgradeState)
  : list Step :=
  [Do (CallUncordon (Node_ nodeState));
   Do (CallChangeNodeUpgradeState (Node_ nodeState) UpgradeStateDone)].

(** The steps of the processors that run before and after the drain
    processor, and of the whole pass. *)
Definition ApplyState_stepsBefore (cs : ClusterUpgradeState)
    (pol : DriverUpgradePolicySpec) : list Step :=
  flat_map (ProcessDoneOrUnknownNodes_steps UpgradeStateUnknown)
           (nodesIn cs UpgradeStateUnknown) ++
  flat_map (ProcessDoneOrUnknownNodes_steps UpgradeStateDone)
           (nodesIn cs UpgradeStateDone) ++
  ProcessUpgradeRequiredNodes_steps (nodesIn cs UpgradeStateUpgradeRequired)
                                    (upgradesAvailable cs pol) ++
  flat_map ProcessCordonRequiredNodes_steps (nodesIn cs UpgradeStateCordonRequired) ++
  ProcessWaitForJobsRequiredNodes_steps (nodesIn cs UpgradeStateWaitForJobsRequired)
                                        (WaitForCompletion pol) ++
  ProcessPodDeletionRequiredNodes_steps (nodesIn cs UpgradeStatePodDeletionRequired)
                                        (PodDeletion pol).

Definition ApplyState_stepsAfter (cs : ClusterUpgradeState) : list Step :=
  (flat_map ProcessPodRestartNodes_steps (nodesIn cs UpgradeStatePodRestartRequired) ++
   [Do (CallSchedulePodsRestart
          (flat_map ProcessPodRestartNodes_pods
                    (nodesIn cs UpgradeStatePodRestartRequired)))]) ++
  flat_map ProcessUpgradeFailedNodes_steps (nodesIn cs UpgradeStateFailed) ++
  flat_map ProcessUncordonRequiredNodes_steps (nodesIn cs UpgradeStateUncordonRequired).

Definition ApplyState_steps (cs : ClusterUpgradeState) (pol : DriverUpgradePolicySpec)
    (h : loc -> DrainSpec) : list Step :=
  ApplyState_stepsBefore cs pol ++
  ProcessDrainNodes_steps (nodesIn cs UpgradeStateDrainRequired) (DrainSpec_ pol) h ++
  ApplyState_stepsAfter cs.

(** ** Vocabulary of the properties *)

Definition nodesOf (cs : ClusterUpgradeState) (k : UpgradeState) : list Node :=
  map Node_ (nodesIn cs k).

Definition allPhases : list UpgradeState :=
  [UpgradeStateUnknown; UpgradeStateDone; UpgradeStateUpgradeRequired;
   UpgradeStateCordonRequired; UpgradeStateWaitForJobsRequired;
   UpgradeStatePodDeletionRequired; UpgradeStateDrainRequired;
   UpgradeStatePodRestartRequired; UpgradeStateFailed;
   UpgradeStateUncordonRequired].

(** The seven phases between "needs upgrade" and "finished". *)
Definition inProgressPhases : list UpgradeState :=
  [UpgradeStateCordonRequired; UpgradeStateWaitForJobsRequired;
   UpgradeStatePodDeletionRequired; UpgradeStateDrainRequired;
   UpgradeStatePodRestartRequired; UpgradeStateFailed;
   UpgradeStateUncordonRequired].

Definition countNodes (cs : ClusterUpgradeState) (phases : list UpgradeState) : Z :=
  Z.of_nat (length (flat_map (nodesIn cs) phases)).

(** A snapshot that a Go program can hold: fewer than 2^63 nodes. *)
Definition snapshotFits (cs : ClusterUpgradeState) : Prop :=
  countNodes cs allPhases <= GoInt.max_int.

Definition isStateWrite (st : UpgradeState) (c : Call) : bool :=
  match c with
  | CallChangeNodeUpgradeState _ st' => bool_decide (st' = st)
  | _ => false
  end.

(** The node moved to [st] by a logged call: the target of a write of [st]
    that returned nil. *)
Definition movedBy (st : UpgradeState) (ev : Event) : list Node :=
  match ev with
  | (CallChangeNodeUpgradeState n st', None) =>
      if decide (st' = st) then [n] else []
  | _ => []
  end.

(** The nodes whose phase was set to [st], in the order of the writes. *)
Definition movedTo (st : UpgradeState) (d : list Event) : list Node :=
  flat_map (movedBy st) d.

(** The nodes of a list that do not carry the skip-upgrade label. *)
Definition eligible (l : list NodeUpgradeState) : list Node :=
  map Node_ (List.filter (fun ns => negb (skipNodeUpgrade (Node_ ns))) l).

(** Where a call of the pass can come from: processor [X] only writes to
    nodes of its own list, and only the phases of its exit transitions. *)
Definition exitPhases (X : UpgradeState) : list UpgradeState :=
  match X with
  | UpgradeStateUnknown => [UpgradeStateUpgradeRequired; UpgradeStateDone]
  | UpgradeStateDone => [UpgradeStateUpgradeRequired]
  | UpgradeStateUpgradeRequired => [UpgradeStateCordonRequired]
  | UpgradeStateCordonRequired => [UpgradeStateWaitForJobsRequired]
  | UpgradeStateWaitForJobsRequired => [UpgradeStatePodDeletionRequired]
  | UpgradeStatePodDeletionRequired => []
  | UpgradeStateDrainRequired => [UpgradeStatePodRestartRequired]
  | UpgradeStatePodRestartRequired => [UpgradeStateUncordonRequired; UpgradeStateDone]
  | UpgradeStateFailed => [UpgradeStateUncordonRequired; UpgradeStateDone]
  | UpgradeStateUncordonRequired => [UpgradeStateDone]
  end.

Definition callFrom (cs : ClusterUpgradeState) (X : UpgradeState) (c : Call) : Prop :=
  match c with
  | CallChangeNodeUpgradeState n st =>
      In n (nodesOf cs X) /\ In st (exitPhases X) /\
      (X = UpgradeStateUpgradeRequired -> skipNodeUpgrade n = false)
  | CallChangeNodeUpgradeAnnotation n _ _ => In n (nodesOf cs X)
  | CallCordon n => X = UpgradeStateCordonRequired /\ In n (nodesOf cs X)
  | CallUncordon n => X = UpgradeStateUncordonRequired /\ In n (nodesOf cs X)
  | CallScheduleCheckOnPodCompletion _ => X = UpgradeStateWaitForJobsRequired
  | CallSchedulePodEviction _ => X = UpgradeStatePodDeletionRequired
  | CallSchedulePodsRestart _ => X = UpgradeStatePodRestartRequired
  | CallScheduleNodesDrain _ _ => X = UpgradeStateDrainRequired
  end.

(** [followedBy next s]: in the script [s], every call [c] with
    [next c = Some c'] is an error-checked call and the step after it is the
    error-checked call [c']. *)
Fixpoint followedBy (next : Call -> option Call) (s : list Step) : Prop :=
  match s with
  | [] => True
  | st :: s' =>
      match st with
      | Do c =>
          match next c with
          | Some c' => exists s'', s' = Do c' :: s''
          | None => True
          end
      | Try c => match next c with Some _ => False | None => True end
      | _ => True
      end /\ followedBy next s'
  end.

Definition callFromSome (cs : ClusterUpgradeState) (Xs : list UpgradeState)
    (c : Call) : Prop :=
  exists X, In X Xs /\ callFrom cs X c.

(** The three conditions under which the driver pod is said to be in sync:
    generations equal, pod running, every reported container ready. *)
Definition claimedInSync (ns : NodeUpgradeState) : Prop :=
  GetPodTemplateGeneration (DriverPod ns) = inr (GetGeneration (DriverDaemonSet ns)) /\
  Pod_Status_Phase (DriverPod ns) = "Running" /\
  (forall c, In c (Pod_Status_ContainerStatuses (DriverPod ns)) ->
             ContainerStatus_Ready c = true).

(** The same with the fourth condition of the code: at least one container
    status is reported. *)
Definition inSyncCondition (ns : NodeUpgradeState) : Prop :=
  claimedInSync ns /\ Pod_Status_ContainerStatuses (DriverPod ns) <> [].

(** The ten processors in the order of section 4.1, and what running them
    in order means: each starts where the previous one ended, and the first
    error ends the run. *)
Definition phaseProcessors (cs : ClusterUpgradeState) (pol : DriverUpgradePolicySpec)
  : list (M unit) :=
  [ProcessDoneOrUnknownNodes cs UpgradeStateUnknown;
   ProcessDoneOrUnknownNodes cs UpgradeStateDone;
   ProcessUpgradeRequiredNodes cs (upgradesAvailable cs pol);
   ProcessCordonRequiredNodes cs;
   ProcessWaitForJobsRequiredNodes cs (WaitForCompletion pol);
   ProcessPodDeletionRequiredNodes cs (PodDeletion pol);
   ProcessDrainNodes cs (DrainSpec_ pol);
   ProcessPodRestartNodes cs;
   ProcessUpgradeFailedNodes cs;
   ProcessUncordonRequiredNodes cs].

Fixpoint runInOrder (ps : list (M unit)) (w : World) : (error + unit) * World :=
  match ps with
  | [] => (inr tt, w)
  | p :: rest =>
      match p w with
      | (inl e, w') => (inl e, w')
      | (inr _, w') => runInOrder rest w'
      end
  end.

(** A program that only adds to the log. *)
Definition extendsLog (p : M unit) : Prop :=
  forall w, calls w `prefix_of` calls (snd (p w)).

(** ** Example data *)

Definition exInitialStateKey : string := "example.com/upgrade-initial-state".
Definition exSkipNodeKey : string := "example.com/upgrade-skip".
Definition exSkipDrainKey : string := "example.com/upgrade-skip-drain".

(** A template generation read off a pod label, for generations 1 and 2. *)
Definition exGetPodTemplateGeneration (pod : Pod) : error + Z :=
  match Pod_Labels pod !! "pod-template-generation" with
  | Some "1" => inr 1
  | Some "2" => inr 2
  | _ => inl "pod-template-generation label missing"
  end.

Definition exDaemonSet : DaemonSet :=
  {| DaemonSet_Name := "driver"; DaemonSet_Generation := 2 |}.

Definition exPod (name generation : string) (statuses : list ContainerStatus) : Pod :=
  {| Pod_Name := name;
     Pod_Labels := {[ "pod-template-generation" := generation ]};
     Pod_DeletionTimestamp := None;
     Pod_Status_Phase := "Running";
     Pod_Status_ContainerStatuses := statuses |}.

Definition exReady : list ContainerStatus :=
  [{| ContainerStatus_Name := "driver"; ContainerStatus_Ready := true |}].

Definition exNode (name : string) (labels annotations : gmap string string)
    (unschedulable : bool) : Node :=
  {| Node_Name := name; Node_Labels := labels; Node_Annotations := annotations;
     Node_Spec_Unschedulable := unschedulable |}.

Definition exUnit (node : Node) (generation : string)
    (statuses : list ContainerStatus) : NodeUpgradeState :=
  {| Node_ := node;
     DriverPod := exPod (Node_Name node) generation statuses;
     DriverDaemonSet := exDaemonSet |}.

Definition exSnapshot (l : list (UpgradeState * list NodeUpgradeState))
  : ClusterUpgradeState :=
  {| NodeStates := list_to_map l |}.

Definition exPolicy (maxParallel : Z) (drain : option loc) : DriverUpgradePolicySpec :=
  {| AutoUpgrade := true; MaxParallelUpgrades := maxParallel;
     WaitForCompletion := None; PodDeletion := None; DrainSpec_ := drain |}.

Definition exWorld (drainEnabled : bool) : World :=
  {| calls := [];
     drainSpecs := fun _ => {| DrainSpec_Enable := drainEnabled;
                               DrainSpec_PodSelector := "" |} |}.

(** Collaborators that never fail, and collaborators whose cordon fails. *)
Definition exAllSucceed : list Event -> Call -> option error :=
  fun _ _ => None.

Definition exCordonFails : list Event -> Call -> option error :=
  fun _ c => match c with CallCordon _ => Some "cordon refused" | _ => None end.

(** A driver pod of the current generation, running, with no container
    status reported yet. *)
Definition exNoStatus : NodeUpgradeState :=
  exUnit (exNode "n0" ∅ ∅ false) "2" [].

(** *** What a pass is expected to do for a node *)

(** Unknown and Done nodes: a node whose generations differ gets the
    preservation annotation if it is unschedulable, then UpgradeRequired; a
    node whose generations match gets Done if it was Unknown and nothing if
    it was Done. *)
Definition expectedDoneOrUnknown (nodeStateName : UpgradeState)
    (ns : NodeUpgradeState) : list Call :=
  match GetPodTemplateGeneration (DriverPod ns) with
  | inl _ => []
  | inr g =>
      if decide (g <> GetGeneration (DriverDaemonSet ns)) then
        (if Node_Spec_Unschedulable (Node_ ns) then
           [CallChangeNodeUpgradeAnnotation (Node_ ns)
              GetUpgradeInitialStateAnnotationKey "true"]
         else []) ++
        [CallChangeNodeUpgradeState (Node_ ns) UpgradeStateUpgradeRequired]
      else
        match nodeStateName with
        | UpgradeStateUnknown =>
            [CallChangeNodeUpgradeState (Node_ ns) UpgradeStateDone]
        | _ => []
        end
  end.

(** PodRestartRequired and Failed nodes whose driver pod is in sync: Done
    and the annotation cleared when the annotation is present,
    UncordonRequired when it is absent. *)
Definition expectedInSync (ns : NodeUpgradeState) : list Call :=
  match isDriverPodInSync ns with
  | inr true =>
      match Node_Annotations (Node_ ns) !! GetUpgradeInitialStateAnnotationKey with
      | Some _ =>
          [CallChangeNodeUpgradeState (Node_ ns) UpgradeStateDone;
           CallChangeNodeUpgradeAnnotation (Node_ ns)
             GetUpgradeInitialStateAnnotationKey "null"]
      | None =>
          [CallChangeNodeUpgradeState (Node_ ns) UpgradeStateUncordonRequired]
      end
  | _ => []
  end.

(** CordonRequired nodes: what follows a cordon that returned nil. *)
Definition cordonNext (c : Call) : option Call :=
  match c with
  | CallCordon n => Some (CallChangeNodeUpgradeState n UpgradeStateWaitForJobsRequired)
  | _ => None
  end.

Definition isPhaseWriteFor (n : Node) (c : Call) : Prop :=
  exists st, c = CallChangeNodeUpgradeState n st.

Definition isDrainCall (c : Call) : Prop :=
  match c with
  | CallScheduleNodesDrain _ _ => True
  | _ => False
  end.

(** Drain is disabled: the policy has no drain spec, or one whose [Enable]
    is false. *)
Definition drainDisabled (pol : DriverUpgradePolicySpec) (w : World) : Prop :=
  match DrainSpec_ pol with
  | None => True
  | Some p => DrainSpec_Enable (drainSpecs w p) = false
  end.

(** *** Repeated drain passes over one policy object *)

(** The world after [ProcessDrainNodes] has run once for each snapshot of
    [css], every time with the drain spec at address [p]. *)
Fixpoint drainPasses (css : list ClusterUpgradeState) (p : loc) (w : World)
  : World :=
  match css with
  | [] => w
  | cs :: rest => drainPasses rest p (snd (ProcessDrainNodes cs (Some p) w))
  end.

(** [selector] followed by [n] copies of the exclusion term, joined by
    commas. *)
Fixpoint withCopies (selector : string) (n : nat) : string :=
  match n with
  | O => selector
  | S n' =>
      match withCopies selector n' with
      | EmptyString => skipDrainPodSelector
      | s => s +:+ "," +:+ skipDrainPodSelector
      end
  end.

(** The selectors handed to the Drain Manager, in the order of the calls. *)
Definition drainSelectors (d : list Event) : list string :=
  flat_map (fun ev =>
              match fst ev with
              | CallScheduleNodesDrain _ spec => [DrainSpec_PodSelector spec]
              | _ => []
              end) d.

(** The steps of a pass before and after those of the cordon processor. *)
Definition stepsBeforeCordon (cs : ClusterUpgradeState)
    (pol : DriverUpgradePolicySpec) : list Step :=
  flat_map (ProcessDoneOrUnknownNodes_steps UpgradeStateUnknown)
           (nodesIn cs UpgradeStateUnknown) ++
  flat_map (ProcessDoneOrUnknownNodes_steps UpgradeStateDone)
           (nodesIn cs UpgradeStateDone) ++
  ProcessUpgradeRequiredNodes_steps (nodesIn cs UpgradeStateUpgradeRequired)
                                    (upgradesAvailable cs pol).

Definition stepsAfterCordon (cs : ClusterUpgradeState)
    (pol : DriverUpgradePolicySpec) (h : loc -> DrainSpec) : list Step :=
  ProcessWaitForJobsRequiredNodes_steps (nodesIn cs UpgradeStateWaitForJobsRequired)
                                        (WaitForCompletion pol) ++
  ProcessPodDeletionRequiredNodes_steps (nodesIn cs UpgradeStatePodDeletionRequired)
                                        (PodDeletion pol) ++
  ProcessDrainNodes_steps (nodesIn cs UpgradeStateDrainRequired) (DrainSpec_ pol) h ++
  ApplyState_stepsAfter cs.

(** A cluster with nodes in seven phases.  The daemonset is at generation 2;
    [exNodeA], [exNodeB], [exNodeS], [exNodeU], [exNodeC] and [exNodeD] run
    a driver pod of generation 1, [exNodeR] and [exNodeF] one of generation
    2 that is running and ready.  [exNodeB] is unschedulable, [exNodeS]
    carries the skip-upgrade label and [exNodeR] the preservation
    annotation. *)
Definition exNodeA : Node := exNode "a" ∅ ∅ false.
Definition exNodeB : Node := exNode "b" ∅ ∅ true.
Definition exNodeS : Node := exNode "s" {[ exSkipNodeKey := "true" ]} ∅ false.
Definition exNodeU : Node := exNode "u" ∅ ∅ false.
Definition exNodeC : Node := exNode "c" ∅ ∅ false.
Definition exNodeD : Node := exNode "d" ∅ ∅ false.
Definition exNodeR : Node := exNode "r" ∅ {[ exInitialStateKey := "true" ]} true.
Definition exNodeF : Node := exNode "f" ∅ ∅ false.

Definition exCluster : ClusterUpgradeState :=
  exSnapshot
    [(UpgradeStateUnknown, [exUnit exNodeA "1" exReady]);
     (UpgradeStateDone, [exUnit exNodeB "1" exReady]);
     (UpgradeStateUpgradeRequired,
      [exUnit exNodeS "1" exReady; exUnit exNodeU "1" exReady]);
     (UpgradeStateCordonRequired, [exUnit exNodeC "1" exReady]);
     (UpgradeStateDrainRequired, [exUnit exNodeD "1" exReady]);
     (UpgradeStatePodRestartRequired, [exUnit exNodeR "2" exReady]);
     (UpgradeStateFailed, [exUnit exNodeF "2" exReady])].

(** A driver pod of the current generation with one container that is not
    ready. *)
Definition exNotReady : NodeUpgradeState :=
  exUnit (exNode "n1" ∅ ∅ false) "2"
    [{| ContainerStatus_Name := "driver"; ContainerStatus_Ready := false |}].

(** Three nodes waiting for an upgrade and nothing in progress. *)
Definition exThree : ClusterUpgradeState :=
  exSnapshot
    [(UpgradeStateUpgradeRequired,
      [exUnit exNodeA "1" exReady; exUnit exNodeU "1" exReady;
       exUnit exNodeC "1" exReady])].

(** *** Vocabulary of the further properties *)

(** The steps of the processor of phase [X] within a pass. *)
Definition stepsOf (cs : ClusterUpgradeState) (pol : DriverUpgradePolicySpec)
    (h : loc -> DrainSpec) (X : UpgradeState) : list Step :=
  match X with
  | UpgradeStateUnknown =>
      flat_map (ProcessDoneOrUnknownNodes_steps UpgradeStateUnknown)
               (nodesIn cs UpgradeStateUnknown)
  | UpgradeStateDone =>
      flat_map (ProcessDoneOrUnknownNodes_steps UpgradeStateDone)
               (nodesIn cs UpgradeStateDone)
  | UpgradeStateUpgradeRequired =>
      ProcessUpgradeRequiredNodes_steps (nodesIn cs UpgradeStateUpgradeRequired)
                                        (upgradesAvailable cs pol)
  | UpgradeStateCordonRequired =>
      flat_map ProcessCordonRequiredNodes_steps
               (nodesIn cs UpgradeStateCordonRequired)
  | UpgradeStateWaitForJobsRequired =>
      ProcessWaitForJobsRequiredNodes_steps
        (nodesIn cs UpgradeStateWaitForJobsRequired) (WaitForCompletion pol)
  | UpgradeStatePodDeletionRequired =>
      ProcessPodDeletionRequiredNodes_steps
        (nodesIn cs UpgradeStatePodDeletionRequired) (PodDeletion pol)
  | UpgradeStateDrainRequired =>
      ProcessDrainNodes_steps (nodesIn cs UpgradeStateDrainRequired)
                              (DrainSpec_ pol) h
  | UpgradeStatePodRestartRequired =>
      flat_map ProcessPodRestartNodes_steps
               (nodesIn cs UpgradeStatePodRestartRequired) ++
      [Do (CallSchedulePodsRestart
             (flat_map ProcessPodRestartNodes_pods
                       (nodesIn cs UpgradeStatePodRestartRequired)))]
  | UpgradeStateFailed =>
      flat_map ProcessUpgradeFailedNodes_steps (nodesIn cs UpgradeStateFailed)
  | UpgradeStateUncordonRequired =>
      flat_map ProcessUncordonRequiredNodes_steps
               (nodesIn cs UpgradeStateUncordonRequired)
  end.

(** The nodes whose phase a list of calls writes, one entry per write. *)
Definition writeTargets (l : list Call) : list Node :=
  flat_map (fun c => match c with
                     | CallChangeNodeUpgradeState n _ => [n]
                     | _ => []
                     end) l.

(** The kinds of scheduling calls. *)
Definition isCompletionCheck (c : Call) : bool :=
  match c with CallScheduleCheckOnPodCompletion _ => true | _ => false end.

Definition isEviction (c : Call) : bool :=
  match c with CallSchedulePodEviction _ => true | _ => false end.

Definition isPodsRestart (c : Call) : bool :=
  match c with CallSchedulePodsRestart _ => true | _ => false end.

Definition isNodesDrain (c : Call) : bool :=
  match c with CallScheduleNodesDrain _ _ => true | _ => false end.

(** UncordonRequired nodes: what follows an uncordon that returned nil. *)
Definition uncordonNext (c : Call) : option Call :=
  match c with
  | CallUncordon n => Some (CallChangeNodeUpgradeState n UpgradeStateDone)
  | _ => None
  end.

(** A driver pod that the restart processor hands to the Pod Manager: its
    template generation is readable and differs from the daemonset's, and
    its deletion timestamp is zero. *)
Definition needsRestart (ns : NodeUpgradeState) : Prop :=
  exists g,
    GetPodTemplateGeneration (DriverPod ns) = inr g /\
    g <> GetGeneration (DriverDaemonSet ns) /\
    Time_IsZero (Pod_DeletionTimestamp (DriverPod ns)) = true.

(** The error [e] is what reading the template generation of some unit of
    the Unknown, Done, PodRestartRequired or Failed list gives. *)
Definition generationError (cs : ClusterUpgradeState) (e : error) : Prop :=
  exists X ns,
    In X [UpgradeStateUnknown; UpgradeStateDone; UpgradeStatePodRestartRequired;
          UpgradeStateFailed] /\
    In ns (nodesIn cs X) /\
    GetPodTemplateGeneration (DriverPod ns) = inl e.

(** The one write whose error the WaitForJobsRequired processor drops. *)
Definition isDroppedWrite (c : Call) : Prop :=
  exists n, c = CallChangeNodeUpgradeState n UpgradeStatePodDeletionRequired.

(** What an annotation write of a pass looks like: the key is the
    initial-state key; the value is "true" for an unschedulable node of the
    Unknown or Done list, or "null" for a node of the PodRestartRequired or
    Failed list that carries the annotation. *)
Definition annotationWriteOk (cs : ClusterUpgradeState) (c : Call) : Prop :=
  match c with
  | CallChangeNodeUpgradeAnnotation n key value =>
      key = GetUpgradeInitialStateAnnotationKey /\
      ((value = "true" /\ Node_Spec_Unschedulable n = true /\
        (In n (nodesOf cs UpgradeStateUnknown) \/
         In n (nodesOf cs UpgradeStateDone))) \/
       (value = "null" /\
        is_Some (Node_Annotations n !! GetUpgradeInitialStateAnnotationKey) /\
        (In n (nodesOf cs UpgradeStatePodRestartRequired) \/
         In n (nodesOf cs UpgradeStateFailed))))
  | _ => True
  end.

(** The calls of one kind in a log, in the order they were made. *)
Definition callsOfKind (p : Call -> bool) (d : list Event) : list Call :=
  List.filter p (map fst d).

Definition isCordon (c : Call) : bool :=
  match c with CallCordon _ => true | _ => false end.

Definition isUncordon (c : Call) : bool :=
  match c with CallUncordon _ => true | _ => false end.

(** The one completion check a pass may schedule (lines 342-343) and the one
    eviction (lines 358-371). *)
Definition completionCheckOf (cs : ClusterUpgradeState) (spec : WaitForCompletionSpec)
  : Call :=
  CallScheduleCheckOnPodCompletion
    {| PodManagerConfig_Selector := WaitForCompletionSpec_PodSelector spec;
       PodManagerConfig_DeletionSpec := None;
       PodManagerConfig_Nodes := nodesOf cs UpgradeStateWaitForJobsRequired |}.

Definition evictionOf (cs : ClusterUpgradeState) (pol : DriverUpgradePolicySpec)
  : Call :=
  CallSchedulePodEviction
    {| PodManagerConfig_Selector := "";
       PodManagerConfig_DeletionSpec := PodDeletion pol;
       PodManagerConfig_Nodes := nodesOf cs UpgradeStatePodDeletionRequired |}.

(** The drain request of a pass with drain enabled in the spec at [p]. *)
Definition drainOf (cs : ClusterUpgradeState) (p : loc) (h : loc -> DrainSpec)
  : Call :=
  CallScheduleNodesDrain
    {| DrainConfiguration_Spec := p;
       DrainConfiguration_Nodes := nodesOf cs UpgradeStateDrainRequired |}
    (augmentedSpec (h p)).

(** CordonRequired nodes: the two calls made for a node (lines 301 and 307). *)
Definition expectedCordon (n : Node) : list Call :=
  [CallCordon n; CallChangeNodeUpgradeState n UpgradeStateWaitForJobsRequired].

(** The answers of the log [d], written after the log [log0], are the ones
    the collaborators give: each call is answered from the log as it stands
    when the call is made. *)
Definition answered (log0 d : list Event) : Prop :=
  forall pre c a post,
    d = pre ++ (c, a) :: post -> a = collaborators (log0 ++ pre) c.

(** * Properties *)

(** ** Go integers *)

Lemma GoInt_wrap_in_range z : GoInt.in_range z -> GoInt.wrap z = z.
Proof.
  unfold GoInt.in_range, GoInt.min_int, GoInt.max_int, GoInt.wrap. intros H.
  rewrite Z.mod_small; lia.
Qed.

Lemma GoInt_len_zero {A : Type} (l : list A) : (GoInt.len l =? 0) = true <-> l = [].
Proof.
  unfold GoInt.len. destruct l; simpl; split; intros H;
    reflexivity || discriminate.
Qed.

(** ** The monad *)

Lemma bind_ret_l {A B : Type} (a : A) (k : A -> M B) w : (x <- ret a ;; k x) w = k a w.
Proof. reflexivity. Qed.

Lemma bind_ret_tt (m : M unit) w : (m ;;; ret tt) w = m w.
Proof. unfold bind, ret. destruct (m w) as [[e|[]] w']; reflexivity. Qed.

Lemma bind_assoc {A B C : Type} (m : M A) (k : A -> M B) (k' : B -> M C) w :
  (y <- (x <- m ;; k x) ;; k' y) w = (x <- m ;; y <- k x ;; k' y) w.
Proof. unfold bind. destruct (m w) as [[e|a] w']; reflexivity. Qed.

Lemma bind_ext {A B : Type} (m m' : M A) (k k' : A -> M B) w :
  m w = m' w -> (forall a w', k a w' = k' a w') ->
  (x <- m ;; k x) w = (x <- m' ;; k' x) w.
Proof.
  intros Hm Hk. unfold bind. rewrite Hm.
  destruct (m' w) as [[e|a] w']; [reflexivity | apply Hk].
Qed.

(** ** Scripts *)

Lemma runScript_app s1 s2 w :
  runScript (s1 ++ s2) w = (runScript s1 ;;; runScript s2) w.
Proof.
  revert w. induction s1 as [|[c|c|e|l d] s1 IH]; intros w; simpl.
  - reflexivity.
  - rewrite bind_assoc. apply bind_ext; [reflexivity | intros _ w'; apply IH].
  - rewrite bind_assoc. apply bind_ext; [reflexivity | intros _ w'; apply IH].
  - reflexivity.
  - rewrite bind_assoc. apply bind_ext; [reflexivity | intros _ w'; apply IH].
Qed.

Lemma runScript_one c w : runScript [Do c] w = call c w.
Proof. simpl. apply bind_ret_tt. Qed.

Lemma forEach_steps {A : Type} (l : list A) (body : A -> M unit)
    (steps : A -> list Step) :
  (forall x w, body x w = runScript (steps x) w) ->
  forall w, forEach l body w = runScript (flat_map steps l) w.
Proof.
  intros Hbody. induction l as [|x l IH]; intros w; simpl.
  - reflexivity.
  - rewrite runScript_app. apply bind_ext; [apply Hbody | intros _ w'; apply IH].
Qed.

Lemma forEachAcc_steps {A B : Type} (l : list A) (body : list B -> A -> M (list B))
    (steps : A -> list Step) (out : A -> list B) :
  (forall acc x w, body acc x w = (runScript (steps x) ;;; ret (acc ++ out x)) w) ->
  forall acc w,
    forEachAcc l acc body w =
    (runScript (flat_map steps l) ;;; ret (acc ++ flat_map out l)) w.
Proof.
  intros Hbody. induction l as [|x l IH]; intros acc w; simpl.
  - rewrite app_nil_r. reflexivity.
  - unfold bind at 1. rewrite Hbody.
    rewrite (bind_ext _ (runScript (steps x) ;;; runScript (flat_map steps l)) _
               (fun _ => ret (acc ++ out x ++ flat_map out l)) w
               (runScript_app _ _ w) (fun _ _ => eq_refl)).
    unfold bind, ret.
    destruct (runScript (steps x) w) as [[e|[]] w1]; [reflexivity|].
    rewrite IH. unfold bind, ret. rewrite <- app_assoc. reflexivity.
Qed.

(** ** Each processor plays its script *)

Lemma ProcessDoneOrUnknownNodes_script cs name w :
  ProcessDoneOrUnknownNodes cs name w =
  runScript (flat_map (ProcessDoneOrUnknownNodes_steps name) (nodesIn cs name)) w.
Proof.
  apply forEach_steps. clear w. intros ns w.
  unfold ProcessDoneOrUnknownNodes_body, ProcessDoneOrUnknownNodes_steps.
  destruct (GetPodTemplateGeneration (DriverPod ns)) as [e|g]; simpl.
  - reflexivity.
  - rewrite bind_ret_l.
    destruct (negb (g =? GetGeneration (DriverDaemonSet ns))).
    + destruct (isNodeUnschedulable (Node_ ns)); simpl.
      * apply bind_ext; [reflexivity | intros _ w'; symmetry; apply bind_ret_tt].
      * rewrite bind_ret_l. symmetry. apply bind_ret_tt.
    + destruct (decide (name = UpgradeStateUnknown)); simpl.
      * symmetry. apply bind_ret_tt.
      * reflexivity.
Qed.

Lemma ProcessUpgradeRequiredNodes_script cs limit w :
  ProcessUpgradeRequiredNodes cs limit w =
  runScript (ProcessUpgradeRequiredNodes_steps
               (nodesIn cs UpgradeStateUpgradeRequired) limit) w.
Proof.
  unfold ProcessUpgradeRequiredNodes.
  revert limit w.
  induction (nodesIn cs UpgradeStateUpgradeRequired) as [|ns l IH];
    intros limit w; simpl.
  - reflexivity.
  - destruct (limit <=? 0); [reflexivity|].
    destruct (skipNodeUpgrade (Node_ ns)); [apply IH|].
    simpl. apply bind_ext; [reflexivity | intros _ w'; apply IH].
Qed.

Lemma ProcessCordonRequiredNodes_script cs w :
  ProcessCordonRequiredNodes cs w =
  runScript (flat_map ProcessCordonRequiredNodes_steps
               (nodesIn cs UpgradeStateCordonRequired)) w.
Proof.
  apply forEach_steps. clear w. intros ns w.
  unfold ProcessCordonRequiredNodes_body. simpl.
  apply bind_ext; [reflexivity | intros _ w'; symmetry; apply bind_ret_tt].
Qed.

Lemma flat_map_singleton {A B : Type} (f : A -> B) (l : list A) :
  flat_map (fun x => [f x]) l = map f l.
Proof. induction l as [|x l IH]; simpl; [reflexivity | now rewrite IH]. Qed.

Lemma ProcessWaitForJobsRequiredNodes_script cs spec w :
  ProcessWaitForJobsRequiredNodes cs spec w =
  runScript (ProcessWaitForJobsRequiredNodes_steps
               (nodesIn cs UpgradeStateWaitForJobsRequired) spec) w.
Proof.
  unfold ProcessWaitForJobsRequiredNodes.
  set (l := nodesIn cs UpgradeStateWaitForJobsRequired).
  set (steps := fun ns : NodeUpgradeState =>
         if noWaitSelector spec then
           [Try (CallChangeNodeUpgradeState (Node_ ns) UpgradeStatePodDeletionRequired)]
         else []).
  assert (Hloop : forall w0,
            forEachAcc l []
              (fun nodes nodeState =>
                 let nodes := nodes ++ [Node_ nodeState] in
                 (if noWaitSelector spec then
                    ignoreError (call (CallChangeNodeUpgradeState (Node_ nodeState)
                                         UpgradeStatePodDeletionRequired))
                  else ret tt) ;;; ret nodes) w0 =
            (runScript (flat_map steps l) ;;;
             ret ([] ++ flat_map (fun ns => [Node_ ns]) l)) w0).
  { apply forEachAcc_steps. intros acc x w0. unfold steps.
    destruct (noWaitSelector spec); simpl.
    - rewrite !bind_assoc. apply bind_ext; reflexivity.
    - reflexivity. }
  rewrite (bind_ext _ _ _ _ w (Hloop w) (fun _ _ => eq_refl)). clear Hloop.
  rewrite bind_assoc. simpl app. rewrite flat_map_singleton.
  unfold steps, ProcessWaitForJobsRequiredNodes_steps, noWaitSelector.
  destruct spec as [spec|].
  - destruct (String.eqb (WaitForCompletionSpec_PodSelector spec) "").
    + rewrite flat_map_singleton.
      rewrite (bind_ext _ _ _ (fun _ => ret tt) w eq_refl (fun _ _ => eq_refl)).
      apply bind_ret_tt.
    + assert (Hnil : flat_map (fun _ : NodeUpgradeState => @nil Step) l = []).
      { clear. induction l; simpl; auto. }
      rewrite Hnil. simpl runScript. rewrite !bind_ret_l.
      unfold GoInt.len. rewrite length_map.
      destruct (Z.of_nat (length l) =? 0); [reflexivity|].
      symmetry. apply runScript_one.
  - rewrite flat_map_singleton.
    rewrite (bind_ext _ _ _ (fun _ => ret tt) w eq_refl (fun _ _ => eq_refl)).
    apply bind_ret_tt.
Qed.

Lemma ProcessPodDeletionRequiredNodes_script cs spec w :
  ProcessPodDeletionRequiredNodes cs spec w =
  runScript (ProcessPodDeletionRequiredNodes_steps
               (nodesIn cs UpgradeStatePodDeletionRequired) spec) w.
Proof.
  unfold ProcessPodDeletionRequiredNodes, ProcessPodDeletionRequiredNodes_steps.
  unfold GoInt.len. rewrite length_map.
  destruct (Z.of_nat _ =? 0); [reflexivity|].
  symmetry. apply runScript_one.
Qed.

Lemma drainDisabled_script l w :
  forEach l (fun nodeState =>
               call (CallChangeNodeUpgradeState (Node_ nodeState)
                       UpgradeStatePodRestartRequired)) w =
  runScript (drainDisabled_steps l) w.
Proof.
  unfold drainDisabled_steps. rewrite <- flat_map_singleton.
  apply forEach_steps. intros ns w'. symmetry. apply runScript_one.
Qed.

Lemma ProcessDrainNodes_script cs ptr w :
  ProcessDrainNodes cs ptr w =
  runScript (ProcessDrainNodes_steps (nodesIn cs UpgradeStateDrainRequired) ptr
               (drainSpecs w)) w.
Proof.
  unfold ProcessDrainNodes, ProcessDrainNodes_steps.
  destruct ptr as [p|]; [|apply drainDisabled_script].
  unfold bind at 1. unfold readDrainSpec at 1.
  destruct (negb (DrainSpec_Enable (drainSpecs w p))); [apply drainDisabled_script|].
  unfold augmentedSpec, augmentedSelector.
  destruct (String.eqb (DrainSpec_PodSelector (drainSpecs w p)) "");
    simpl; unfold bind, writeDrainSpec, readDrainSpec, call, ret; simpl;
    destruct (decide (p = p)) as [_|Hne]; try (exfalso; apply Hne; reflexivity);
    match goal with |- context [collaborators ?a ?b] =>
      destruct (collaborators a b) end; reflexivity.
Qed.

Lemma driverPodInSync_script ns w :
  driverPodInSync_block ns w = runScript (driverPodInSync_steps ns) w.
Proof.
  unfold driverPodInSync_block, driverPodInSync_steps.
  destruct (decide (is_Some (Node_Annotations (Node_ ns)
                               !! GetUpgradeInitialStateAnnotationKey))); simpl.
  - apply bind_ext; [reflexivity | intros _ w'; symmetry; apply bind_ret_tt].
  - apply bind_ext; reflexivity.
Qed.

Lemma ProcessUpgradeFailedNodes_body_script ns w :
  ProcessUpgradeFailedNodes_body ns w =
  runScript (ProcessUpgradeFailedNodes_steps ns) w.
Proof.
  unfold ProcessUpgradeFailedNodes_body, ProcessUpgradeFailedNodes_steps.
  destruct (isDriverPodInSync ns) as [e|[|]]; simpl; try reflexivity.
  rewrite bind_ret_l. apply driverPodInSync_script.
Qed.

Lemma ProcessUpgradeFailedNodes_script cs w :
  ProcessUpgradeFailedNodes cs w =
  runScript (flat_map ProcessUpgradeFailedNodes_steps
               (nodesIn cs UpgradeStateFailed)) w.
Proof. apply forEach_steps, ProcessUpgradeFailedNodes_body_script. Qed.

Lemma ProcessPodRestartNodes_script cs w :
  ProcessPodRestartNodes cs w =
  runScript (flat_map ProcessPodRestartNodes_steps
               (nodesIn cs UpgradeStatePodRestartRequired) ++
             [Do (CallSchedulePodsRestart
                    (flat_map ProcessPodRestartNodes_pods
                       (nodesIn cs UpgradeStatePodRestartRequired)))]) w.
Proof.
  unfold ProcessPodRestartNodes. rewrite runScript_app.
  assert (Hloop : forall w0,
            forEachAcc (nodesIn cs UpgradeStatePodRestartRequired) []
              ProcessPodRestartNodes_body w0 =
            (runScript (flat_map ProcessPodRestartNodes_steps
                          (nodesIn cs UpgradeStatePodRestartRequired)) ;;;
             ret ([] ++ flat_map ProcessPodRestartNodes_pods
                          (nodesIn cs UpgradeStatePodRestartRequired))) w0).
  { apply forEachAcc_steps. intros acc x w0.
    unfold ProcessPodRestartNodes_body, ProcessPodRestartNodes_steps,
      ProcessPodRestartNodes_pods.
    destruct (GetPodTemplateGeneration (DriverPod x)) as [e|g] eqn:Hg; simpl.
    - reflexivity.
    - rewrite bind_ret_l.
      destruct (negb (g =? GetGeneration (DriverDaemonSet x))); simpl.
      + destruct (Time_IsZero _); simpl; rewrite ?app_nil_r; reflexivity.
      + rewrite app_nil_r.
        rewrite <- (bind_ext _ _ _ _ w0 (ProcessUpgradeFailedNodes_body_script x w0)
                     (fun _ _ => eq_refl)).
        unfold ProcessUpgradeFailedNodes_body. rewrite !bind_assoc.
        apply bind_ext; reflexivity. }
  rewrite (bind_ext _ _ _ _ w (Hloop w) (fun _ _ => eq_refl)). clear Hloop.
  rewrite bind_assoc. apply bind_ext; [reflexivity|].
  intros _ w'. rewrite bind_ret_l. symmetry. apply runScript_one.
Qed.

Lemma ProcessUncordonRequiredNodes_script cs w :
  ProcessUncordonRequiredNodes cs w =
  runScript (flat_map ProcessUncordonRequiredNodes_steps
               (nodesIn cs UpgradeStateUncordonRequired)) w.
Proof.
  apply forEach_steps. clear w. intros ns w.
  unfold ProcessUncordonRequiredNodes_body. simpl.
  apply bind_ext; [reflexivity | intros _ w'; symmetry; apply bind_ret_tt].
Qed.

(** ** From scripts to outcomes *)

Lemma noSet_app s1 s2 : noSet s1 -> noSet s2 -> noSet (s1 ++ s2).
Proof. unfold noSet. rewrite forallb_app. intros -> ->. reflexivity. Qed.

Lemma noSet_flat_map {A : Type} (f : A -> list Step) (l : list A) :
  (forall x, noSet (f x)) -> noSet (flat_map f l).
Proof.
  intros Hf. induction l as [|x l IH]; simpl; [reflexivity|].
  apply noSet_app; [apply Hf | apply IH].
Qed.

Lemma noSet_map {A : Type} (f : A -> Step) (l : list A) :
  (forall x, isSet (f x) = false) -> noSet (map f l).
Proof.
  intros Hf. unfold noSet. induction l as [|x l IH]; simpl; [reflexivity|].
  rewrite Hf. exact IH.
Qed.

Lemma noSet_ProcessDoneOrUnknownNodes_steps name ns :
  noSet (ProcessDoneOrUnknownNodes_steps name ns).
Proof.
  unfold ProcessDoneOrUnknownNodes_steps.
  destruct (GetPodTemplateGeneration _); [reflexivity|].
  destruct (negb _); [destruct (isNodeUnschedulable _); reflexivity|].
  destruct (decide _); reflexivity.
Qed.

Lemma noSet_ProcessUpgradeRequiredNodes_steps l limit :
  noSet (ProcessUpgradeRequiredNodes_steps l limit).
Proof.
  revert limit. induction l as [|ns l IH]; intros limit; simpl; [reflexivity|].
  destruct (limit <=? 0); [reflexivity|].
  destruct (skipNodeUpgrade _); [apply IH|]. apply (IH (GoInt.sub limit 1)).
Qed.

Lemma noSet_ProcessWaitForJobsRequiredNodes_steps l spec :
  noSet (ProcessWaitForJobsRequiredNodes_steps l spec).
Proof.
  unfold ProcessWaitForJobsRequiredNodes_steps.
  destruct spec as [spec|]; [|apply noSet_map; reflexivity].
  destruct (String.eqb _ _); [apply noSet_map; reflexivity|].
  destruct (_ =? 0); reflexivity.
Qed.

Lemma noSet_ProcessPodDeletionRequiredNodes_steps l spec :
  noSet (ProcessPodDeletionRequiredNodes_steps l spec).
Proof.
  unfold ProcessPodDeletionRequiredNodes_steps. destruct (_ =? 0); reflexivity.
Qed.

Lemma noSet_ProcessUpgradeFailedNodes_steps ns :
  noSet (ProcessUpgradeFailedNodes_steps ns).
Proof.
  unfold ProcessUpgradeFailedNodes_steps, driverPodInSync_steps.
  destruct (isDriverPodInSync ns) as [e|[|]]; try reflexivity.
  destruct (decide _); reflexivity.
Qed.

Lemma noSet_ProcessPodRestartNodes_steps ns :
  noSet (ProcessPodRestartNodes_steps ns).
Proof.
  unfold ProcessPodRestartNodes_steps.
  destruct (GetPodTemplateGeneration _); [reflexivity|].
  destruct (negb _); [reflexivity | apply noSet_ProcessUpgradeFailedNodes_steps].
Qed.

Lemma noSet_ApplyState_stepsBefore cs pol : noSet (ApplyState_stepsBefore cs pol).
Proof.
  unfold ApplyState_stepsBefore.
  repeat apply noSet_app;
    auto using noSet_flat_map, noSet_ProcessDoneOrUnknownNodes_steps,
      noSet_ProcessUpgradeRequiredNodes_steps,
      noSet_ProcessWaitForJobsRequiredNodes_steps,
      noSet_ProcessPodDeletionRequiredNodes_steps.
  apply noSet_flat_map. reflexivity.
Qed.

Lemma noSet_ApplyState_stepsAfter cs : noSet (ApplyState_stepsAfter cs).
Proof.
  unfold ApplyState_stepsAfter.
  repeat apply noSet_app;
    auto using noSet_flat_map, noSet_ProcessPodRestartNodes_steps,
      noSet_ProcessUpgradeFailedNodes_steps.
  - reflexivity.
  - apply noSet_flat_map. reflexivity.
Qed.

Lemma runScript_noSet s :
  noSet s -> forall w, drainSpecs (snd (runScript s w)) = drainSpecs w.
Proof.
  unfold noSet.
  induction s as [|[c|c|e|l d] s IH]; simpl; intros Hs w; try discriminate.
  - reflexivity.
  - unfold bind, call. destruct (collaborators (calls w) c); [reflexivity|].
    rewrite IH; auto.
  - unfold bind, ignoreError, call. simpl. rewrite IH; auto.
  - reflexivity.
Qed.

Lemma seq_script (m k : M unit) sm sk :
  (forall w, m w = runScript sm w) -> (forall w, k w = runScript sk w) ->
  forall w, (m ;;; k) w = runScript (sm ++ sk) w.
Proof.
  intros Hm Hk w. rewrite runScript_app.
  apply bind_ext; [apply Hm | intros _ w'; apply Hk].
Qed.

Lemma seq_script_before (m k : M unit) sm (sk : (loc -> DrainSpec) -> list Step) :
  (forall w, m w = runScript sm w) -> noSet sm ->
  (forall w, k w = runScript (sk (drainSpecs w)) w) ->
  forall w, (m ;;; k) w = runScript (sm ++ sk (drainSpecs w)) w.
Proof.
  intros Hm Hs Hk w. rewrite runScript_app. unfold bind. rewrite Hm.
  pose proof (runScript_noSet sm Hs w) as Hh.
  destruct (runScript sm w) as [[e|[]] w1]; [reflexivity|].
  simpl in Hh. rewrite Hk, Hh. reflexivity.
Qed.

Lemma seq_script_heap (m k : M unit) (sm : (loc -> DrainSpec) -> list Step) sk :
  (forall w, m w = runScript (sm (drainSpecs w)) w) ->
  (forall w, k w = runScript sk w) ->
  forall w, (m ;;; k) w = runScript (sm (drainSpecs w) ++ sk) w.
Proof.
  intros Hm Hk w. rewrite runScript_app.
  apply bind_ext; [apply Hm | intros _ w'; apply Hk].
Qed.

(** One pass of [ApplyState] with auto-upgrade enabled plays the script of
    the ten processors in order. *)
Lemma ApplyState_script cs pol w :
  AutoUpgrade pol = true ->
  ApplyState (Some cs) (Some pol) w =
  runScript (ApplyState_steps cs pol (drainSpecs w)) w.
Proof.
  intros Hauto. unfold ApplyState. rewrite Hauto. simpl negb. cbv iota.
  unfold ApplyState_steps, ApplyState_stepsBefore.
  rewrite <- !app_assoc.
  revert w.
  apply (seq_script_before _ _ _ (fun h => _ ++ _ ++ _ ++ _ ++ _ ++ _ h ++ _));
    [apply ProcessDoneOrUnknownNodes_script
    |apply noSet_flat_map, noSet_ProcessDoneOrUnknownNodes_steps|].
  apply (seq_script_before _ _ _ (fun h => _ ++ _ ++ _ ++ _ ++ _ h ++ _));
    [apply ProcessDoneOrUnknownNodes_script
    |apply noSet_flat_map, noSet_ProcessDoneOrUnknownNodes_steps|].
  apply (seq_script_before _ _ _ (fun h => _ ++ _ ++ _ ++ _ h ++ _));
    [apply ProcessUpgradeRequiredNodes_script
    |apply noSet_ProcessUpgradeRequiredNodes_steps|].
  apply (seq_script_before _ _ _ (fun h => _ ++ _ ++ _ h ++ _));
    [apply ProcessCordonRequiredNodes_script
    |apply noSet_flat_map; reflexivity|].
  apply (seq_script_before _ _ _ (fun h => _ ++ _ h ++ _));
    [apply ProcessWaitForJobsRequiredNodes_script
    |apply noSet_ProcessWaitForJobsRequiredNodes_steps|].
  apply (seq_script_before _ _ _ (fun h => _ h ++ _));
    [apply ProcessPodDeletionRequiredNodes_script
    |apply noSet_ProcessPodDeletionRequiredNodes_steps|].
  apply (seq_script_heap _ _ (fun h => _ h));
    [apply ProcessDrainNodes_script|].
  unfold ApplyState_stepsAfter.
  apply seq_script; [apply ProcessPodRestartNodes_script|].
  apply seq_script;
    [apply ProcessUpgradeFailedNodes_script | apply ProcessUncordonRequiredNodes_script].
Qed.

Lemma runScript_Ran s w :
  exists d,
    calls (snd (runScript s w)) = calls w ++ d /\
    Ran s (drainSpecs w) d (fst (runScript s w)) (drainSpecs (snd (runScript s w))).
Proof.
  revert w. induction s as [|[c|c|e|l ds] s IH]; intros w; simpl.
  - exists []. rewrite app_nil_r. split; [reflexivity | constructor].
  - unfold bind, call. destruct (collaborators (calls w) c) as [e|] eqn:Hc.
    + exists [(c, Some e)]. split; [reflexivity | constructor].
    + destruct (IH {| calls := calls w ++ [(c, None)]; drainSpecs := drainSpecs w |})
        as (d & Hd & HR). simpl in Hd, HR.
      exists ((c, None) :: d). split.
      * rewrite Hd, <- app_assoc. reflexivity.
      * constructor. exact HR.
  - unfold bind, ignoreError, call. simpl.
    destruct (IH {| calls := calls w ++ [(c, collaborators (calls w) c)];
                    drainSpecs := drainSpecs w |}) as (d & Hd & HR).
    simpl in Hd, HR.
    exists ((c, collaborators (calls w) c) :: d). split.
    + rewrite Hd, <- app_assoc. reflexivity.
    + constructor. exact HR.
  - exists []. rewrite app_nil_r. split; [reflexivity | constructor].
  - unfold bind, writeDrainSpec.
    destruct (IH {| calls := calls w;
                    drainSpecs := updateSpec (drainSpecs w) l ds |}) as (d & Hd & HR).
    simpl in Hd, HR. exists d. split; [exact Hd | constructor; exact HR].
Qed.

(** The log of one enabled pass, as an outcome of its script. *)
Lemma ApplyState_Ran cs pol w :
  AutoUpgrade pol = true ->
  exists d,
    calls (snd (ApplyState (Some cs) (Some pol) w)) = calls w ++ d /\
    Ran (ApplyState_steps cs pol (drainSpecs w)) (drainSpecs w) d
        (fst (ApplyState (Some cs) (Some pol) w))
        (drainSpecs (snd (ApplyState (Some cs) (Some pol) w))).
Proof.
  intros Hauto. rewrite (ApplyState_script cs pol w Hauto). apply runScript_Ran.
Qed.

(** ** Reading an outcome *)

Lemma stepCalls_app s1 s2 : stepCalls (s1 ++ s2) = stepCalls s1 ++ stepCalls s2.
Proof.
  induction s1 as [|[c|c|e|l d] s1 IH]; simpl; rewrite ?IH; reflexivity.
Qed.

Lemma tryCalls_app s1 s2 : tryCalls (s1 ++ s2) = tryCalls s1 ++ tryCalls s2.
Proof.
  induction s1 as [|[c|c|e|l d] s1 IH]; simpl; rewrite ?IH; reflexivity.
Qed.

Lemma stepCalls_flat_map {A : Type} (f : A -> list Step) (l : list A) :
  stepCalls (flat_map f l) = flat_map (fun x => stepCalls (f x)) l.
Proof.
  induction l as [|x l IH]; simpl; [reflexivity|].
  rewrite stepCalls_app, IH. reflexivity.
Qed.

Lemma tryCalls_flat_map {A : Type} (f : A -> list Step) (l : list A) :
  (forall x, tryCalls (f x) = []) -> tryCalls (flat_map f l) = [].
Proof.
  intros Hf. induction l as [|x l IH]; simpl; [reflexivity|].
  rewrite tryCalls_app, Hf, IH. reflexivity.
Qed.

(** A pass that stops inside the first part of a script never starts the
    second part; otherwise the first part ran to its end. *)
Lemma Ran_app_inv s1 s2 h d r h' :
  Ran (s1 ++ s2) h d r h' ->
  (exists e, r = inl e /\ Ran s1 h d (inl e) h') \/
  (exists d1 d2 h1,
      d = d1 ++ d2 /\ Ran s1 h d1 (inr tt) h1 /\ Ran s2 h1 d2 r h').
Proof.
  revert h d. induction s1 as [|st s1 IH]; intros h d HR; simpl in HR.
  - right. exists [], d, h. repeat split; [constructor | exact HR].
  - inversion HR; subst.
    + destruct (IH _ _ H5) as [(e & -> & H1) | (d1 & d2 & h1 & -> & H1 & H2)].
      * left. exists e. split; [reflexivity | constructor; exact H1].
      * right. exists ((c, None) :: d1), d2, h1.
        repeat split; [constructor; exact H1 | exact H2].
    + left. exists e. split; [reflexivity | constructor].
    + destruct (IH _ _ H5) as [(e & -> & H1) | (d1 & d2 & h1 & -> & H1 & H2)].
      * left. exists e. split; [reflexivity | constructor; exact H1].
      * right. exists ((c, a) :: d1), d2, h1.
        repeat split; [constructor; exact H1 | exact H2].
    + left. exists e. split; [reflexivity | constructor].
    + destruct (IH _ _ H5) as [(e & -> & H1) | (d1 & d2 & h1 & -> & H1 & H2)].
      * left. exists e. split; [reflexivity | constructor; exact H1].
      * right. exists d1, d2, h1.
        repeat split; [constructor; exact H1 | exact H2].
Qed.

Lemma Ran_app_ok s1 s2 h d h' :
  Ran (s1 ++ s2) h d (inr tt) h' ->
  exists d1 d2 h1,
    d = d1 ++ d2 /\ Ran s1 h d1 (inr tt) h1 /\ Ran s2 h1 d2 (inr tt) h'.
Proof.
  intros HR. destruct (Ran_app_inv _ _ _ _ _ _ HR) as [(e & He & _) | H].
  - discriminate.
  - exact H.
Qed.

(** Every logged call is a call of the script, in the script's order. *)
Lemma Ran_prefix s h d r h' : Ran s h d r h' -> map fst d `prefix_of` stepCalls s.
Proof.
  induction 1; simpl.
  - reflexivity.
  - apply prefix_cons. assumption.
  - apply prefix_cons. apply prefix_nil.
  - apply prefix_cons. assumption.
  - apply prefix_nil.
  - assumption.
Qed.

Lemma Ran_Forall (P : Call -> Prop) s h d r h' :
  Ran s h d r h' -> Forall P (stepCalls s) -> Forall (fun ev => P (fst ev)) d.
Proof.
  induction 1; simpl; intros HP; try (constructor; fail); auto.
  - inversion HP; subst. constructor; auto.
  - inversion HP; subst. constructor; auto.
  - inversion HP; subst. constructor; auto.
Qed.

(** A successful pass made every call of its script, and every call whose
    error is not dropped returned nil. *)
Lemma Ran_ok_dos s h d h' :
  Ran s h d (inr tt) h' -> tryCalls s = [] -> d = map ok (stepCalls s).
Proof.
  remember (inr tt) as r eqn:Hr. induction 1; simpl; intros Ht;
    try discriminate; try reflexivity.
  - rewrite IHRan by assumption. reflexivity.
  - apply IHRan; assumption.
Qed.

(** An error of a call that is not dropped ends the pass: it is the last
    logged call and it is the result. *)
Lemma Ran_error_last s h d r h' :
  Ran s h d r h' ->
  forall pre c e post,
    d = pre ++ (c, Some e) :: post -> ~ In c (tryCalls s) ->
    post = [] /\ r = inl e.
Proof.
  induction 1; intros pre c0 e0 post Hd Hc.
  - destruct pre; discriminate.
  - destruct pre as [|x pre]; simpl in Hd; [discriminate|].
    injection Hd as _ Hd. eapply IHRan; eauto.
  - destruct pre as [|x pre]; simpl in Hd.
    + injection Hd as _ <- <-. split; reflexivity.
    + injection Hd as _ Hd. destruct pre; discriminate.
  - destruct pre as [|x pre]; simpl in Hd.
    + injection Hd as -> -> _. exfalso. apply Hc. simpl. left. reflexivity.
    + injection Hd as _ Hd. eapply IHRan; eauto.
      intros Hin. apply Hc. simpl. right. exact Hin.
  - destruct pre; discriminate.
  - eapply IHRan; eauto.
Qed.

Lemma Ran_noSet s h d r h' : Ran s h d r h' -> noSet s -> h' = h.
Proof.
  unfold noSet. induction 1; simpl; intros Hs; try reflexivity; auto.
  discriminate.
Qed.

(** A call that returned nil is followed by the next call of the script. *)
Lemma Ran_next (next : Call -> option Call) s h d r h' :
  Ran s h d r h' -> followedBy next s ->
  forall pre c c' post,
    d = pre ++ (c, None) :: post -> next c = Some c' ->
    exists a post', post = (c', a) :: post'.
Proof.
  induction 1; simpl; intros Hf pre c0 c' post Hd Hn.
  - destruct pre; discriminate.
  - destruct Hf as [Hhd Htl]. destruct pre as [|x pre]; simpl in Hd.
    + injection Hd as -> ->. rewrite Hn in Hhd. destruct Hhd as [s'' ->].
      inversion H; subst; eauto.
    + injection Hd as _ Hd. eapply IHRan; eauto.
  - destruct pre as [|x pre]; simpl in Hd; [discriminate|].
    injection Hd as _ Hd. destruct pre; discriminate.
  - destruct Hf as [Hhd Htl]. destruct pre as [|x pre]; simpl in Hd.
    + injection Hd as -> _ _. rewrite Hn in Hhd. contradiction.
    + injection Hd as _ Hd. eapply IHRan; eauto.
  - destruct pre; discriminate.
  - destruct Hf as [_ Htl]. eapply IHRan; eauto.
Qed.

Lemma followedBy_app next s1 s2 :
  followedBy next s1 -> followedBy next s2 -> followedBy next (s1 ++ s2).
Proof.
  induction s1 as [|st s1 IH]; simpl; intros H1 H2; [exact H2|].
  destruct H1 as [Hhd Htl]. split; [|apply IH; assumption].
  destruct st as [c|c|e|l d]; try exact I; [|exact Hhd].
  destruct (next c) as [c'|]; [|exact I].
  destruct Hhd as [s'' ->]. simpl. eauto.
Qed.

Lemma followedBy_none next s :
  Forall (fun c => next c = None) (stepCalls s) -> followedBy next s.
Proof.
  induction s as [|[c|c|e|l d] s IH]; simpl; intros HF; try (split; [exact I|]);
    auto.
  - inversion HF; subst. split; [|auto]. rewrite H1. exact I.
  - inversion HF; subst. split; [|auto]. rewrite H1. exact I.
Qed.

(** ** Where the calls of a pass come from *)

Ltac split_Forall_app :=
  repeat match goal with
         | |- Forall _ (_ ++ _) => apply Forall_app; split
         end.

Ltac solve_callFrom :=
  simpl;
  repeat match goal with
         | |- Forall _ [] => constructor
         | |- Forall _ (_ :: _) =>
             constructor;
             [simpl; repeat split; simpl; auto 10;
              try discriminate; try (intros; contradiction) |]
         end.

Lemma Forall_stepCalls_flat_map {A : Type} (P : Call -> Prop)
    (f : A -> list Step) (l : list A) :
  (forall x, In x l -> Forall P (stepCalls (f x))) ->
  Forall P (stepCalls (flat_map f l)).
Proof.
  induction l as [|x l IH]; simpl; intros Hf; [constructor|].
  rewrite stepCalls_app. apply Forall_app. split; [apply Hf; left; reflexivity|].
  apply IH. intros y Hy. apply Hf. right. exact Hy.
Qed.

Lemma In_nodesOf cs X ns : In ns (nodesIn cs X) -> In (Node_ ns) (nodesOf cs X).
Proof. apply in_map. Qed.

Lemma callFrom_ProcessDoneOrUnknownNodes cs name :
  name = UpgradeStateUnknown \/ name = UpgradeStateDone ->
  Forall (callFrom cs name)
    (stepCalls (flat_map (ProcessDoneOrUnknownNodes_steps name) (nodesIn cs name))).
Proof.
  intros Hname. apply Forall_stepCalls_flat_map. intros ns Hns.
  apply In_nodesOf in Hns.
  assert (HU : In UpgradeStateUpgradeRequired (exitPhases name)).
  { destruct Hname as [-> | ->]; simpl; auto. }
  assert (Hne : name = UpgradeStateUpgradeRequired -> skipNodeUpgrade (Node_ ns) = false).
  { destruct Hname as [-> | ->]; discriminate. }
  unfold ProcessDoneOrUnknownNodes_steps.
  destruct (GetPodTemplateGeneration _); [constructor|].
  destruct (negb _).
  - destruct (isNodeUnschedulable _); solve_callFrom.
  - destruct (decide (name = UpgradeStateUnknown)) as [-> |]; solve_callFrom.
Qed.

Lemma callFrom_ProcessUpgradeRequiredNodes cs l limit :
  (forall ns, In ns l -> In ns (nodesIn cs UpgradeStateUpgradeRequired)) ->
  Forall (callFrom cs UpgradeStateUpgradeRequired)
    (stepCalls (ProcessUpgradeRequiredNodes_steps l limit)).
Proof.
  revert limit. induction l as [|ns l IH]; intros limit Hl; simpl; [constructor|].
  destruct (limit <=? 0); [constructor|].
  destruct (skipNodeUpgrade (Node_ ns)) eqn:Hskip.
  - apply IH. intros x Hx. apply Hl. right. exact Hx.
  - simpl. constructor.
    + simpl. repeat split; simpl; auto. apply In_nodesOf, Hl. left. reflexivity.
    + apply IH. intros x Hx. apply Hl. right. exact Hx.
Qed.

Lemma callFrom_ProcessCordonRequiredNodes cs :
  Forall (callFrom cs UpgradeStateCordonRequired)
    (stepCalls (flat_map ProcessCordonRequiredNodes_steps
                  (nodesIn cs UpgradeStateCordonRequired))).
Proof.
  apply Forall_stepCalls_flat_map. intros ns Hns. apply In_nodesOf in Hns.
  solve_callFrom.
Qed.

Lemma callFrom_ProcessWaitForJobsRequiredNodes cs spec :
  Forall (callFrom cs UpgradeStateWaitForJobsRequired)
    (stepCalls (ProcessWaitForJobsRequiredNodes_steps
                  (nodesIn cs UpgradeStateWaitForJobsRequired) spec)).
Proof.
  assert (Htry : Forall (callFrom cs UpgradeStateWaitForJobsRequired)
            (stepCalls (map (fun ns => Try (CallChangeNodeUpgradeState (Node_ ns)
                                              UpgradeStatePodDeletionRequired))
                          (nodesIn cs UpgradeStateWaitForJobsRequired)))).
  { rewrite <- flat_map_singleton. apply Forall_stepCalls_flat_map.
    intros ns Hns. apply In_nodesOf in Hns.
    solve_callFrom. }
  unfold ProcessWaitForJobsRequiredNodes_steps.
  destruct spec as [spec|]; [|exact Htry].
  destruct (String.eqb _ _); [exact Htry|].
  destruct (_ =? 0); solve_callFrom.
Qed.

Lemma callFrom_ProcessPodDeletionRequiredNodes cs spec :
  Forall (callFrom cs UpgradeStatePodDeletionRequired)
    (stepCalls (ProcessPodDeletionRequiredNodes_steps
                  (nodesIn cs UpgradeStatePodDeletionRequired) spec)).
Proof.
  unfold ProcessPodDeletionRequiredNodes_steps.
  destruct (_ =? 0); solve_callFrom.
Qed.

Lemma callFrom_drainDisabled cs :
  Forall (callFrom cs UpgradeStateDrainRequired)
    (stepCalls (drainDisabled_steps (nodesIn cs UpgradeStateDrainRequired))).
Proof.
  unfold drainDisabled_steps. rewrite <- flat_map_singleton.
  apply Forall_stepCalls_flat_map. intros ns Hns. apply In_nodesOf in Hns.
  solve_callFrom.
Qed.

Lemma callFrom_ProcessDrainNodes cs ptr h :
  Forall (callFrom cs UpgradeStateDrainRequired)
    (stepCalls (ProcessDrainNodes_steps (nodesIn cs UpgradeStateDrainRequired) ptr h)).
Proof.
  unfold ProcessDrainNodes_steps.
  destruct ptr as [p|]; [|apply callFrom_drainDisabled].
  destruct (negb _); [apply callFrom_drainDisabled|].
  solve_callFrom.
Qed.

Lemma callFrom_ProcessUpgradeFailedNodes_steps cs X ns :
  In UpgradeStateUncordonRequired (exitPhases X) ->
  In UpgradeStateDone (exitPhases X) ->
  X <> UpgradeStateUpgradeRequired ->
  In ns (nodesIn cs X) ->
  Forall (callFrom cs X) (stepCalls (ProcessUpgradeFailedNodes_steps ns)).
Proof.
  intros HU HD HX Hns. apply In_nodesOf in Hns.
  unfold ProcessUpgradeFailedNodes_steps, driverPodInSync_steps.
  destruct (isDriverPodInSync ns) as [e|[|]]; try (simpl; constructor; fail).
  destruct (decide _); solve_callFrom.
Qed.

Lemma callFrom_ProcessPodRestartNodes cs :
  Forall (callFrom cs UpgradeStatePodRestartRequired)
    (stepCalls (flat_map ProcessPodRestartNodes_steps
                  (nodesIn cs UpgradeStatePodRestartRequired) ++
                [Do (CallSchedulePodsRestart
                       (flat_map ProcessPodRestartNodes_pods
                          (nodesIn cs UpgradeStatePodRestartRequired)))])).
Proof.
  rewrite stepCalls_app. apply Forall_app. split; [|solve_callFrom].
  apply Forall_stepCalls_flat_map. intros ns Hns.
  unfold ProcessPodRestartNodes_steps.
  destruct (GetPodTemplateGeneration _); [constructor|].
  destruct (negb _); [constructor|].
  apply callFrom_ProcessUpgradeFailedNodes_steps; simpl; auto; discriminate.
Qed.

Lemma callFrom_ProcessUpgradeFailedNodes cs :
  Forall (callFrom cs UpgradeStateFailed)
    (stepCalls (flat_map ProcessUpgradeFailedNodes_steps
                  (nodesIn cs UpgradeStateFailed))).
Proof.
  apply Forall_stepCalls_flat_map. intros ns Hns.
  apply callFrom_ProcessUpgradeFailedNodes_steps; simpl; auto; discriminate.
Qed.

Lemma callFrom_ProcessUncordonRequiredNodes cs :
  Forall (callFrom cs UpgradeStateUncordonRequired)
    (stepCalls (flat_map ProcessUncordonRequiredNodes_steps
                  (nodesIn cs UpgradeStateUncordonRequired))).
Proof.
  apply Forall_stepCalls_flat_map. intros ns Hns. apply In_nodesOf in Hns.
  solve_callFrom.
Qed.

Lemma callFromSome_intro cs Xs X l :
  In X Xs -> Forall (callFrom cs X) l -> Forall (callFromSome cs Xs) l.
Proof.
  intros HX HF. eapply List.Forall_impl; [|exact HF].
  intros c Hc. exists X. split; assumption.
Qed.

Lemma callFrom_ApplyState_stepsBefore cs pol :
  Forall (callFromSome cs
            [UpgradeStateUnknown; UpgradeStateDone; UpgradeStateUpgradeRequired;
             UpgradeStateCordonRequired; UpgradeStateWaitForJobsRequired;
             UpgradeStatePodDeletionRequired])
    (stepCalls (ApplyState_stepsBefore cs pol)).
Proof.
  unfold ApplyState_stepsBefore. rewrite !stepCalls_app.
  split_Forall_app.
  - eapply callFromSome_intro;
      [|apply callFrom_ProcessDoneOrUnknownNodes; auto]. simpl; auto.
  - eapply callFromSome_intro;
      [|apply callFrom_ProcessDoneOrUnknownNodes; auto]. simpl; auto.
  - eapply callFromSome_intro;
      [|apply callFrom_ProcessUpgradeRequiredNodes; auto]. simpl; auto.
  - eapply callFromSome_intro;
      [|apply callFrom_ProcessCordonRequiredNodes]. simpl; auto.
  - eapply callFromSome_intro;
      [|apply callFrom_ProcessWaitForJobsRequiredNodes]. simpl; auto 10.
  - eapply callFromSome_intro;
      [|apply callFrom_ProcessPodDeletionRequiredNodes]. simpl; auto 10.
Qed.

Lemma callFrom_ApplyState_stepsAfter cs :
  Forall (callFromSome cs
            [UpgradeStatePodRestartRequired; UpgradeStateFailed;
             UpgradeStateUncordonRequired])
    (stepCalls (ApplyState_stepsAfter cs)).
Proof.
  unfold ApplyState_stepsAfter.
  rewrite (stepCalls_app (_ ++ _)),
    (stepCalls_app (flat_map ProcessUpgradeFailedNodes_steps _)).
  split_Forall_app.
  - eapply callFromSome_intro;
      [|apply callFrom_ProcessPodRestartNodes]. simpl; auto.
  - eapply callFromSome_intro;
      [|apply callFrom_ProcessUpgradeFailedNodes]. simpl; auto.
  - eapply callFromSome_intro;
      [|apply callFrom_ProcessUncordonRequiredNodes]. simpl; auto.
Qed.

Lemma callFromSome_mono cs Xs Ys l :
  (forall X, In X Xs -> In X Ys) ->
  Forall (callFromSome cs Xs) l -> Forall (callFromSome cs Ys) l.
Proof.
  intros Hsub HF. eapply List.Forall_impl; [|exact HF].
  intros c (X & HX & Hc). exists X. split; auto.
Qed.

(** Every call of a pass is a call of one of the ten processors, made for
    a node of that processor's list. *)
Lemma callFrom_ApplyState_steps cs pol h :
  Forall (callFromSome cs allPhases) (stepCalls (ApplyState_steps cs pol h)).
Proof.
  unfold ApplyState_steps. rewrite !stepCalls_app.
  split_Forall_app.
  - eapply callFromSome_mono; [|apply callFrom_ApplyState_stepsBefore].
    unfold allPhases. simpl. intuition.
  - eapply callFromSome_intro; [|apply callFrom_ProcessDrainNodes].
    unfold allPhases. simpl. auto 10.
  - eapply callFromSome_mono; [|apply callFrom_ApplyState_stepsAfter].
    unfold allPhases. simpl. intuition.
Qed.

(** ** The guards of ApplyState *)

(** C8: with a nil snapshot [ApplyState] returns an error and touches
    nothing; with a nil policy, or a policy whose [AutoUpgrade] is false, it
    returns nil and touches nothing: no call is logged and no drain spec is
    written, whatever the world it starts in. *)
Theorem C8_ApplyState_guards :
  forall (cs : ClusterUpgradeState) (upgradePolicy : option DriverUpgradePolicySpec)
         (maxParallel : Z) (wait : option WaitForCompletionSpec)
         (deletion : option PodDeletionSpec) (drain : option loc) (w : World),
    ApplyState None upgradePolicy w = (inl "currentState should not be empty", w) /\
    ApplyState (Some cs) None w = (inr tt, w) /\
    ApplyState (Some cs)
      (Some {| AutoUpgrade := false; MaxParallelUpgrades := maxParallel;
               WaitForCompletion := wait; PodDeletion := deletion;
               DrainSpec_ := drain |}) w = (inr tt, w).
Proof. intros. repeat split; reflexivity. Qed.

(** ** Driver pod in sync *)

Lemma containersReady_spec statuses :
  containersReady statuses = true <->
  (forall c, In c statuses -> ContainerStatus_Ready c = true).
Proof.
  induction statuses as [|c l IH]; simpl.
  - split; [intros _ c [] | reflexivity].
  - destruct (ContainerStatus_Ready c) eqn:Hc; simpl.
    + rewrite IH. split.
      * intros H c' [<- | Hin]; auto.
      * intros H c' Hin. apply H. right. exact Hin.
    + split; [discriminate|]. intros H.
      rewrite (H c) in Hc; [discriminate | left; reflexivity].
Qed.

(** C5 (as the code has it): the driver pod is judged in sync exactly when
    the pod template generation equals the daemonset generation, the pod's
    phase is Running, at least one container status is reported, and every
    reported container is ready; so a single container that is not ready
    makes it not in sync. *)
Theorem C5_isDriverPodInSync_iff :
  forall ns : NodeUpgradeState,
    (isDriverPodInSync ns = inr true <-> inSyncCondition ns) /\
    (forall c, In c (Pod_Status_ContainerStatuses (DriverPod ns)) ->
               ContainerStatus_Ready c = false ->
               isDriverPodInSync ns <> inr true).
Proof.
  intros ns.
  assert (Hiff : isDriverPodInSync ns = inr true <-> inSyncCondition ns).
  { unfold isDriverPodInSync, inSyncCondition, claimedInSync.
    destruct (GetPodTemplateGeneration (DriverPod ns)) as [e|g].
    { split; [discriminate | intros [[H _] _]; discriminate]. }
    destruct (g =? GetGeneration (DriverDaemonSet ns)) eqn:Hg; simpl.
    2:{ split; [discriminate|]. intros [[H _] _]. injection H as ->.
        rewrite Z.eqb_refl in Hg. discriminate. }
    apply Z.eqb_eq in Hg. subst g.
    destruct (String.eqb (Pod_Status_Phase (DriverPod ns)) "Running") eqn:Hp; simpl.
    2:{ split; [discriminate|]. intros [(_ & H & _) _].
        apply String.eqb_eq in H. congruence. }
    apply String.eqb_eq in Hp.
    destruct (GoInt.len (Pod_Status_ContainerStatuses (DriverPod ns)) =? 0) eqn:Hl;
      simpl.
    { apply GoInt_len_zero in Hl. split; [discriminate|]. intros [_ H].
      contradiction. }
    split.
    - intros H. injection H as H.
      pose proof (proj1 (containersReady_spec _) H) as Hall.
      repeat split; auto. intros Hnil. rewrite Hnil in Hl. discriminate.
    - intros [(_ & _ & H) _]. f_equal. apply containersReady_spec. exact H. }
  split; [exact Hiff|].
  intros c Hin Hc Hsync. apply Hiff in Hsync.
  destruct Hsync as [(_ & _ & H) _]. rewrite (H c Hin) in Hc. discriminate.
Qed.

(** ** The processors run in order *)

Lemma runScript_extendsLog s : extendsLog (runScript s).
Proof.
  intros w. destruct (runScript_Ran s w) as (d & Hd & _).
  rewrite Hd. apply prefix_app_r. reflexivity.
Qed.

Lemma extendsLog_ext (p q : M unit) :
  (forall w, p w = q w) -> extendsLog q -> extendsLog p.
Proof. intros Heq Hq w. rewrite Heq. apply Hq. Qed.

Lemma phaseProcessors_extendLog cs pol :
  Forall extendsLog (phaseProcessors cs pol).
Proof.
  unfold phaseProcessors.
  repeat match goal with
         | |- Forall _ [] => constructor
         | |- Forall _ (_ :: _) => constructor
         end.
  - eapply extendsLog_ext;
      [apply ProcessDoneOrUnknownNodes_script | apply runScript_extendsLog].
  - eapply extendsLog_ext;
      [apply ProcessDoneOrUnknownNodes_script | apply runScript_extendsLog].
  - eapply extendsLog_ext;
      [apply ProcessUpgradeRequiredNodes_script | apply runScript_extendsLog].
  - eapply extendsLog_ext;
      [apply ProcessCordonRequiredNodes_script | apply runScript_extendsLog].
  - eapply extendsLog_ext;
      [apply ProcessWaitForJobsRequiredNodes_script | apply runScript_extendsLog].
  - eapply extendsLog_ext;
      [apply ProcessPodDeletionRequiredNodes_script | apply runScript_extendsLog].
  - intros w. rewrite ProcessDrainNodes_script. apply runScript_extendsLog.
  - eapply extendsLog_ext;
      [apply ProcessPodRestartNodes_script | apply runScript_extendsLog].
  - eapply extendsLog_ext;
      [apply ProcessUpgradeFailedNodes_script | apply runScript_extendsLog].
  - eapply extendsLog_ext;
      [apply ProcessUncordonRequiredNodes_script | apply runScript_extendsLog].
Qed.

Lemma runInOrder_extendsLog ps : Forall extendsLog ps -> extendsLog (runInOrder ps).
Proof.
  induction 1 as [|p ps Hp Hps IH]; intros w; simpl; [reflexivity|].
  specialize (Hp w). destruct (p w) as [[e|[]] w1]; simpl in Hp; [exact Hp|].
  etransitivity; [exact Hp | apply IH].
Qed.

Lemma runInOrder_keeps_log ps :
  Forall extendsLog ps ->
  forall k w,
    calls (snd (runInOrder (take k ps) w)) `prefix_of` calls (snd (runInOrder ps w)).
Proof.
  induction 1 as [|p ps Hp Hps IH]; intros k w.
  - destruct k; reflexivity.
  - destruct k as [|k]; simpl.
    + specialize (Hp w). destruct (p w) as [[e|[]] w1]; simpl in Hp; [exact Hp|].
      etransitivity; [exact Hp | apply runInOrder_extendsLog; exact Hps].
    + destruct (p w) as [[e|[]] w1]; [reflexivity | apply IH].
Qed.

Lemma runInOrder_first_error ps :
  forall k p w wk e wk',
    ps !! k = Some p -> runInOrder (take k ps) w = (inr tt, wk) ->
    p wk = (inl e, wk') -> runInOrder ps w = (inl e, wk').
Proof.
  induction ps as [|q ps IH]; intros k p w wk e wk' Hk Hrun Hp.
  - destruct k; discriminate.
  - destruct k as [|k]; simpl in *.
    + injection Hk as ->. injection Hrun as ->. rewrite Hp. reflexivity.
    + destruct (q w) as [[e'|[]] w1]; [discriminate|]. eapply IH; eauto.
Qed.

Lemma ApplyState_runInOrder cs pol w :
  AutoUpgrade pol = true ->
  ApplyState (Some cs) (Some pol) w = runInOrder (phaseProcessors cs pol) w.
Proof.
  intros Hauto. unfold ApplyState, phaseProcessors. rewrite Hauto. simpl negb.
  cbv iota. unfold bind. simpl.
  repeat match goal with
         | |- context [match ?p ?w with _ => _ end] =>
             destruct (p w) as [[?|[]] ?]; try reflexivity
         end.
Qed.

(** C2: with auto-upgrade enabled, [ApplyState] is the run of the ten
    processors in the order Unknown, Done, UpgradeRequired, CordonRequired,
    WaitForJobsRequired, PodDeletionRequired, DrainRequired,
    PodRestartRequired, Failed, UncordonRequired; when the processor at
    position [k] is the first to return an error, [ApplyState] returns that
    error in the world that processor left, so no later processor runs; and
    the log reached after any number of processors is kept, as a prefix, in
    the final log. *)
Theorem C2_processors_in_order :
  forall (cs : ClusterUpgradeState) (pol : DriverUpgradePolicySpec) (w : World),
    AutoUpgrade pol = true ->
    ApplyState (Some cs) (Some pol) w = runInOrder (phaseProcessors cs pol) w /\
    (forall k p wk e wk',
        phaseProcessors cs pol !! k = Some p ->
        runInOrder (take k (phaseProcessors cs pol)) w = (inr tt, wk) ->
        p wk = (inl e, wk') ->
        ApplyState (Some cs) (Some pol) w = (inl e, wk')) /\
    (forall k,
        calls (snd (runInOrder (take k (phaseProcessors cs pol)) w))
          `prefix_of` calls (snd (ApplyState (Some cs) (Some pol) w))).
Proof.
  intros cs pol w Hauto.
  pose proof (ApplyState_runInOrder cs pol w Hauto) as Heq.
  split; [exact Heq|]. split.
  - intros k p wk e wk' Hk Hrun Hp. rewrite Heq.
    eapply runInOrder_first_error; eauto.
  - intros k. rewrite Heq. apply runInOrder_keeps_log, phaseProcessors_extendLog.
Qed.

(** ** The shape of the script of a pass *)

Lemma ApplyState_steps_flat cs pol h :
  ApplyState_steps cs pol h =
  flat_map (ProcessDoneOrUnknownNodes_steps UpgradeStateUnknown)
           (nodesIn cs UpgradeStateUnknown) ++
  flat_map (ProcessDoneOrUnknownNodes_steps UpgradeStateDone)
           (nodesIn cs UpgradeStateDone) ++
  ProcessUpgradeRequiredNodes_steps (nodesIn cs UpgradeStateUpgradeRequired)
                                    (upgradesAvailable cs pol) ++
  flat_map ProcessCordonRequiredNodes_steps (nodesIn cs UpgradeStateCordonRequired) ++
  ProcessWaitForJobsRequiredNodes_steps (nodesIn cs UpgradeStateWaitForJobsRequired)
                                        (WaitForCompletion pol) ++
  ProcessPodDeletionRequiredNodes_steps (nodesIn cs UpgradeStatePodDeletionRequired)
                                        (PodDeletion pol) ++
  ProcessDrainNodes_steps (nodesIn cs UpgradeStateDrainRequired) (DrainSpec_ pol) h ++
  (flat_map ProcessPodRestartNodes_steps (nodesIn cs UpgradeStatePodRestartRequired) ++
   [Do (CallSchedulePodsRestart
          (flat_map ProcessPodRestartNodes_pods
                    (nodesIn cs UpgradeStatePodRestartRequired)))]) ++
  flat_map ProcessUpgradeFailedNodes_steps (nodesIn cs UpgradeStateFailed) ++
  flat_map ProcessUncordonRequiredNodes_steps (nodesIn cs UpgradeStateUncordonRequired).
Proof.
  unfold ApplyState_steps, ApplyState_stepsBefore, ApplyState_stepsAfter.
  rewrite <- !app_assoc. reflexivity.
Qed.

Lemma In_app_event {A : Type} (x : A) (pre post : list A) : In x (pre ++ x :: post).
Proof. apply in_or_app. right. left. reflexivity. Qed.

(** The calls logged by a pass all come from the ten processors. *)
Lemma ApplyState_callFrom cs pol h d r h' :
  Ran (ApplyState_steps cs pol h) h d r h' ->
  Forall (fun ev => callFromSome cs allPhases (fst ev)) d.
Proof.
  intros HR. eapply Ran_Forall; [exact HR | apply callFrom_ApplyState_steps].
Qed.

(** ** Skip-labelled nodes *)

Lemma ProcessUpgradeRequiredNodes_loop_no_slot l limit w :
  limit <= 0 -> ProcessUpgradeRequiredNodes_loop l limit w = (inr tt, w).
Proof.
  intros Hl. destruct l as [|ns l]; simpl; [reflexivity|].
  destruct (Z.leb_spec limit 0); [reflexivity | lia].
Qed.

Lemma ProcessUpgradeRequiredNodes_loop_skip l :
  forall limit w,
    ProcessUpgradeRequiredNodes_loop l limit w =
    ProcessUpgradeRequiredNodes_loop
      (List.filter (fun ns => negb (skipNodeUpgrade (Node_ ns))) l) limit w.
Proof.
  induction l as [|ns l IH]; intros limit w; simpl; [reflexivity|].
  destruct (skipNodeUpgrade (Node_ ns)) eqn:Hskip; simpl.
  - destruct (Z.leb_spec limit 0).
    + symmetry. apply ProcessUpgradeRequiredNodes_loop_no_slot. assumption.
    + apply IH.
  - rewrite Hskip. destruct (limit <=? 0); [reflexivity|].
    apply bind_ext; [reflexivity | intros _ w'; apply IH].
Qed.

(** C6: a node that carries the skip-upgrade label and sits in the
    UpgradeRequired list only is never the target of a phase write in a
    pass, whatever the policy's concurrency limit; and it consumes no slot:
    for every limit, the UpgradeRequired loop does exactly what it does on
    the list with the skip-labelled nodes removed. *)
Theorem C6_skip_label_keeps_node :
  forall (cs : ClusterUpgradeState) (pol : DriverUpgradePolicySpec) (w : World)
         (n : Node),
    AutoUpgrade pol = true ->
    skipNodeUpgrade n = true ->
    (forall X, X <> UpgradeStateUpgradeRequired -> ~ In n (nodesOf cs X)) ->
    (exists d,
        calls (snd (ApplyState (Some cs) (Some pol) w)) = calls w ++ d /\
        Forall (fun ev => ~ isPhaseWriteFor n (fst ev)) d) /\
    (forall l limit w0,
        ProcessUpgradeRequiredNodes_loop l limit w0 =
        ProcessUpgradeRequiredNodes_loop
          (List.filter (fun ns => negb (skipNodeUpgrade (Node_ ns))) l) limit w0).
Proof.
  intros cs pol w n Hauto Hskip Honly. split.
  - destruct (ApplyState_Ran cs pol w Hauto) as (d & Hd & HR).
    exists d. split; [exact Hd|].
    eapply List.Forall_impl; [|exact (ApplyState_callFrom _ _ _ _ _ _ HR)].
    intros [c a] (X & _ & Hc) [st Hst]. simpl in *. subst c.
    destruct Hc as (Hin & _ & Hs).
    destruct (decide (X = UpgradeStateUpgradeRequired)) as [HX|HX].
    + rewrite (Hs HX) in Hskip. discriminate.
    + exact (Honly X HX Hin).
  - intros l limit w0. apply ProcessUpgradeRequiredNodes_loop_skip.
Qed.

(** ** Drain disabled by policy *)

Lemma callFromSome_not_drain cs Xs l :
  Forall (callFromSome cs Xs) l -> ~ In UpgradeStateDrainRequired Xs ->
  Forall (fun c => ~ isDrainCall c) l.
Proof.
  intros HF HX. eapply List.Forall_impl; [|exact HF].
  intros c (X & HXs & Hc) Hdrain. destruct c; simpl in Hdrain; try contradiction.
  simpl in Hc. subst X. contradiction.
Qed.

Lemma stepCalls_drainDisabled_steps l :
  stepCalls (drainDisabled_steps l) =
  map (fun n => CallChangeNodeUpgradeState n UpgradeStatePodRestartRequired)
      (map Node_ l).
Proof.
  unfold drainDisabled_steps. induction l as [|ns l IH]; simpl; [reflexivity|].
  rewrite IH. reflexivity.
Qed.

Lemma tryCalls_drainDisabled_steps l : tryCalls (drainDisabled_steps l) = [].
Proof. unfold drainDisabled_steps. induction l; simpl; auto. Qed.

Lemma ProcessDrainNodes_steps_disabled l pol w :
  drainDisabled pol w ->
  ProcessDrainNodes_steps l (DrainSpec_ pol) (drainSpecs w) = drainDisabled_steps l.
Proof.
  unfold drainDisabled, ProcessDrainNodes_steps.
  destruct (DrainSpec_ pol) as [p|]; [|reflexivity].
  intros ->. reflexivity.
Qed.

Lemma not_drain_drainDisabled_steps l :
  Forall (fun c => ~ isDrainCall c) (stepCalls (drainDisabled_steps l)).
Proof.
  rewrite stepCalls_drainDisabled_steps.
  induction (map Node_ l); simpl; constructor; auto.
Qed.

Lemma map_ok_app (l1 l2 : list Call) : map ok (l1 ++ l2) = map ok l1 ++ map ok l2.
Proof. apply map_app. Qed.

(** C9: when the policy has no drain spec, or one whose [Enable] is false,
    a pass never calls the Drain Manager and leaves every drain spec as it
    was; the drain processor logs, for the DrainRequired nodes in order, a
    write of PodRestartRequired and nothing else, all of them when it
    returns nil; and a pass that returns nil has made these writes for
    every DrainRequired node. *)
Theorem C9_drain_disabled :
  forall (cs : ClusterUpgradeState) (pol : DriverUpgradePolicySpec) (w : World),
    AutoUpgrade pol = true ->
    drainDisabled pol w ->
    let writes :=
      map (fun n => CallChangeNodeUpgradeState n UpgradeStatePodRestartRequired)
          (nodesOf cs UpgradeStateDrainRequired) in
    (exists d,
        calls (snd (ApplyState (Some cs) (Some pol) w)) = calls w ++ d /\
        Forall (fun ev => ~ isDrainCall (fst ev)) d /\
        drainSpecs (snd (ApplyState (Some cs) (Some pol) w)) = drainSpecs w /\
        (fst (ApplyState (Some cs) (Some pol) w) = inr tt ->
         exists pre post, d = pre ++ map ok writes ++ post)) /\
    (exists d0,
        calls (snd (ProcessDrainNodes cs (DrainSpec_ pol) w)) = calls w ++ d0 /\
        map fst d0 `prefix_of` writes /\
        (fst (ProcessDrainNodes cs (DrainSpec_ pol) w) = inr tt ->
         d0 = map ok writes)).
Proof.
  intros cs pol w Hauto Hdis writes. split.
  - destruct (ApplyState_Ran cs pol w Hauto) as (d & Hd & HR).
    exists d. split; [exact Hd|].
    unfold ApplyState_steps in HR.
    rewrite (ProcessDrainNodes_steps_disabled _ _ _ Hdis) in HR.
    split; [|split].
    + eapply (Ran_Forall (fun c => ~ isDrainCall c)); [exact HR|].
      rewrite !stepCalls_app.
      split_Forall_app.
      * eapply callFromSome_not_drain; [apply callFrom_ApplyState_stepsBefore|].
        simpl. intuition discriminate.
      * apply not_drain_drainDisabled_steps.
      * eapply callFromSome_not_drain; [apply callFrom_ApplyState_stepsAfter|].
        simpl. intuition discriminate.
    + eapply Ran_noSet; [exact HR|].
      apply noSet_app; [apply noSet_ApplyState_stepsBefore|].
      apply noSet_app; [|apply noSet_ApplyState_stepsAfter].
      apply noSet_map. reflexivity.
    + intros Hok. rewrite Hok in HR.
      apply Ran_app_ok in HR as (dB & d' & h1 & -> & _ & HR).
      apply Ran_app_ok in HR as (dD & dA & h2 & -> & HD & _).
      apply Ran_ok_dos in HD; [|apply tryCalls_drainDisabled_steps].
      rewrite stepCalls_drainDisabled_steps in HD. subst dD.
      exists dB, dA. reflexivity.
  - rewrite ProcessDrainNodes_script.
    rewrite (ProcessDrainNodes_steps_disabled _ _ _ Hdis).
    destruct (runScript_Ran (drainDisabled_steps (nodesIn cs UpgradeStateDrainRequired)) w)
      as (d0 & Hd0 & HR).
    exists d0. split; [exact Hd0|]. split.
    + pose proof (Ran_prefix _ _ _ _ _ HR) as Hp.
      rewrite stepCalls_drainDisabled_steps in Hp. exact Hp.
    + intros Hok. rewrite Hok in HR.
      apply Ran_ok_dos in HR; [|apply tryCalls_drainDisabled_steps].
      rewrite stepCalls_drainDisabled_steps in HR. exact HR.
Qed.

(** ** The log of a script without dropped errors *)

Lemma runScript_log s w :
  tryCalls s = [] ->
  exists d,
    calls (snd (runScript s w)) = calls w ++ d /\
    map fst d `prefix_of` stepCalls s /\
    (fst (runScript s w) = inr tt -> d = map ok (stepCalls s)).
Proof.
  intros Ht. destruct (runScript_Ran s w) as (d & Hd & HR).
  exists d. split; [exact Hd|]. split.
  - eapply Ran_prefix; exact HR.
  - intros Hok. rewrite Hok in HR. eapply Ran_ok_dos; eauto.
Qed.

(** ** Unknown and Done nodes *)

Lemma stepCalls_ProcessDoneOrUnknownNodes_steps name ns :
  name = UpgradeStateUnknown \/ name = UpgradeStateDone ->
  stepCalls (ProcessDoneOrUnknownNodes_steps name ns) =
  expectedDoneOrUnknown name ns.
Proof.
  intros Hname.
  unfold ProcessDoneOrUnknownNodes_steps, expectedDoneOrUnknown, isNodeUnschedulable.
  destruct (GetPodTemplateGeneration (DriverPod ns)) as [e|g]; [reflexivity|].
  destruct (Z.eqb_spec g (GetGeneration (DriverDaemonSet ns))) as [Heq|Hne]; simpl.
  - destruct (decide (g <> GetGeneration (DriverDaemonSet ns))); [contradiction|].
    destruct Hname as [-> | ->]; reflexivity.
  - destruct (decide (g <> GetGeneration (DriverDaemonSet ns))); [|contradiction].
    destruct (Node_Spec_Unschedulable (Node_ ns)); reflexivity.
Qed.

Lemma tryCalls_ProcessDoneOrUnknownNodes_steps name ns :
  tryCalls (ProcessDoneOrUnknownNodes_steps name ns) = [].
Proof.
  unfold ProcessDoneOrUnknownNodes_steps.
  destruct (GetPodTemplateGeneration _); [reflexivity|].
  destruct (negb _); [destruct (isNodeUnschedulable _); reflexivity|].
  destruct (decide _); reflexivity.
Qed.

Lemma stepCalls_ProcessDoneOrUnknownNodes cs name :
  name = UpgradeStateUnknown \/ name = UpgradeStateDone ->
  stepCalls (flat_map (ProcessDoneOrUnknownNodes_steps name) (nodesIn cs name)) =
  flat_map (expectedDoneOrUnknown name) (nodesIn cs name).
Proof.
  intros Hname. rewrite stepCalls_flat_map.
  induction (nodesIn cs name) as [|ns l IH]; simpl; [reflexivity|].
  rewrite IH, stepCalls_ProcessDoneOrUnknownNodes_steps by assumption.
  reflexivity.
Qed.

(** C3: in a pass the first calls are those expected for the Unknown nodes
    and then for the Done nodes, node by node in the order of the lists: for
    a node whose generations differ, the preservation annotation (only if
    the node is unschedulable) and then the write of UpgradeRequired; for an
    Unknown node whose generations match, the write of Done; for a Done
    node whose generations match, nothing.  The log of every pass follows
    this list for as long as the pass runs, and a pass that returns nil has
    made all of these calls, each returning nil. *)
Theorem C3_done_or_unknown_nodes :
  forall (cs : ClusterUpgradeState) (pol : DriverUpgradePolicySpec) (w : World),
    AutoUpgrade pol = true ->
    let expected :=
      flat_map (expectedDoneOrUnknown UpgradeStateUnknown)
               (nodesIn cs UpgradeStateUnknown) ++
      flat_map (expectedDoneOrUnknown UpgradeStateDone)
               (nodesIn cs UpgradeStateDone) in
    exists d,
      calls (snd (ApplyState (Some cs) (Some pol) w)) = calls w ++ d /\
      (exists later, map fst d `prefix_of` expected ++ later) /\
      (fst (ApplyState (Some cs) (Some pol) w) = inr tt ->
       exists rest, d = map ok expected ++ rest).
Proof.
  intros cs pol w Hauto expected.
  destruct (ApplyState_Ran cs pol w Hauto) as (d & Hd & HR).
  exists d. split; [exact Hd|].
  rewrite ApplyState_steps_flat in HR. split.
  - apply Ran_prefix in HR. rewrite stepCalls_app, stepCalls_app in HR.
    rewrite !stepCalls_ProcessDoneOrUnknownNodes in HR by auto.
    rewrite app_assoc in HR. eexists. exact HR.
  - intros Hok. rewrite Hok in HR.
    apply Ran_app_ok in HR as (dU & d' & h1 & -> & HU & HR).
    apply Ran_app_ok in HR as (dD & rest & h2 & -> & HD & _).
    apply Ran_ok_dos in HU;
      [|apply tryCalls_flat_map, tryCalls_ProcessDoneOrUnknownNodes_steps].
    apply Ran_ok_dos in HD;
      [|apply tryCalls_flat_map, tryCalls_ProcessDoneOrUnknownNodes_steps].
    rewrite stepCalls_ProcessDoneOrUnknownNodes in HU, HD by auto.
    subst dU dD. exists rest. unfold expected.
    rewrite map_ok_app, <- app_assoc. reflexivity.
Qed.

(** ** Nodes whose driver pod is in sync *)

Lemma stepCalls_driverPodInSync_steps ns :
  isDriverPodInSync ns = inr true ->
  stepCalls (driverPodInSync_steps ns) = expectedInSync ns.
Proof.
  intros Hsync. unfold driverPodInSync_steps, expectedInSync. rewrite Hsync.
  destruct (Node_Annotations (Node_ ns) !! GetUpgradeInitialStateAnnotationKey)
    as [v|] eqn:Hv.
  - destruct (decide (is_Some (Some v))) as [_|Hno]; [reflexivity|].
    exfalso. apply Hno. eauto.
  - destruct (decide (is_Some (@None string))) as [[v Hyes]|_];
      [discriminate | reflexivity].
Qed.

Lemma stepCalls_ProcessUpgradeFailedNodes_steps ns :
  stepCalls (ProcessUpgradeFailedNodes_steps ns) = expectedInSync ns.
Proof.
  unfold ProcessUpgradeFailedNodes_steps.
  destruct (isDriverPodInSync ns) as [e|[|]] eqn:Hsync.
  - unfold expectedInSync. rewrite Hsync. reflexivity.
  - apply stepCalls_driverPodInSync_steps. exact Hsync.
  - unfold expectedInSync. rewrite Hsync. reflexivity.
Qed.

Lemma stepCalls_ProcessPodRestartNodes_steps ns :
  stepCalls (ProcessPodRestartNodes_steps ns) = expectedInSync ns.
Proof.
  unfold ProcessPodRestartNodes_steps.
  destruct (GetPodTemplateGeneration (DriverPod ns)) as [e|g] eqn:Hg.
  - unfold expectedInSync, isDriverPodInSync. rewrite Hg. reflexivity.
  - destruct (g =? GetGeneration (DriverDaemonSet ns)) eqn:Heq; simpl.
    + apply stepCalls_ProcessUpgradeFailedNodes_steps.
    + unfold expectedInSync, isDriverPodInSync. rewrite Hg, Heq. reflexivity.
Qed.

Lemma tryCalls_ProcessUpgradeFailedNodes_steps ns :
  tryCalls (ProcessUpgradeFailedNodes_steps ns) = [].
Proof.
  unfold ProcessUpgradeFailedNodes_steps, driverPodInSync_steps.
  destruct (isDriverPodInSync ns) as [e|[|]]; try reflexivity.
  destruct (decide _); reflexivity.
Qed.

Lemma tryCalls_ProcessPodRestartNodes_steps ns :
  tryCalls (ProcessPodRestartNodes_steps ns) = [].
Proof.
  unfold ProcessPodRestartNodes_steps.
  destruct (GetPodTemplateGeneration _); [reflexivity|].
  destruct (negb _); [reflexivity | apply tryCalls_ProcessUpgradeFailedNodes_steps].
Qed.

Lemma flat_map_ext_eq {A B : Type} (f g : A -> list B) (l : list A) :
  (forall x, f x = g x) -> flat_map f l = flat_map g l.
Proof.
  intros Hfg. induction l as [|x l IH]; simpl; [reflexivity|].
  rewrite Hfg, IH. reflexivity.
Qed.

Lemma stepCalls_PodRestart cs :
  stepCalls (flat_map ProcessPodRestartNodes_steps
               (nodesIn cs UpgradeStatePodRestartRequired) ++
             [Do (CallSchedulePodsRestart
                    (flat_map ProcessPodRestartNodes_pods
                       (nodesIn cs UpgradeStatePodRestartRequired)))]) =
  flat_map expectedInSync (nodesIn cs UpgradeStatePodRestartRequired) ++
  [CallSchedulePodsRestart
     (flat_map ProcessPodRestartNodes_pods
        (nodesIn cs UpgradeStatePodRestartRequired))].
Proof.
  rewrite stepCalls_app, stepCalls_flat_map.
  rewrite (flat_map_ext_eq _ _ _ stepCalls_ProcessPodRestartNodes_steps).
  reflexivity.
Qed.

Lemma stepCalls_Failed cs :
  stepCalls (flat_map ProcessUpgradeFailedNodes_steps
               (nodesIn cs UpgradeStateFailed)) =
  flat_map expectedInSync (nodesIn cs UpgradeStateFailed).
Proof.
  rewrite stepCalls_flat_map.
  apply flat_map_ext_eq, stepCalls_ProcessUpgradeFailedNodes_steps.
Qed.

Lemma tryCalls_PodRestart cs :
  tryCalls (flat_map ProcessPodRestartNodes_steps
              (nodesIn cs UpgradeStatePodRestartRequired) ++
            [Do (CallSchedulePodsRestart
                   (flat_map ProcessPodRestartNodes_pods
                      (nodesIn cs UpgradeStatePodRestartRequired)))]) = [].
Proof.
  rewrite tryCalls_app, tryCalls_flat_map;
    [reflexivity | apply tryCalls_ProcessPodRestartNodes_steps].
Qed.

(** C4: for the PodRestartRequired nodes and for the Failed nodes, the
    calls made for a node whose driver pod is in sync are: with the
    preservation annotation present, the write of Done and then the
    annotation written as "null"; with the annotation absent, the write of
    UncordonRequired; nothing for a node that is not in sync.  Each of the
    two processors logs these calls in the order of its list for as long as
    it runs (the restart processor ends with its one SchedulePodsRestart
    call), all of them returning nil when it returns nil.  A pass calls
    Uncordon only for nodes of the UncordonRequired list. *)
Theorem C4_in_sync_nodes :
  forall (cs : ClusterUpgradeState) (pol : DriverUpgradePolicySpec) (w : World),
    AutoUpgrade pol = true ->
    let restart :=
      flat_map expectedInSync (nodesIn cs UpgradeStatePodRestartRequired) ++
      [CallSchedulePodsRestart
         (flat_map ProcessPodRestartNodes_pods
            (nodesIn cs UpgradeStatePodRestartRequired))] in
    let failed := flat_map expectedInSync (nodesIn cs UpgradeStateFailed) in
    (exists d,
        calls (snd (ProcessPodRestartNodes cs w)) = calls w ++ d /\
        map fst d `prefix_of` restart /\
        (fst (ProcessPodRestartNodes cs w) = inr tt -> d = map ok restart)) /\
    (exists d,
        calls (snd (ProcessUpgradeFailedNodes cs w)) = calls w ++ d /\
        map fst d `prefix_of` failed /\
        (fst (ProcessUpgradeFailedNodes cs w) = inr tt -> d = map ok failed)) /\
    (exists d,
        calls (snd (ApplyState (Some cs) (Some pol) w)) = calls w ++ d /\
        (forall n a, In (CallUncordon n, a) d ->
                     In n (nodesOf cs UpgradeStateUncordonRequired)) /\
        (fst (ApplyState (Some cs) (Some pol) w) = inr tt ->
         exists pre post, d = pre ++ map ok restart ++ map ok failed ++ post)).
Proof.
  intros cs pol w Hauto restart failed. split; [|split].
  - rewrite ProcessPodRestartNodes_script. unfold restart.
    rewrite <- stepCalls_PodRestart. apply runScript_log, tryCalls_PodRestart.
  - rewrite ProcessUpgradeFailedNodes_script. unfold failed.
    rewrite <- stepCalls_Failed. apply runScript_log.
    apply tryCalls_flat_map, tryCalls_ProcessUpgradeFailedNodes_steps.
  - destruct (ApplyState_Ran cs pol w Hauto) as (d & Hd & HR).
    exists d. split; [exact Hd|]. split.
    + intros n a Hin.
      pose proof (ApplyState_callFrom _ _ _ _ _ _ HR) as HF.
      rewrite List.Forall_forall in HF. specialize (HF _ Hin).
      destruct HF as (X & _ & HX & Hn). simpl in HX. subst X. exact Hn.
    + intros Hok. rewrite Hok in HR. unfold ApplyState_steps in HR.
      apply Ran_app_ok in HR as (dB & d1 & h1 & -> & _ & HR).
      apply Ran_app_ok in HR as (dD & d2 & h2 & -> & _ & HR).
      unfold ApplyState_stepsAfter in HR.
      apply Ran_app_ok in HR as (dR & d3 & h3 & -> & HRR & HR).
      apply Ran_app_ok in HR as (dF & dU & h4 & -> & HRF & _).
      apply Ran_ok_dos in HRR; [|apply tryCalls_PodRestart].
      apply Ran_ok_dos in HRF;
        [|apply tryCalls_flat_map, tryCalls_ProcessUpgradeFailedNodes_steps].
      rewrite stepCalls_PodRestart in HRR. rewrite stepCalls_Failed in HRF.
      subst dR dF. exists (dB ++ dD), dU. rewrite <- !app_assoc. reflexivity.
Qed.

(** ** Cordon *)

Lemma ApplyState_steps_cordon cs pol h :
  ApplyState_steps cs pol h =
  stepsBeforeCordon cs pol ++
  flat_map ProcessCordonRequiredNodes_steps (nodesIn cs UpgradeStateCordonRequired) ++
  stepsAfterCordon cs pol h.
Proof.
  unfold ApplyState_steps, ApplyState_stepsBefore, stepsBeforeCordon,
    stepsAfterCordon.
  rewrite <- !app_assoc. reflexivity.
Qed.

Lemma callFrom_stepsBeforeCordon cs pol :
  Forall (callFromSome cs
            [UpgradeStateUnknown; UpgradeStateDone; UpgradeStateUpgradeRequired])
    (stepCalls (stepsBeforeCordon cs pol)).
Proof.
  unfold stepsBeforeCordon. rewrite !stepCalls_app. split_Forall_app.
  - eapply callFromSome_intro;
      [|apply callFrom_ProcessDoneOrUnknownNodes; auto]. simpl; auto.
  - eapply callFromSome_intro;
      [|apply callFrom_ProcessDoneOrUnknownNodes; auto]. simpl; auto.
  - eapply callFromSome_intro;
      [|apply callFrom_ProcessUpgradeRequiredNodes; auto]. simpl; auto.
Qed.

Lemma callFrom_stepsAfterCordon cs pol h :
  Forall (callFromSome cs
            [UpgradeStateWaitForJobsRequired; UpgradeStatePodDeletionRequired;
             UpgradeStateDrainRequired; UpgradeStatePodRestartRequired;
             UpgradeStateFailed; UpgradeStateUncordonRequired])
    (stepCalls (stepsAfterCordon cs pol h)).
Proof.
  unfold stepsAfterCordon. rewrite !stepCalls_app. split_Forall_app.
  - eapply callFromSome_intro;
      [|apply callFrom_ProcessWaitForJobsRequiredNodes]. simpl; auto.
  - eapply callFromSome_intro;
      [|apply callFrom_ProcessPodDeletionRequiredNodes]. simpl; auto.
  - eapply callFromSome_intro; [|apply callFrom_ProcessDrainNodes]. simpl; auto.
  - eapply callFromSome_mono; [|apply callFrom_ApplyState_stepsAfter].
    simpl. intuition.
Qed.

Lemma callFromSome_not_cordon cs Xs l :
  Forall (callFromSome cs Xs) l -> ~ In UpgradeStateCordonRequired Xs ->
  Forall (fun c => cordonNext c = None) l.
Proof.
  intros HF HX. eapply List.Forall_impl; [|exact HF].
  intros c (X & HXs & Hc). destruct c; simpl; try reflexivity.
  simpl in Hc. destruct Hc as [-> _]. contradiction.
Qed.

Lemma not_cordon_stepsBeforeCordon cs pol :
  Forall (fun c => cordonNext c = None) (stepCalls (stepsBeforeCordon cs pol)).
Proof.
  eapply callFromSome_not_cordon; [apply callFrom_stepsBeforeCordon|].
  simpl. intuition discriminate.
Qed.

Lemma not_cordon_stepsAfterCordon cs pol h :
  Forall (fun c => cordonNext c = None) (stepCalls (stepsAfterCordon cs pol h)).
Proof.
  eapply callFromSome_not_cordon; [apply callFrom_stepsAfterCordon|].
  simpl. intuition discriminate.
Qed.

Lemma tryCalls_incl s c : In c (tryCalls s) -> In c (stepCalls s).
Proof.
  induction s as [|[c'|c'|e|l d] s IH]; simpl; auto.
  - intros [-> | H]; auto.
Qed.

Lemma tryCalls_ProcessUpgradeRequiredNodes_steps l limit :
  tryCalls (ProcessUpgradeRequiredNodes_steps l limit) = [].
Proof.
  revert limit. induction l as [|ns l IH]; intros limit; simpl; [reflexivity|].
  destruct (limit <=? 0); [reflexivity|].
  destruct (skipNodeUpgrade _); [apply IH|]. simpl. apply IH.
Qed.

Lemma tryCalls_stepsBeforeCordon cs pol : tryCalls (stepsBeforeCordon cs pol) = [].
Proof.
  unfold stepsBeforeCordon. rewrite !tryCalls_app.
  rewrite !tryCalls_flat_map by apply tryCalls_ProcessDoneOrUnknownNodes_steps.
  rewrite tryCalls_ProcessUpgradeRequiredNodes_steps. reflexivity.
Qed.

Lemma not_cordon_tryCalls cs pol h :
  Forall (fun c => cordonNext c = None) (tryCalls (ApplyState_steps cs pol h)).
Proof.
  rewrite ApplyState_steps_cordon, !tryCalls_app.
  rewrite tryCalls_stepsBeforeCordon.
  rewrite tryCalls_flat_map by reflexivity. simpl.
  pose proof (not_cordon_stepsAfterCordon cs pol h) as HF.
  rewrite List.Forall_forall in *. intros c Hc. apply HF, tryCalls_incl, Hc.
Qed.

Lemma Ran_In s h d r h' ev : Ran s h d r h' -> In ev d -> In (fst ev) (stepCalls s).
Proof.
  intros HR Hin.
  assert (HF : Forall (fun e => In (fst e) (stepCalls s)) d).
  { eapply (Ran_Forall (fun c => In c (stepCalls s))); [exact HR|].
    apply List.Forall_forall. auto. }
  rewrite List.Forall_forall in HF. apply HF, Hin.
Qed.

Lemma In_cordon_calls l n :
  In (CallCordon n) (stepCalls (flat_map ProcessCordonRequiredNodes_steps l)) ->
  In n (map Node_ l).
Proof.
  induction l as [|ns l IH]; simpl; [auto|].
  intros [H | [H | H]]; [injection H as ->; auto | discriminate | auto].
Qed.

Lemma followedBy_cordon l :
  followedBy cordonNext (flat_map ProcessCordonRequiredNodes_steps l).
Proof.
  induction l as [|ns l IH]; simpl; [exact I|].
  split; [eauto|]. split; [exact I | exact IH].
Qed.

Lemma followedBy_ApplyState_steps cs pol h :
  followedBy cordonNext (ApplyState_steps cs pol h).
Proof.
  rewrite ApplyState_steps_cordon.
  apply followedBy_app;
    [apply followedBy_none, not_cordon_stepsBeforeCordon|].
  apply followedBy_app;
    [apply followedBy_cordon | apply followedBy_none, not_cordon_stepsAfterCordon].
Qed.

(** Inside the cordon processor, nothing was written for the node whose
    cordon failed. *)
Lemma Ran_cordon_failure l rest n e :
  List.NoDup (map Node_ l) ->
  Forall (fun c => cordonNext c = None) (stepCalls rest) ->
  forall h d r h',
    Ran (flat_map ProcessCordonRequiredNodes_steps l ++ rest) h
        (d ++ [(CallCordon n, Some e)]) r h' ->
    Forall (fun ev => ~ isPhaseWriteFor n (fst ev)) d.
Proof.
  intros Hnd Hrest. induction l as [|ns l IH]; intros h d r h' HR.
  - simpl in HR.
    pose proof (Ran_In _ _ _ _ _ (CallCordon n, Some e) HR (In_app_event _ _ _))
      as Hin.
    rewrite List.Forall_forall in Hrest. specialize (Hrest _ Hin). discriminate.
  - simpl in HR. inversion Hnd as [|m l' Hnotin Hnd']; subst.
    inversion HR as [| c s h0 d0 r0 h0' HR1 | c e0 s h0 | | |]; subst.
    2:{ destruct d as [|x [|y d]]; simpl in *; try discriminate. constructor. }
    destruct d as [|x d]; simpl in *; [discriminate|].
    match goal with H : _ :: _ = _ :: _ |- _ => injection H as <- -> end.
    inversion HR1 as [| c s h1 d1 r1 h1' HR2 | c e1 s h1 | | |]; subst.
    2:{ destruct d as [|y [|z d]]; simpl in *; discriminate. }
    destruct d as [|y d]; simpl in *; [discriminate|].
    match goal with H : _ :: _ = _ :: _ |- _ => injection H as <- -> end.
    assert (Hne : Node_ ns <> n).
    { intros Heq. apply Hnotin. rewrite Heq.
      pose proof (Ran_In _ _ _ _ _ (CallCordon n, Some e) HR2 (In_app_event _ _ _))
        as Hin.
      simpl in Hin. rewrite stepCalls_app in Hin. apply in_app_or in Hin.
      destruct Hin as [Hin | Hin]; [apply In_cordon_calls; exact Hin|].
      rewrite List.Forall_forall in Hrest. specialize (Hrest _ Hin).
      discriminate. }
    constructor; [intros [st Hst]; discriminate|].
    constructor; [intros [st Hst]; injection Hst as Heq _; auto|].
    eapply IH; eauto.
Qed.

Lemma app_last_split {A : Type} (pre d1 d2 : list A) (x : A) :
  pre ++ [x] = d1 ++ d2 ->
  (d2 = [] /\ pre ++ [x] = d1) \/ (exists d2', d2 = d2' ++ [x] /\ pre = d1 ++ d2').
Proof.
  intros H. destruct d2 as [|y d2 _] using rev_ind.
  - left. rewrite app_nil_r in H. auto.
  - right. rewrite app_assoc in H. apply app_inj_tail in H as [-> ->]. eauto.
Qed.

(** ** Concurrency slots *)

Lemma upgradesInProgress_count cs :
  snapshotFits cs -> upgradesInProgress cs = countNodes cs inProgressPhases.
Proof.
  unfold snapshotFits, countNodes, upgradesInProgress, allPhases, inProgressPhases.
  simpl flat_map. rewrite !app_nil_r, !length_app, !Nat2Z.inj_add.
  unfold GoInt.len, GoInt.add, GoInt.max_int.
  set (a := Z.of_nat (length (nodesIn cs UpgradeStateCordonRequired))).
  set (b := Z.of_nat (length (nodesIn cs UpgradeStateDrainRequired))).
  set (c := Z.of_nat (length (nodesIn cs UpgradeStatePodRestartRequired))).
  set (e := Z.of_nat (length (nodesIn cs UpgradeStateWaitForJobsRequired))).
  set (f := Z.of_nat (length (nodesIn cs UpgradeStatePodDeletionRequired))).
  set (g := Z.of_nat (length (nodesIn cs UpgradeStateFailed))).
  set (i := Z.of_nat (length (nodesIn cs UpgradeStateUncordonRequired))).
  intros Hfit.
  assert (Hr : forall z, 0 <= z <= a + b + c + e + f + g + i -> GoInt.wrap z = z).
  { intros z Hz. apply GoInt_wrap_in_range.
    unfold GoInt.in_range, GoInt.min_int, GoInt.max_int. lia. }
  rewrite (Hr (a + b)) by lia. rewrite (Hr (a + b + c)) by lia.
  rewrite (Hr (a + b + c + e)) by lia. rewrite (Hr (a + b + c + e + f)) by lia.
  rewrite (Hr (a + b + c + e + f + g)) by lia.
  rewrite (Hr (a + b + c + e + f + g + i)) by lia. lia.
Qed.

Lemma callFromSome_not_state cs Xs st l :
  Forall (callFromSome cs Xs) l ->
  (forall X, In X Xs -> ~ In st (exitPhases X)) ->
  Forall (fun c => isStateWrite st c = false) l.
Proof.
  intros HF HX. eapply List.Forall_impl; [|exact HF].
  intros c (X & HXs & Hc). destruct c; simpl; try reflexivity.
  simpl in Hc. destruct Hc as (_ & Hst & _).
  apply bool_decide_eq_false. intros ->. exact (HX X HXs Hst).
Qed.

Lemma filter_none {A : Type} (P : A -> bool) (l : list A) :
  Forall (fun x => P x = false) l -> List.filter P l = [].
Proof.
  induction 1 as [|x l Hx _ IH]; simpl; [reflexivity|]. rewrite Hx. exact IH.
Qed.

Lemma filter_length_le {A : Type} (P : A -> bool) (l : list A) :
  (length (List.filter P l) <= length l)%nat.
Proof.
  induction l as [|x l IH]; simpl; [lia|]. destruct (P x); simpl; lia.
Qed.

Lemma filter_map_fst (P : Call -> bool) (d : list Event) :
  length (List.filter (fun ev => P (fst ev)) d) =
  length (List.filter P (map fst d)).
Proof.
  induction d as [|ev d IH]; simpl; [reflexivity|].
  destruct (P (fst ev)); simpl; rewrite IH; reflexivity.
Qed.

(** The UpgradeRequired loop makes at most [limit] writes. *)
Lemma ProcessUpgradeRequiredNodes_steps_bound l :
  forall limit,
    limit <= GoInt.max_int ->
    Z.of_nat (length (stepCalls (ProcessUpgradeRequiredNodes_steps l limit)))
    <= Z.max limit 0.
Proof.
  induction l as [|ns l IH]; intros limit Hmax; simpl; [lia|].
  destruct (Z.leb_spec limit 0); [simpl; lia|].
  destruct (skipNodeUpgrade (Node_ ns)).
  - etransitivity; [apply IH; assumption | lia].
  - simpl. unfold GoInt.sub.
    rewrite GoInt_wrap_in_range
      by (unfold GoInt.in_range, GoInt.min_int, GoInt.max_int in *; lia).
    specialize (IH (limit - 1)). lia.
Qed.

(** With as many slots as eligible nodes, the loop writes for all of them. *)
Lemma ProcessUpgradeRequiredNodes_steps_all l :
  forall limit,
    Z.of_nat (length (eligible l)) <= limit <= GoInt.max_int ->
    stepCalls (ProcessUpgradeRequiredNodes_steps l limit) =
    map (fun n => CallChangeNodeUpgradeState n UpgradeStateCordonRequired)
        (eligible l).
Proof.
  unfold eligible.
  induction l as [|ns l IH]; intros limit Hlim; simpl in *; [reflexivity|].
  destruct (skipNodeUpgrade (Node_ ns)) eqn:Hskip; simpl in *.
  - destruct (Z.leb_spec limit 0) as [Hle|Hgt]; [|apply IH; lia].
    destruct (List.filter _ l); simpl in *; [reflexivity | lia].
  - destruct (Z.leb_spec limit 0) as [Hle|Hgt]; [lia|].
    simpl. f_equal. unfold GoInt.sub.
    rewrite GoInt_wrap_in_range
      by (unfold GoInt.in_range, GoInt.min_int, GoInt.max_int in *; lia).
    apply IH. lia.
Qed.

Lemma movedTo_app st d1 d2 : movedTo st (d1 ++ d2) = movedTo st d1 ++ movedTo st d2.
Proof. unfold movedTo. apply flat_map_app. Qed.

Lemma movedTo_none st d :
  Forall (fun ev => isStateWrite st (fst ev) = false) d -> movedTo st d = [].
Proof.
  unfold movedTo. induction 1 as [|[c a] d Hc _ IH]; simpl; [reflexivity|].
  rewrite IH. destruct c; try reflexivity. destruct a; [reflexivity|].
  simpl in Hc. apply bool_decide_eq_false in Hc.
  destruct (decide (newNodeState = st)); [contradiction | reflexivity].
Qed.

Lemma movedTo_writes st (l : list Node) :
  movedTo st (map ok (map (fun n => CallChangeNodeUpgradeState n st) l)) = l.
Proof.
  induction l as [|n l IH]; simpl; [reflexivity|].
  destruct (decide (st = st)); [|contradiction]. simpl. f_equal. exact IH.
Qed.

Lemma not_cordonRequired_DoneOrUnknown cs name :
  name = UpgradeStateUnknown \/ name = UpgradeStateDone ->
  Forall (fun c => isStateWrite UpgradeStateCordonRequired c = false)
    (stepCalls (flat_map (ProcessDoneOrUnknownNodes_steps name) (nodesIn cs name))).
Proof.
  intros Hname. eapply (callFromSome_not_state cs [name]).
  - eapply callFromSome_intro;
      [left; reflexivity | apply callFrom_ProcessDoneOrUnknownNodes; exact Hname].
  - intros X [<- | []].
    destruct Hname as [-> | ->]; simpl; intuition discriminate.
Qed.

Lemma not_cordonRequired_after cs pol h :
  Forall (fun c => isStateWrite UpgradeStateCordonRequired c = false)
    (stepCalls (flat_map ProcessCordonRequiredNodes_steps
                  (nodesIn cs UpgradeStateCordonRequired) ++
                stepsAfterCordon cs pol h)).
Proof.
  rewrite stepCalls_app. apply Forall_app. split.
  - eapply (callFromSome_not_state cs [UpgradeStateCordonRequired]).
    + eapply callFromSome_intro;
        [left; reflexivity | apply callFrom_ProcessCordonRequiredNodes].
    + intros X [<- | []]. simpl. intuition discriminate.
  - eapply callFromSome_not_state; [apply callFrom_stepsAfterCordon|].
    intros X HX. simpl in HX.
    repeat (destruct HX as [<- | HX]; [simpl; intuition discriminate|]).
    contradiction.
Qed.

Lemma eligible_length l : (length (eligible l) <= length l)%nat.
Proof. unfold eligible. rewrite length_map. apply filter_length_le. Qed.

Lemma snapshotFits_upgradeRequired cs :
  snapshotFits cs ->
  GoInt.len (nodesIn cs UpgradeStateUpgradeRequired) <= GoInt.max_int.
Proof.
  unfold snapshotFits, countNodes, allPhases, GoInt.len. simpl flat_map.
  rewrite !length_app. lia.
Qed.

Lemma movedTo_ok_none st (l : list Call) :
  Forall (fun c => isStateWrite st c = false) l -> movedTo st (map ok l) = [].
Proof.
  intros HF. apply movedTo_none.
  induction HF as [|c l Hc _ IH]; simpl; constructor; auto.
Qed.

Lemma movedBy_none st c a : isStateWrite st c = false -> movedBy st (c, a) = [].
Proof.
  intros Hc. destruct c; try reflexivity. destruct a; [reflexivity|].
  simpl in *. apply bool_decide_eq_false in Hc.
  destruct (decide (newNodeState = st)); [contradiction | reflexivity].
Qed.

Lemma movedBy_error st c e : movedBy st (c, Some e) = [].
Proof. destruct c; reflexivity. Qed.

(** The nodes moved to [st] so far are the first nodes the script moves to
    [st], as long as no write of [st] has its error dropped. *)
Lemma Ran_movedTo_prefix st s h d r h' :
  Ran s h d r h' ->
  Forall (fun c => isStateWrite st c = false) (tryCalls s) ->
  movedTo st d `prefix_of` movedTo st (map ok (stepCalls s)).
Proof.
  unfold movedTo.
  induction 1; cbn [stepCalls tryCalls map flat_map]; intros Ht.
  - reflexivity.
  - apply prefix_app. auto.
  - rewrite movedBy_error. apply prefix_nil.
  - inversion Ht as [|c' l' Hc Ht']; subst.
    unfold ok at 1. rewrite !(movedBy_none st c) by exact Hc. simpl. auto.
  - apply prefix_nil.
  - auto.
Qed.

Lemma Ran_ok_dos_moved st s h d h' :
  Ran s h d (inr tt) h' ->
  Forall (fun c => isStateWrite st c = false) (tryCalls s) ->
  movedTo st d = movedTo st (map ok (stepCalls s)).
Proof.
  unfold movedTo. remember (inr tt) as r eqn:Hr.
  induction 1; cbn [stepCalls tryCalls map flat_map]; intros Ht;
    try discriminate; try reflexivity; auto.
  - rewrite IHRan by assumption. reflexivity.
  - inversion Ht as [|c' l' Hc Ht']; subst.
    unfold ok at 1. rewrite !(movedBy_none st c) by exact Hc. simpl. auto.
Qed.

Lemma not_cordonRequired_tryCalls cs pol h :
  Forall (fun c => isStateWrite UpgradeStateCordonRequired c = false)
    (tryCalls (ApplyState_steps cs pol h)).
Proof.
  rewrite ApplyState_steps_cordon, tryCalls_app, tryCalls_stepsBeforeCordon.
  simpl. pose proof (not_cordonRequired_after cs pol h) as HF.
  rewrite List.Forall_forall in *. intros c Hc. apply HF, tryCalls_incl, Hc.
Qed.

(** With no limit, the script of a pass moves to CordonRequired exactly the
    eligible UpgradeRequired nodes. *)
Lemma ApplyState_steps_unlimited cs pol h :
  snapshotFits cs -> MaxParallelUpgrades pol = 0 ->
  movedTo UpgradeStateCordonRequired (map ok (stepCalls (ApplyState_steps cs pol h)))
  = eligible (nodesIn cs UpgradeStateUpgradeRequired).
Proof.
  intros Hfit HN0. rewrite ApplyState_steps_cordon. unfold stepsBeforeCordon.
  rewrite <- !app_assoc, !stepCalls_app, !map_ok_app, !movedTo_app.
  rewrite (movedTo_ok_none _ _
             (not_cordonRequired_DoneOrUnknown cs _ (or_introl eq_refl))).
  rewrite (movedTo_ok_none _ _
             (not_cordonRequired_DoneOrUnknown cs _ (or_intror eq_refl))).
  pose proof (not_cordonRequired_after cs pol h) as Hafter.
  rewrite stepCalls_app in Hafter. apply Forall_app in Hafter as [HaC HaR].
  rewrite (movedTo_ok_none _ _ HaC), (movedTo_ok_none _ _ HaR).
  rewrite ProcessUpgradeRequiredNodes_steps_all.
  - simpl. rewrite app_nil_r. apply movedTo_writes.
  - unfold upgradesAvailable. rewrite HN0. simpl.
    pose proof (snapshotFits_upgradeRequired cs Hfit).
    pose proof (eligible_length (nodesIn cs UpgradeStateUpgradeRequired)).
    unfold GoInt.len in *. lia.
Qed.

(** C1: for a snapshot of fewer than 2^63 nodes and a limit N (an [int])
    for which N minus the in-progress count does not underflow,
    [upgradesInProgress] is the number of nodes in the seven in-progress
    phases; with N other than 0 a pass issues at most max(N - in progress, 0)
    writes of CordonRequired; with N = 0 the nodes a pass has moved to
    CordonRequired are the first of the UpgradeRequired nodes without the
    skip label, and all of them when the pass returns nil. *)
Theorem C1_parallel_upgrade_limit :
  forall (cs : ClusterUpgradeState) (pol : DriverUpgradePolicySpec) (w : World),
    AutoUpgrade pol = true ->
    snapshotFits cs ->
    GoInt.in_range (MaxParallelUpgrades pol) ->
    GoInt.min_int <= MaxParallelUpgrades pol - countNodes cs inProgressPhases ->
    upgradesInProgress cs = countNodes cs inProgressPhases /\
    exists d,
      calls (snd (ApplyState (Some cs) (Some pol) w)) = calls w ++ d /\
      (MaxParallelUpgrades pol <> 0 ->
       Z.of_nat (length (List.filter
                           (fun ev => isStateWrite UpgradeStateCordonRequired (fst ev))
                           d))
       <= Z.max (MaxParallelUpgrades pol - countNodes cs inProgressPhases) 0) /\
      (MaxParallelUpgrades pol = 0 ->
       movedTo UpgradeStateCordonRequired d
         `prefix_of` eligible (nodesIn cs UpgradeStateUpgradeRequired) /\
       (fst (ApplyState (Some cs) (Some pol) w) = inr tt ->
        movedTo UpgradeStateCordonRequired d =
        eligible (nodesIn cs UpgradeStateUpgradeRequired))).
Proof.
  intros cs pol w Hauto Hfit HN Hunder.
  pose proof (upgradesInProgress_count cs Hfit) as Hcount.
  split; [exact Hcount|].
  destruct (ApplyState_Ran cs pol w Hauto) as (d & Hd & HR).
  exists d. split; [exact Hd|].
  split.
  - intros HN0.
    rewrite ApplyState_steps_cordon in HR. unfold stepsBeforeCordon in HR.
    rewrite <- !app_assoc in HR.
    assert (Hlimit : upgradesAvailable cs pol =
                     MaxParallelUpgrades pol - countNodes cs inProgressPhases).
    { unfold upgradesAvailable. destruct (Z.eqb_spec (MaxParallelUpgrades pol) 0);
        [contradiction|].
      unfold GoInt.sub. rewrite Hcount. apply GoInt_wrap_in_range.
      unfold GoInt.in_range, countNodes in *. lia. }
    rewrite filter_map_fst.
    destruct (Ran_prefix _ _ _ _ _ HR) as [k Hk].
    assert (Hle : (length (List.filter (isStateWrite UpgradeStateCordonRequired)
                             (map fst d)) <=
                   length (List.filter (isStateWrite UpgradeStateCordonRequired)
                             (map fst d ++ k)))%nat).
    { rewrite List.filter_app, length_app. lia. }
    rewrite <- Hk in Hle. rewrite !stepCalls_app, !List.filter_app, !length_app in Hle.
    rewrite (filter_none _ _ (not_cordonRequired_DoneOrUnknown cs _ (or_introl eq_refl)))
      in Hle.
    rewrite (filter_none _ _ (not_cordonRequired_DoneOrUnknown cs _ (or_intror eq_refl)))
      in Hle.
    pose proof (not_cordonRequired_after cs pol (drainSpecs w)) as Hafter.
    rewrite stepCalls_app in Hafter. apply Forall_app in Hafter as [HaC HaR].
    rewrite (filter_none _ _ HaC), (filter_none _ _ HaR) in Hle. simpl in Hle.
    pose proof (filter_length_le (isStateWrite UpgradeStateCordonRequired)
                  (stepCalls (ProcessUpgradeRequiredNodes_steps
                                (nodesIn cs UpgradeStateUpgradeRequired)
                                (upgradesAvailable cs pol)))) as Hf.
    pose proof (ProcessUpgradeRequiredNodes_steps_bound
                  (nodesIn cs UpgradeStateUpgradeRequired)
                  (upgradesAvailable cs pol)) as Hb.
    rewrite Hlimit in *.
    assert (Hmax : MaxParallelUpgrades pol - countNodes cs inProgressPhases
                   <= GoInt.max_int).
    { unfold GoInt.in_range, countNodes in *. lia. }
    specialize (Hb Hmax). lia.
  - intros HN0.
    pose proof (Ran_movedTo_prefix UpgradeStateCordonRequired _ _ _ _ _ HR
                  (not_cordonRequired_tryCalls cs pol (drainSpecs w))) as Hpre.
    rewrite (ApplyState_steps_unlimited cs pol _ Hfit HN0) in Hpre.
    split; [exact Hpre|].
    intros Hok. rewrite Hok in HR.
    pose proof (Ran_ok_dos_moved UpgradeStateCordonRequired _ _ _ _ HR
                  (not_cordonRequired_tryCalls cs pol (drainSpecs w))) as Heq.
    rewrite (ApplyState_steps_unlimited cs pol _ Hfit HN0) in Heq. exact Heq.
Qed.

(** ** Drain enabled: the selector of the policy object grows *)

Lemma augmentedSelector_withCopies s : augmentedSelector s = withCopies s 1.
Proof. destruct s; reflexivity. Qed.

Lemma withCopies_shift s n :
  withCopies (augmentedSelector s) n = withCopies s (S n).
Proof.
  induction n as [|n IH].
  - apply augmentedSelector_withCopies.
  - change (withCopies (augmentedSelector s) (S n))
      with (match withCopies (augmentedSelector s) n with
            | EmptyString => skipDrainPodSelector
            | s' => s' +:+ "," +:+ skipDrainPodSelector
            end).
    rewrite IH. reflexivity.
Qed.

(** One run of the drain processor with drain enabled: the spec at [p] is
    overwritten, then the Drain Manager is called once with it. *)
Lemma ProcessDrainNodes_enabled cs p w :
  DrainSpec_Enable (drainSpecs w p) = true ->
  snd (ProcessDrainNodes cs (Some p) w) =
  {| calls :=
       calls w ++
       [(CallScheduleNodesDrain
           {| DrainConfiguration_Spec := p;
              DrainConfiguration_Nodes :=
                map Node_ (nodesIn cs UpgradeStateDrainRequired) |}
           (augmentedSpec (drainSpecs w p)),
         collaborators (calls w)
           (CallScheduleNodesDrain
              {| DrainConfiguration_Spec := p;
                 DrainConfiguration_Nodes :=
                   map Node_ (nodesIn cs UpgradeStateDrainRequired) |}
              (augmentedSpec (drainSpecs w p))))];
     drainSpecs := updateSpec (drainSpecs w) p (augmentedSpec (drainSpecs w p)) |}.
Proof.
  intros Hen. rewrite ProcessDrainNodes_script. unfold ProcessDrainNodes_steps.
  rewrite Hen. simpl. unfold bind, writeDrainSpec, call, ret. simpl.
  destruct (collaborators _ _); reflexivity.
Qed.

Lemma updateSpec_same h p d : updateSpec h p d p = d.
Proof. unfold updateSpec. destruct (decide (p = p)); [reflexivity | contradiction]. Qed.

Lemma updateSpec_other h p d q : q <> p -> updateSpec h p d q = h q.
Proof.
  intros Hne. unfold updateSpec. destruct (decide (q = p)); [contradiction | reflexivity].
Qed.

Lemma drainSelectors_app d1 d2 :
  drainSelectors (d1 ++ d2) = drainSelectors d1 ++ drainSelectors d2.
Proof. unfold drainSelectors. apply flat_map_app. Qed.

Lemma drainPasses_accumulate css p :
  forall w,
    DrainSpec_Enable (drainSpecs w p) = true ->
    DrainSpec_PodSelector (drainSpecs (drainPasses css p w) p) =
      withCopies (DrainSpec_PodSelector (drainSpecs w p)) (length css) /\
    DrainSpec_Enable (drainSpecs (drainPasses css p w) p) = true /\
    (forall q, q <> p -> drainSpecs (drainPasses css p w) q = drainSpecs w q) /\
    exists d,
      calls (drainPasses css p w) = calls w ++ d /\
      drainSelectors d =
      map (withCopies (DrainSpec_PodSelector (drainSpecs w p))) (seq 1 (length css)).
Proof.
  induction css as [|cs css IH]; intros w Hen.
  - simpl. repeat split; auto. exists []. rewrite app_nil_r. split; reflexivity.
  - cbn [drainPasses length]. rewrite (ProcessDrainNodes_enabled cs p w Hen).
    match goal with |- context [drainPasses css p ?w1] => set (w1' := w1) end.
    assert (Hen1 : DrainSpec_Enable (drainSpecs w1' p) = true).
    { unfold w1'. simpl. rewrite updateSpec_same. exact Hen. }
    assert (Hsel1 : DrainSpec_PodSelector (drainSpecs w1' p) =
                    augmentedSelector (DrainSpec_PodSelector (drainSpecs w p))).
    { unfold w1'. simpl. rewrite updateSpec_same. reflexivity. }
    destruct (IH w1' Hen1) as (Hsel & Hen' & Hframe & d & Hd & Hds).
    rewrite Hsel1 in Hsel, Hds. rewrite withCopies_shift in Hsel.
    split; [exact Hsel|]. split; [exact Hen'|]. split.
    + intros q Hq. rewrite (Hframe q Hq). unfold w1'. simpl.
      apply updateSpec_other. exact Hq.
    + assert (Hc1 : exists ev,
                 calls w1' = calls w ++ [ev] /\
                 drainSelectors [ev] =
                 [augmentedSelector (DrainSpec_PodSelector (drainSpecs w p))]).
      { eexists. split; reflexivity. }
      destruct Hc1 as (ev & Hc1 & Hs1).
      exists ([ev] ++ d). split.
      * rewrite Hd, Hc1, <- app_assoc. reflexivity.
      * assert (Htail :
            map (withCopies (augmentedSelector
                               (DrainSpec_PodSelector (drainSpecs w p))))
                (seq 1 (length css)) =
            map (withCopies (DrainSpec_PodSelector (drainSpecs w p)))
                (seq 2 (length css))).
        { rewrite <- (seq_shift (length css) 1), map_map.
          apply map_ext. intros k. apply withCopies_shift. }
        rewrite drainSelectors_app, Hds, Hs1, Htail, augmentedSelector_withCopies.
        reflexivity.
Qed.

(** C10: with drain enabled in the spec at address [p], every run of the
    drain processor with that address overwrites the selector of the spec,
    appending the skip-drain exclusion term (or installing it when the
    selector is empty) and leaving every other spec alone; after the runs
    for the snapshots of [css] the selector holds one copy of the term per
    run, and the selector handed to the Drain Manager in the k-th run holds
    k copies.  A pass of [ApplyState] that returns nil has appended one
    copy. *)
Theorem C10_drain_selector_accumulates :
  forall (css : list ClusterUpgradeState) (p : loc) (w : World),
    DrainSpec_Enable (drainSpecs w p) = true ->
    let selector := DrainSpec_PodSelector (drainSpecs w p) in
    (DrainSpec_PodSelector (drainSpecs (drainPasses css p w) p) =
       withCopies selector (length css) /\
     DrainSpec_Enable (drainSpecs (drainPasses css p w) p) = true /\
     (forall q, q <> p -> drainSpecs (drainPasses css p w) q = drainSpecs w q) /\
     exists d,
       calls (drainPasses css p w) = calls w ++ d /\
       drainSelectors d = map (withCopies selector) (seq 1 (length css))) /\
    (forall cs pol,
        AutoUpgrade pol = true -> DrainSpec_ pol = Some p ->
        fst (ApplyState (Some cs) (Some pol) w) = inr tt ->
        DrainSpec_PodSelector (drainSpecs (snd (ApplyState (Some cs) (Some pol) w)) p)
        = withCopies selector 1).
Proof.
  intros css p w Hen selector. split.
  - apply drainPasses_accumulate. exact Hen.
  - intros cs pol Hauto Hptr Hok.
    destruct (ApplyState_Ran cs pol w Hauto) as (d & _ & HR).
    rewrite Hok in HR. unfold ApplyState_steps in HR.
    apply Ran_app_ok in HR as (dB & d1 & h1 & _ & HB & HR).
    apply Ran_noSet in HB; [|apply noSet_ApplyState_stepsBefore]. subst h1.
    apply Ran_app_ok in HR as (dD & dA & h2 & _ & HD & HA).
    apply Ran_noSet in HA; [|apply noSet_ApplyState_stepsAfter].
    rewrite HA. clear HA.
    unfold ProcessDrainNodes_steps in HD. rewrite Hptr, Hen in HD. simpl in HD.
    inversion HD as [| | | | | l ds s h0 d0 r0 h0' HD1]; subst.
    inversion HD1 as [| c s h0 d0 r0 h0' HD2 | | | |]; subst.
    inversion HD2; subst.
    rewrite updateSpec_same. simpl. apply augmentedSelector_withCopies.
Qed.

(** * Further properties of the processors *)

(** ** The script of a pass, processor by processor *)

Lemma ApplyState_steps_stepsOf cs pol h :
  ApplyState_steps cs pol h = flat_map (stepsOf cs pol h) allPhases.
Proof.
  rewrite ApplyState_steps_flat. unfold allPhases. simpl flat_map.
  unfold stepsOf. rewrite app_nil_r. reflexivity.
Qed.

Lemma callFrom_stepsOf cs pol h X :
  Forall (callFrom cs X) (stepCalls (stepsOf cs pol h X)).
Proof.
  destruct X; simpl stepsOf.
  - apply callFrom_ProcessDoneOrUnknownNodes. auto.
  - apply callFrom_ProcessDoneOrUnknownNodes. auto.
  - apply callFrom_ProcessUpgradeRequiredNodes. auto.
  - apply callFrom_ProcessCordonRequiredNodes.
  - apply callFrom_ProcessWaitForJobsRequiredNodes.
  - apply callFrom_ProcessPodDeletionRequiredNodes.
  - apply callFrom_ProcessDrainNodes.
  - apply callFrom_ProcessPodRestartNodes.
  - apply callFrom_ProcessUpgradeFailedNodes.
  - apply callFrom_ProcessUncordonRequiredNodes.
Qed.

Lemma NoDup_allPhases : List.NoDup allPhases.
Proof.
  unfold allPhases.
  repeat (constructor; [simpl; intuition discriminate|]). constructor.
Qed.

Lemma In_allPhases X : In X allPhases.
Proof. unfold allPhases. destruct X; simpl; auto 12. Qed.

Lemma filter_flat_map_only {A : Type} `{EqDecision A} (p : Call -> bool)
    (g : A -> list Call) (Xs : list A) (X0 : A) :
  List.NoDup Xs -> In X0 Xs ->
  (forall X, X <> X0 -> List.filter p (g X) = []) ->
  List.filter p (flat_map g Xs) = List.filter p (g X0).
Proof.
  intros Hnd Hin Hnone. induction Hnd as [|X Xs Hnot Hnd IH]; [contradiction|].
  simpl. rewrite List.filter_app. destruct Hin as [-> | Hin].
  - assert (Hrest : List.filter p (flat_map g Xs) = []).
    { clear IH Hnd. induction Xs as [|Y Xs IHX]; simpl; [reflexivity|].
      rewrite List.filter_app.
      rewrite Hnone by (intros ->; apply Hnot; left; reflexivity).
      rewrite IHX by (intros HY; apply Hnot; right; exact HY).
      reflexivity. }
    rewrite Hrest, app_nil_r. reflexivity.
  - rewrite Hnone by (intros ->; contradiction).
    rewrite IH by exact Hin. reflexivity.
Qed.

(** A kind of call that only the processor of [X0] makes is, within the
    script of a pass, found in the steps of that processor only. *)
Lemma filter_stepCalls_only cs pol h (p : Call -> bool) X0 :
  (forall X c, callFrom cs X c -> p c = true -> X = X0) ->
  List.filter p (stepCalls (ApplyState_steps cs pol h)) =
  List.filter p (stepCalls (stepsOf cs pol h X0)).
Proof.
  intros Honly. rewrite ApplyState_steps_stepsOf, stepCalls_flat_map.
  apply (filter_flat_map_only p (fun X => stepCalls (stepsOf cs pol h X)));
    [apply NoDup_allPhases | apply In_allPhases |].
  intros X HX. apply filter_none.
  eapply List.Forall_impl; [|apply callFrom_stepsOf].
  intros c Hc. destruct (p c) eqn:Hp; [|reflexivity].
  exfalso. apply HX. eapply Honly; eauto.
Qed.

Lemma In_filter_prefix (p : Call -> bool) (l k : list Call) c :
  l `prefix_of` k -> In c l -> p c = true -> In c (List.filter p k).
Proof.
  intros [t ->] Hin Hp. apply filter_In. split; [|exact Hp].
  apply in_or_app. left. exact Hin.
Qed.

Lemma filter_prefix_length (p : Call -> bool) (l k : list Call) :
  l `prefix_of` k ->
  (length (List.filter p l) <= length (List.filter p k))%nat.
Proof. intros [t ->]. rewrite List.filter_app, length_app. lia. Qed.

(** The calls of one kind logged by a pass are calls of the processor that
    makes them, and there are no more of them than in its steps. *)
Lemma ApplyState_calls_of_kind cs pol h d r h' (p : Call -> bool) X0 :
  Ran (ApplyState_steps cs pol h) h d r h' ->
  (forall X c, callFrom cs X c -> p c = true -> X = X0) ->
  (forall c a, In (c, a) d -> p c = true ->
               In c (stepCalls (stepsOf cs pol h X0))) /\
  (length (List.filter (fun ev => p (fst ev)) d) <=
   length (List.filter p (stepCalls (stepsOf cs pol h X0))))%nat.
Proof.
  intros HR Honly. pose proof (Ran_prefix _ _ _ _ _ HR) as Hpre. split.
  - intros c a Hin Hp.
    assert (Hc : In c (List.filter p (stepCalls (ApplyState_steps cs pol h)))).
    { eapply In_filter_prefix; [exact Hpre | | exact Hp].
      change c with (fst (c, a)). apply in_map. exact Hin. }
    rewrite (filter_stepCalls_only cs pol h p X0 Honly) in Hc.
    apply filter_In in Hc as [Hc _]. exact Hc.
  - rewrite filter_map_fst.
    rewrite <- (filter_stepCalls_only cs pol h p X0 Honly).
    apply filter_prefix_length. exact Hpre.
Qed.

(** ** The transitions of a pass *)

Lemma annotationWriteOk_DoneOrUnknown cs name :
  name = UpgradeStateUnknown \/ name = UpgradeStateDone ->
  Forall (annotationWriteOk cs)
    (stepCalls (flat_map (ProcessDoneOrUnknownNodes_steps name) (nodesIn cs name))).
Proof.
  intros Hname. apply Forall_stepCalls_flat_map. intros ns Hns.
  apply In_nodesOf in Hns.
  assert (Hin : In (Node_ ns) (nodesOf cs UpgradeStateUnknown) \/
                In (Node_ ns) (nodesOf cs UpgradeStateDone)).
  { destruct Hname as [-> | ->]; auto. }
  unfold ProcessDoneOrUnknownNodes_steps, isNodeUnschedulable.
  destruct (GetPodTemplateGeneration _); [constructor|].
  destruct (negb _).
  - destruct (Node_Spec_Unschedulable (Node_ ns)) eqn:Hu; simpl;
      repeat (constructor; simpl; auto).
  - destruct (decide _); simpl; repeat (constructor; simpl; auto).
Qed.

Lemma annotationWriteOk_InSync cs X ns :
  X = UpgradeStatePodRestartRequired \/ X = UpgradeStateFailed ->
  In ns (nodesIn cs X) ->
  Forall (annotationWriteOk cs) (stepCalls (ProcessUpgradeFailedNodes_steps ns)).
Proof.
  intros HX Hns. apply In_nodesOf in Hns.
  assert (Hin : In (Node_ ns) (nodesOf cs UpgradeStatePodRestartRequired) \/
                In (Node_ ns) (nodesOf cs UpgradeStateFailed)).
  { destruct HX as [-> | ->]; auto. }
  unfold ProcessUpgradeFailedNodes_steps, driverPodInSync_steps.
  destruct (isDriverPodInSync ns) as [e|[|]]; try (simpl; constructor; fail).
  destruct (decide _) as [Hsome|Hnone]; simpl.
  - constructor; [exact I|]. constructor; [|constructor].
    simpl. split; [reflexivity|]. right. auto.
  - constructor; [exact I | constructor].
Qed.

Lemma annotationWriteOk_stepsOf cs pol h X :
  Forall (annotationWriteOk cs) (stepCalls (stepsOf cs pol h X)).
Proof.
  destruct X; simpl stepsOf.
  - apply annotationWriteOk_DoneOrUnknown. auto.
  - apply annotationWriteOk_DoneOrUnknown. auto.
  - apply List.Forall_forall. intros c Hc.
    destruct c; simpl; auto. exfalso.
    revert Hc. generalize (upgradesAvailable cs pol).
    induction (nodesIn cs UpgradeStateUpgradeRequired) as [|ns l IH];
      intros limit; simpl; [auto|].
    destruct (limit <=? 0); [simpl; auto|].
    destruct (skipNodeUpgrade _); [apply IH|].
    simpl. intros [H | H]; [discriminate | eapply IH; eauto].
  - apply Forall_stepCalls_flat_map. intros ns _. simpl.
    repeat (constructor; simpl; auto).
  - unfold ProcessWaitForJobsRequiredNodes_steps.
    assert (Htry : forall l : list NodeUpgradeState,
               Forall (annotationWriteOk cs)
                 (stepCalls (map (fun ns => Try (CallChangeNodeUpgradeState (Node_ ns)
                                                   UpgradeStatePodDeletionRequired)) l))).
    { induction l; simpl; constructor; simpl; auto. }
    destruct (WaitForCompletion pol) as [spec|]; [|apply Htry].
    destruct (String.eqb _ _); [apply Htry|].
    destruct (_ =? 0); simpl; repeat (constructor; simpl; auto).
  - unfold ProcessPodDeletionRequiredNodes_steps.
    destruct (_ =? 0); simpl; repeat (constructor; simpl; auto).
  - unfold ProcessDrainNodes_steps, drainDisabled_steps.
    assert (Hdis : forall l : list NodeUpgradeState,
               Forall (annotationWriteOk cs)
                 (stepCalls (map (fun ns => Do (CallChangeNodeUpgradeState (Node_ ns)
                                                  UpgradeStatePodRestartRequired)) l))).
    { induction l; simpl; constructor; simpl; auto. }
    destruct (DrainSpec_ pol) as [p|]; [|apply Hdis].
    destruct (negb _); [apply Hdis|]. simpl. repeat (constructor; simpl; auto).
  - rewrite stepCalls_app. apply Forall_app. split;
      [|simpl; repeat (constructor; simpl; auto)].
    apply Forall_stepCalls_flat_map. intros ns Hns.
    unfold ProcessPodRestartNodes_steps.
    destruct (GetPodTemplateGeneration _); [constructor|].
    destruct (negb _); [constructor|].
    apply (annotationWriteOk_InSync cs UpgradeStatePodRestartRequired); auto.
  - apply Forall_stepCalls_flat_map. intros ns Hns.
    apply (annotationWriteOk_InSync cs UpgradeStateFailed); auto.
  - apply Forall_stepCalls_flat_map. intros ns _. simpl.
    repeat (constructor; simpl; auto).
Qed.

Lemma annotationWriteOk_ApplyState_steps cs pol h :
  Forall (annotationWriteOk cs) (stepCalls (ApplyState_steps cs pol h)).
Proof.
  rewrite ApplyState_steps_stepsOf, stepCalls_flat_map.
  induction allPhases as [|X Xs IH]; simpl; [constructor|].
  apply Forall_app. split; [apply annotationWriteOk_stepsOf | exact IH].
Qed.

(** X1: every phase write a pass issues is a transition of the table: it
    targets a node of some list of the snapshot and sets one of the phases
    that the processor of that list can set (Unknown to UpgradeRequired or
    Done, Done to UpgradeRequired, UpgradeRequired to CordonRequired,
    CordonRequired to WaitForJobsRequired, WaitForJobsRequired to
    PodDeletionRequired, DrainRequired to PodRestartRequired,
    PodRestartRequired and Failed to UncordonRequired or Done,
    UncordonRequired to Done; none from PodDeletionRequired). *)
Theorem X1_phase_writes_follow_table :
  forall (cs : ClusterUpgradeState) (pol : DriverUpgradePolicySpec) (w : World),
    AutoUpgrade pol = true ->
    exists d,
      calls (snd (ApplyState (Some cs) (Some pol) w)) = calls w ++ d /\
      (forall n st a,
          In (CallChangeNodeUpgradeState n st, a) d ->
          exists X, In n (nodesOf cs X) /\ In st (exitPhases X)).
Proof.
  intros cs pol w Hauto.
  destruct (ApplyState_Ran cs pol w Hauto) as (d & Hd & HR).
  exists d. split; [exact Hd|].
  intros n st a Hin.
  pose proof (ApplyState_callFrom _ _ _ _ _ _ HR) as HF.
  rewrite List.Forall_forall in HF. specialize (HF _ Hin).
  destruct HF as (X & _ & Hn & Hst & _). exists X. split; assumption.
Qed.

(** X2: the preservation annotation is the only annotation a pass writes;
    it is written as "true" only for an unschedulable node of the Unknown or
    Done list, and as "null" only for a node of the PodRestartRequired or
    Failed list that carries it. *)
Theorem X2_annotation_writes :
  forall (cs : ClusterUpgradeState) (pol : DriverUpgradePolicySpec) (w : World),
    AutoUpgrade pol = true ->
    exists d,
      calls (snd (ApplyState (Some cs) (Some pol) w)) = calls w ++ d /\
      Forall (fun ev => annotationWriteOk cs (fst ev)) d.
Proof.
  intros cs pol w Hauto.
  destruct (ApplyState_Ran cs pol w Hauto) as (d & Hd & HR).
  exists d. split; [exact Hd|].
  eapply Ran_Forall; [exact HR | apply annotationWriteOk_ApplyState_steps].
Qed.

(** ** One phase write per unit *)

Lemma writeTargets_app l1 l2 :
  writeTargets (l1 ++ l2) = writeTargets l1 ++ writeTargets l2.
Proof. unfold writeTargets. apply flat_map_app. Qed.

Lemma writeTargets_flat_map (f : NodeUpgradeState -> list Step) l :
  (forall ns, writeTargets (stepCalls (f ns)) `sublist_of` [Node_ ns]) ->
  writeTargets (stepCalls (flat_map f l)) `sublist_of` map Node_ l.
Proof.
  intros Hf. induction l as [|ns l IH]; simpl; [reflexivity|].
  rewrite stepCalls_app, writeTargets_app.
  apply (sublist_app _ [Node_ ns]); [apply Hf | exact IH].
Qed.

Lemma writeTargets_InSync ns :
  writeTargets (stepCalls (ProcessUpgradeFailedNodes_steps ns))
    `sublist_of` [Node_ ns].
Proof.
  unfold ProcessUpgradeFailedNodes_steps, driverPodInSync_steps.
  destruct (isDriverPodInSync ns) as [e|[|]]; try apply sublist_nil_l.
  destruct (decide _); reflexivity.
Qed.

Lemma writeTargets_stepsOf cs pol h X :
  writeTargets (stepCalls (stepsOf cs pol h X)) `sublist_of` nodesOf cs X.
Proof.
  unfold nodesOf. destruct X; simpl stepsOf.
  - apply writeTargets_flat_map. intros ns.
    unfold ProcessDoneOrUnknownNodes_steps.
    destruct (GetPodTemplateGeneration _); [apply sublist_nil_l|].
    destruct (negb _); [destruct (isNodeUnschedulable _); reflexivity|].
    destruct (decide _); [reflexivity | apply sublist_nil_l].
  - apply writeTargets_flat_map. intros ns.
    unfold ProcessDoneOrUnknownNodes_steps.
    destruct (GetPodTemplateGeneration _); [apply sublist_nil_l|].
    destruct (negb _); [destruct (isNodeUnschedulable _); reflexivity|].
    destruct (decide _); [reflexivity | apply sublist_nil_l].
  - generalize (upgradesAvailable cs pol).
    induction (nodesIn cs UpgradeStateUpgradeRequired) as [|ns l IH];
      intros limit; simpl; [reflexivity|].
    destruct (limit <=? 0); [apply sublist_nil_l|].
    destruct (skipNodeUpgrade _); [apply sublist_cons, IH|].
    simpl. apply sublist_skip, IH.
  - apply writeTargets_flat_map. intros ns. reflexivity.
  - unfold ProcessWaitForJobsRequiredNodes_steps.
    assert (Htry : forall l : list NodeUpgradeState,
               writeTargets
                 (stepCalls (map (fun ns => Try (CallChangeNodeUpgradeState (Node_ ns)
                                                   UpgradeStatePodDeletionRequired)) l))
               `sublist_of` map Node_ l).
    { induction l; simpl; [reflexivity | apply sublist_skip; assumption]. }
    destruct (WaitForCompletion pol) as [spec|]; [|apply Htry].
    destruct (String.eqb _ _); [apply Htry|].
    destruct (_ =? 0); apply sublist_nil_l.
  - unfold ProcessPodDeletionRequiredNodes_steps.
    destruct (_ =? 0); apply sublist_nil_l.
  - unfold ProcessDrainNodes_steps, drainDisabled_steps.
    assert (Hdis : forall l : list NodeUpgradeState,
               writeTargets
                 (stepCalls (map (fun ns => Do (CallChangeNodeUpgradeState (Node_ ns)
                                                  UpgradeStatePodRestartRequired)) l))
               `sublist_of` map Node_ l).
    { induction l; simpl; [reflexivity | apply sublist_skip; assumption]. }
    destruct (DrainSpec_ pol) as [p|]; [|apply Hdis].
    destruct (negb _); [apply Hdis | apply sublist_nil_l].
  - rewrite stepCalls_app, writeTargets_app. simpl. rewrite app_nil_r.
    apply writeTargets_flat_map. intros ns.
    unfold ProcessPodRestartNodes_steps.
    destruct (GetPodTemplateGeneration _); [apply sublist_nil_l|].
    destruct (negb _); [apply sublist_nil_l | apply writeTargets_InSync].
  - apply writeTargets_flat_map, writeTargets_InSync.
  - apply writeTargets_flat_map. intros ns. reflexivity.
Qed.

Lemma writeTargets_ApplyState_steps cs pol h :
  writeTargets (stepCalls (ApplyState_steps cs pol h))
    `sublist_of` flat_map (nodesOf cs) allPhases.
Proof.
  rewrite ApplyState_steps_stepsOf, stepCalls_flat_map.
  induction allPhases as [|X Xs IH]; simpl; [reflexivity|].
  rewrite writeTargets_app. apply sublist_app; [apply writeTargets_stepsOf | exact IH].
Qed.

(** X3: the targets of the phase writes of a pass, in the order of the
    writes, are a sub-sequence of the units of the snapshot taken list by
    list in the order of processing: each occurrence of a unit in the
    snapshot receives at most one phase write, so in a snapshot that holds
    no node twice no node has its phase written twice in one pass. *)
Theorem X3_one_phase_write_per_unit :
  forall (cs : ClusterUpgradeState) (pol : DriverUpgradePolicySpec) (w : World),
    AutoUpgrade pol = true ->
    exists d,
      calls (snd (ApplyState (Some cs) (Some pol) w)) = calls w ++ d /\
      writeTargets (map fst d) `sublist_of` flat_map (nodesOf cs) allPhases /\
      (List.NoDup (flat_map (nodesOf cs) allPhases) ->
       List.NoDup (writeTargets (map fst d))).
Proof.
  intros cs pol w Hauto.
  destruct (ApplyState_Ran cs pol w Hauto) as (d & Hd & HR).
  exists d. split; [exact Hd|].
  assert (Hsub : writeTargets (map fst d)
                   `sublist_of` flat_map (nodesOf cs) allPhases).
  { destruct (Ran_prefix _ _ _ _ _ HR) as [k Hk].
    etransitivity; [|apply (writeTargets_ApplyState_steps cs pol (drainSpecs w))].
    rewrite Hk, writeTargets_app. apply sublist_inserts_r. reflexivity. }
  split; [exact Hsub|].
  intros Hnd. apply NoDup_ListNoDup. apply NoDup_ListNoDup in Hnd.
  eapply sublist_NoDup; eauto.
Qed.

(** ** Where errors come from and where they go *)

Lemma Ran_error_origin s h d e h' :
  Ran s h d (inl e) h' ->
  (exists pre c, d = pre ++ [(c, Some e)]) \/ In (Abort e) s.
Proof.
  remember (inl e) as r eqn:Hr. induction 1; try discriminate.
  - destruct (IHRan Hr) as [(pre & c' & ->) | Hin].
    + left. exists ((c, None) :: pre), c'. reflexivity.
    + right. right. exact Hin.
  - injection Hr as ->. left. exists [], c. reflexivity.
  - destruct (IHRan Hr) as [(pre & c' & ->) | Hin].
    + left. exists ((c, a) :: pre), c'. reflexivity.
    + right. right. exact Hin.
  - injection Hr as ->. right. left. reflexivity.
  - destruct (IHRan Hr) as [Hl | Hin]; [left; exact Hl | right; right; exact Hin].
Qed.

Lemma isDriverPodInSync_error ns e :
  isDriverPodInSync ns = inl e -> GetPodTemplateGeneration (DriverPod ns) = inl e.
Proof.
  unfold isDriverPodInSync.
  destruct (GetPodTemplateGeneration (DriverPod ns)) as [e'|g]; [congruence|].
  destruct (_ && _); discriminate.
Qed.

Lemma Abort_ProcessUpgradeFailedNodes_steps ns e :
  In (Abort e) (ProcessUpgradeFailedNodes_steps ns) ->
  GetPodTemplateGeneration (DriverPod ns) = inl e.
Proof.
  unfold ProcessUpgradeFailedNodes_steps, driverPodInSync_steps.
  destruct (isDriverPodInSync ns) as [e'|[|]] eqn:Hsync; simpl.
  - intros [H | []]. injection H as ->. apply isDriverPodInSync_error, Hsync.
  - destruct (decide _); simpl; intuition discriminate.
  - contradiction.
Qed.

Lemma Abort_ProcessDoneOrUnknownNodes_steps name ns e :
  In (Abort e) (ProcessDoneOrUnknownNodes_steps name ns) ->
  GetPodTemplateGeneration (DriverPod ns) = inl e.
Proof.
  unfold ProcessDoneOrUnknownNodes_steps.
  destruct (GetPodTemplateGeneration (DriverPod ns)) as [e'|g]; simpl.
  - intros [H | []]. injection H as ->. reflexivity.
  - destruct (negb _).
    + destruct (isNodeUnschedulable _); simpl; intuition discriminate.
    + destruct (decide _); simpl; intuition discriminate.
Qed.

Lemma Abort_stepsOf cs pol h X e :
  In (Abort e) (stepsOf cs pol h X) -> generationError cs e.
Proof.
  destruct X; simpl stepsOf.
  - intros Hin. apply in_flat_map in Hin as (ns & Hns & Hin).
    exists UpgradeStateUnknown, ns. simpl. split; [auto|]. split; [exact Hns|].
    eapply Abort_ProcessDoneOrUnknownNodes_steps; eauto.
  - intros Hin. apply in_flat_map in Hin as (ns & Hns & Hin).
    exists UpgradeStateDone, ns. simpl. split; [auto|]. split; [exact Hns|].
    eapply Abort_ProcessDoneOrUnknownNodes_steps; eauto.
  - generalize (upgradesAvailable cs pol).
    induction (nodesIn cs UpgradeStateUpgradeRequired) as [|ns l IH];
      intros limit; simpl; [contradiction|].
    destruct (limit <=? 0); [contradiction|].
    destruct (skipNodeUpgrade _); [apply IH|].
    simpl. intros [H | H]; [discriminate | eapply IH; eauto].
  - intros Hin. apply in_flat_map in Hin as (ns & _ & Hin).
    simpl in Hin. intuition discriminate.
  - unfold ProcessWaitForJobsRequiredNodes_steps.
    destruct (WaitForCompletion pol) as [spec|].
    + destruct (String.eqb _ _).
      * intros Hin. apply in_map_iff in Hin as (ns & H & _). discriminate.
      * destruct (_ =? 0); simpl; intuition discriminate.
    + intros Hin. apply in_map_iff in Hin as (ns & H & _). discriminate.
  - unfold ProcessPodDeletionRequiredNodes_steps.
    destruct (_ =? 0); simpl; intuition discriminate.
  - unfold ProcessDrainNodes_steps, drainDisabled_steps.
    destruct (DrainSpec_ pol) as [p|].
    + destruct (negb _).
      * intros Hin. apply in_map_iff in Hin as (ns & H & _). discriminate.
      * simpl. intuition discriminate.
    + intros Hin. apply in_map_iff in Hin as (ns & H & _). discriminate.
  - intros Hin. apply in_app_or in Hin as [Hin | Hin];
      [|simpl in Hin; intuition discriminate].
    apply in_flat_map in Hin as (ns & Hns & Hin).
    exists UpgradeStatePodRestartRequired, ns. simpl.
    split; [auto|]. split; [exact Hns|].
    unfold ProcessPodRestartNodes_steps in Hin.
    destruct (GetPodTemplateGeneration (DriverPod ns)) as [e'|g] eqn:Hg.
    + destruct Hin as [H | []]. injection H as ->. reflexivity.
    + destruct (negb _); [contradiction|].
      apply Abort_ProcessUpgradeFailedNodes_steps in Hin. congruence.
  - intros Hin. apply in_flat_map in Hin as (ns & Hns & Hin).
    exists UpgradeStateFailed, ns. simpl. split; [auto 6|]. split; [exact Hns|].
    apply Abort_ProcessUpgradeFailedNodes_steps. exact Hin.
  - intros Hin. apply in_flat_map in Hin as (ns & _ & Hin).
    simpl in Hin. intuition discriminate.
Qed.

Lemma tryCalls_stepsOf cs pol h X :
  Forall isDroppedWrite (tryCalls (stepsOf cs pol h X)).
Proof.
  assert (Hnil : forall l : list Call, l = [] -> Forall isDroppedWrite l).
  { intros l ->. constructor. }
  destruct X; simpl stepsOf.
  - apply Hnil, tryCalls_flat_map, tryCalls_ProcessDoneOrUnknownNodes_steps.
  - apply Hnil, tryCalls_flat_map, tryCalls_ProcessDoneOrUnknownNodes_steps.
  - apply Hnil, tryCalls_ProcessUpgradeRequiredNodes_steps.
  - apply Hnil, tryCalls_flat_map. reflexivity.
  - unfold ProcessWaitForJobsRequiredNodes_steps.
    assert (Htry : forall l : list NodeUpgradeState,
               Forall isDroppedWrite
                 (tryCalls (map (fun ns => Try (CallChangeNodeUpgradeState (Node_ ns)
                                                  UpgradeStatePodDeletionRequired)) l))).
    { induction l; simpl; constructor; auto. eexists. reflexivity. }
    destruct (WaitForCompletion pol) as [spec|]; [|apply Htry].
    destruct (String.eqb _ _); [apply Htry|].
    destruct (_ =? 0); constructor.
  - apply Hnil. unfold ProcessPodDeletionRequiredNodes_steps.
    destruct (_ =? 0); reflexivity.
  - apply Hnil. unfold ProcessDrainNodes_steps.
    destruct (DrainSpec_ pol) as [p|]; [|apply tryCalls_drainDisabled_steps].
    destruct (negb _); [apply tryCalls_drainDisabled_steps | reflexivity].
  - apply Hnil, tryCalls_PodRestart.
  - apply Hnil, tryCalls_flat_map, tryCalls_ProcessUpgradeFailedNodes_steps.
  - apply Hnil, tryCalls_flat_map. reflexivity.
Qed.

Lemma tryCalls_dropped cs pol h :
  Forall isDroppedWrite (tryCalls (ApplyState_steps cs pol h)).
Proof.
  rewrite ApplyState_steps_stepsOf.
  induction allPhases as [|X Xs IH]; simpl; [constructor|].
  rewrite tryCalls_app. apply Forall_app. split; [apply tryCalls_stepsOf | exact IH].
Qed.

(** X4: in a pass, an error returned by any collaborator call other than a
    write of PodDeletionRequired ends the pass: the call is the last of the
    log and [ApplyState] returns that same error.  Conversely an error that
    [ApplyState] returns is either the one the last logged call returned, or
    the one that reading the pod template generation of a unit of the
    Unknown, Done, PodRestartRequired or Failed list gave. *)
Theorem X4_errors_are_returned_unchanged :
  forall (cs : ClusterUpgradeState) (pol : DriverUpgradePolicySpec) (w : World),
    AutoUpgrade pol = true ->
    exists d,
      calls (snd (ApplyState (Some cs) (Some pol) w)) = calls w ++ d /\
      (forall c e pre post,
          d = pre ++ (c, Some e) :: post -> ~ isDroppedWrite c ->
          post = [] /\ fst (ApplyState (Some cs) (Some pol) w) = inl e) /\
      (forall e,
          fst (ApplyState (Some cs) (Some pol) w) = inl e ->
          (exists pre c, d = pre ++ [(c, Some e)]) \/ generationError cs e).
Proof.
  intros cs pol w Hauto.
  destruct (ApplyState_Ran cs pol w Hauto) as (d & Hd & HR).
  exists d. split; [exact Hd|]. split.
  - intros c e pre post Hsplit Hnot.
    eapply Ran_error_last; [exact HR | exact Hsplit |].
    intros Hin. apply Hnot.
    pose proof (tryCalls_dropped cs pol (drainSpecs w)) as HF.
    rewrite List.Forall_forall in HF. apply HF, Hin.
  - intros e He. rewrite He in HR.
    destruct (Ran_error_origin _ _ _ _ _ HR) as [Hl | Hin]; [left; exact Hl|].
    right. rewrite ApplyState_steps_stepsOf in Hin.
    apply in_flat_map in Hin as (X & _ & Hin).
    eapply Abort_stepsOf; eauto.
Qed.

(** ** The scheduling calls of a pass *)

Lemma Ran_ok_calls s h d h' :
  Ran s h d (inr tt) h' -> map fst d = stepCalls s.
Proof.
  remember (inr tt) as r eqn:Hr. induction 1; try discriminate; simpl; auto.
  - rewrite IHRan by assumption. reflexivity.
  - rewrite IHRan by assumption. reflexivity.
Qed.

Lemma stepCalls_map_Try {A : Type} (f : A -> Call) (l : list A) :
  stepCalls (map (fun x => Try (f x)) l) = map f l.
Proof. induction l; simpl; congruence. Qed.

Lemma stepCalls_map_Do {A : Type} (f : A -> Call) (l : list A) :
  stepCalls (map (fun x => Do (f x)) l) = map f l.
Proof. induction l; simpl; congruence. Qed.

Lemma filter_none_map {A : Type} (p : Call -> bool) (f : A -> Call) (l : list A) :
  (forall x, p (f x) = false) -> List.filter p (map f l) = [].
Proof. intros Hp. induction l; simpl; [reflexivity|]. rewrite Hp. exact IHl. Qed.

(** The calls of one kind of a pass that returned nil are the calls of that
    kind among the steps of the processor that makes them. *)
Lemma ApplyState_calls_of_kind_ok cs pol h d h' (p : Call -> bool) X0 :
  Ran (ApplyState_steps cs pol h) h d (inr tt) h' ->
  (forall X c, callFrom cs X c -> p c = true -> X = X0) ->
  callsOfKind p d = List.filter p (stepCalls (stepsOf cs pol h X0)).
Proof.
  intros HR Honly. unfold callsOfKind.
  rewrite (Ran_ok_calls _ _ _ _ HR).
  apply filter_stepCalls_only. exact Honly.
Qed.

Lemma callFrom_isCompletionCheck cs X c :
  callFrom cs X c -> isCompletionCheck c = true -> X = UpgradeStateWaitForJobsRequired.
Proof. destruct c; simpl; try discriminate. auto. Qed.

Lemma callFrom_isEviction cs X c :
  callFrom cs X c -> isEviction c = true -> X = UpgradeStatePodDeletionRequired.
Proof. destruct c; simpl; try discriminate. auto. Qed.

Lemma callFrom_isPodsRestart cs X c :
  callFrom cs X c -> isPodsRestart c = true -> X = UpgradeStatePodRestartRequired.
Proof. destruct c; simpl; try discriminate. auto. Qed.

Lemma callFrom_isNodesDrain cs X c :
  callFrom cs X c -> isNodesDrain c = true -> X = UpgradeStateDrainRequired.
Proof. destruct c; simpl; try discriminate. auto. Qed.

Lemma callFrom_isCordon cs X c :
  callFrom cs X c -> isCordon c = true -> X = UpgradeStateCordonRequired.
Proof. destruct c; simpl; try discriminate. intuition. Qed.

Lemma callFrom_isUncordon cs X c :
  callFrom cs X c -> isUncordon c = true -> X = UpgradeStateUncordonRequired.
Proof. destruct c; simpl; try discriminate. intuition. Qed.

Lemma GoInt_len_nonzero {A : Type} (l : list A) : (GoInt.len l =? 0) = false -> l <> [].
Proof. intros H ->. discriminate. Qed.

(** The completion checks among the steps of the WaitForJobsRequired
    processor. *)
Lemma completionChecks_stepsOf cs pol h :
  List.filter isCompletionCheck
    (stepCalls (stepsOf cs pol h UpgradeStateWaitForJobsRequired)) =
  match WaitForCompletion pol with
  | Some spec =>
      if String.eqb (WaitForCompletionSpec_PodSelector spec) "" then []
      else if GoInt.len (nodesIn cs UpgradeStateWaitForJobsRequired) =? 0 then []
      else [completionCheckOf cs spec]
  | None => []
  end.
Proof.
  simpl stepsOf. unfold ProcessWaitForJobsRequiredNodes_steps.
  destruct (WaitForCompletion pol) as [spec|].
  - destruct (String.eqb _ _).
    + rewrite stepCalls_map_Try. apply filter_none_map. reflexivity.
    + destruct (_ =? 0); reflexivity.
  - rewrite stepCalls_map_Try. apply filter_none_map. reflexivity.
Qed.

Lemma evictions_stepsOf cs pol h :
  List.filter isEviction
    (stepCalls (stepsOf cs pol h UpgradeStatePodDeletionRequired)) =
  if GoInt.len (nodesIn cs UpgradeStatePodDeletionRequired) =? 0 then []
  else [evictionOf cs pol].
Proof.
  simpl stepsOf. unfold ProcessPodDeletionRequiredNodes_steps.
  destruct (_ =? 0); reflexivity.
Qed.

Lemma nodesOf_nil cs X : nodesOf cs X = [] <-> nodesIn cs X = [].
Proof.
  unfold nodesOf. split; [|intros ->; reflexivity].
  destruct (nodesIn cs X); [reflexivity | discriminate].
Qed.

(** X5: the two batch requests a pass sends to the Pod Manager.  A pass
    schedules at most one completion check: only when the policy gives a
    non-empty pod selector and the WaitForJobsRequired list is not empty, and
    then with that selector, no deletion spec and all the nodes of the list
    in order.  It schedules at most one eviction: only when the
    PodDeletionRequired list is not empty, and then with an empty selector,
    the policy's deletion spec and all the nodes of the list in order.  The
    eviction is scheduled in every pass that returns nil over a non-empty
    PodDeletionRequired list. *)
Theorem X5_pod_manager_batches :
  forall (cs : ClusterUpgradeState) (pol : DriverUpgradePolicySpec) (w : World),
    AutoUpgrade pol = true ->
    exists d,
      calls (snd (ApplyState (Some cs) (Some pol) w)) = calls w ++ d /\
      (length (callsOfKind isCompletionCheck d) <= 1)%nat /\
      (forall c, In c (callsOfKind isCompletionCheck d) ->
                 exists spec,
                   WaitForCompletion pol = Some spec /\
                   WaitForCompletionSpec_PodSelector spec <> "" /\
                   nodesOf cs UpgradeStateWaitForJobsRequired <> [] /\
                   c = completionCheckOf cs spec) /\
      (length (callsOfKind isEviction d) <= 1)%nat /\
      (forall c, In c (callsOfKind isEviction d) ->
                 nodesOf cs UpgradeStatePodDeletionRequired <> [] /\
                 c = evictionOf cs pol) /\
      (fst (ApplyState (Some cs) (Some pol) w) = inr tt ->
       nodesOf cs UpgradeStatePodDeletionRequired <> [] ->
       callsOfKind isEviction d = [evictionOf cs pol]).
Proof.
  intros cs pol w Hauto.
  destruct (ApplyState_Ran cs pol w Hauto) as (d & Hd & HR).
  exists d. split; [exact Hd|].
  destruct (ApplyState_calls_of_kind cs pol _ d _ _ isCompletionCheck _ HR
              (callFrom_isCompletionCheck cs)) as [HinC HlenC].
  destruct (ApplyState_calls_of_kind cs pol _ d _ _ isEviction _ HR
              (callFrom_isEviction cs)) as [HinE HlenE].
  rewrite filter_map_fst, completionChecks_stepsOf in HlenC.
  rewrite filter_map_fst, evictions_stepsOf in HlenE.
  assert (HfC : forall c, In c (callsOfKind isCompletionCheck d) ->
                  In c (List.filter isCompletionCheck
                          (stepCalls (stepsOf cs pol (drainSpecs w)
                                        UpgradeStateWaitForJobsRequired)))).
  { intros c Hc. apply filter_In in Hc as [Hin Hp].
    apply in_map_iff in Hin as ([c' a] & Heq & Hin). simpl in Heq. subst c'.
    apply filter_In. split; [eapply HinC; eassumption | assumption]. }
  assert (HfE : forall c, In c (callsOfKind isEviction d) ->
                  In c (List.filter isEviction
                          (stepCalls (stepsOf cs pol (drainSpecs w)
                                        UpgradeStatePodDeletionRequired)))).
  { intros c Hc. apply filter_In in Hc as [Hin Hp].
    apply in_map_iff in Hin as ([c' a] & Heq & Hin). simpl in Heq. subst c'.
    apply filter_In. split; [eapply HinE; eassumption | assumption]. }
  rewrite completionChecks_stepsOf in HfC. rewrite evictions_stepsOf in HfE.
  split; [|split; [|split; [|split]]].
  - unfold callsOfKind. etransitivity; [exact HlenC|].
    destruct (WaitForCompletion pol) as [spec|]; simpl; [|lia].
    destruct (String.eqb _ _); simpl; [lia|].
    destruct (GoInt.len (nodesIn cs UpgradeStateWaitForJobsRequired) =? 0);
      simpl; lia.
  - intros c Hc. apply HfC in Hc.
    destruct (WaitForCompletion pol) as [spec|]; [|contradiction].
    destruct (String.eqb _ _) eqn:Hsel; [contradiction|].
    destruct (GoInt.len (nodesIn cs UpgradeStateWaitForJobsRequired) =? 0) eqn:Hlen;
      [contradiction|].
    destruct Hc as [<- | []]. exists spec. repeat split.
    + intros Heq. rewrite Heq in Hsel. discriminate.
    + intros Hnil. apply nodesOf_nil in Hnil. rewrite Hnil in Hlen. discriminate.
  - unfold callsOfKind. etransitivity; [exact HlenE|].
    destruct (GoInt.len (nodesIn cs UpgradeStatePodDeletionRequired) =? 0);
      simpl; lia.
  - intros c Hc. apply HfE in Hc.
    destruct (GoInt.len (nodesIn cs UpgradeStatePodDeletionRequired) =? 0) eqn:Hlen;
      [contradiction|].
    destruct Hc as [<- | []]. split; [|reflexivity].
    intros Hnil. apply nodesOf_nil in Hnil. rewrite Hnil in Hlen. discriminate.
  - intros Hok Hne. rewrite Hok in HR.
    rewrite (ApplyState_calls_of_kind_ok cs pol _ d _ isEviction _ HR
               (callFrom_isEviction cs)).
    rewrite evictions_stepsOf.
    destruct (GoInt.len (nodesIn cs UpgradeStatePodDeletionRequired) =? 0) eqn:Hlen;
      [|reflexivity].
    exfalso. apply Hne. apply nodesOf_nil.
    unfold GoInt.len in Hlen. apply Z.eqb_eq in Hlen.
    destruct (nodesIn cs UpgradeStatePodDeletionRequired); [reflexivity|].
    simpl in Hlen. lia.
Qed.

(** ** WaitForJobsRequired nodes *)

Lemma Ran_tries {A : Type} (f : A -> Call) (l : list A) h d r h' :
  Ran (map (fun x => Try (f x)) l) h d r h' ->
  r = inr tt /\ map fst d = map f l /\ h' = h.
Proof.
  revert d. induction l as [|x l IH]; simpl; intros d HR.
  - inversion HR; subst. auto.
  - inversion HR; subst. destruct (IH _ H5) as (-> & Hd & ->).
    simpl. rewrite Hd. auto.
Qed.

(** X6: when the policy gives no wait-for-completion spec, or one with an
    empty pod selector, the WaitForJobsRequired processor writes
    PodDeletionRequired for every node of its list, in order, and returns
    nil whatever these writes returned: an error of such a write is dropped
    and the next node is still processed.  When a non-empty selector is
    given the processor writes no phase at all. *)
Theorem X6_wait_for_jobs_without_selector :
  forall (cs : ClusterUpgradeState) (spec : option WaitForCompletionSpec) (w : World),
    exists d,
      calls (snd (ProcessWaitForJobsRequiredNodes cs spec w)) = calls w ++ d /\
      (noWaitSelector spec = true ->
       fst (ProcessWaitForJobsRequiredNodes cs spec w) = inr tt /\
       map fst d =
       map (fun n => CallChangeNodeUpgradeState n UpgradeStatePodDeletionRequired)
           (nodesOf cs UpgradeStateWaitForJobsRequired)) /\
      (noWaitSelector spec = false -> writeTargets (map fst d) = []).
Proof.
  intros cs spec w. rewrite ProcessWaitForJobsRequiredNodes_script.
  destruct (runScript_Ran
              (ProcessWaitForJobsRequiredNodes_steps
                 (nodesIn cs UpgradeStateWaitForJobsRequired) spec) w)
    as (d & Hd & HR).
  exists d. split; [exact Hd|].
  unfold ProcessWaitForJobsRequiredNodes_steps, noWaitSelector in *. split.
  - intros Hno.
    assert (HR' : Ran (map (fun ns => Try (CallChangeNodeUpgradeState (Node_ ns)
                                             UpgradeStatePodDeletionRequired))
                           (nodesIn cs UpgradeStateWaitForJobsRequired))
                      (drainSpecs w) d
                      (fst (runScript
                              (ProcessWaitForJobsRequiredNodes_steps
                                 (nodesIn cs UpgradeStateWaitForJobsRequired) spec) w))
                      (drainSpecs
                         (snd (runScript
                                 (ProcessWaitForJobsRequiredNodes_steps
                                    (nodesIn cs UpgradeStateWaitForJobsRequired) spec)
                                 w)))).
    { unfold ProcessWaitForJobsRequiredNodes_steps.
      destruct spec as [s|]; [|exact HR]. rewrite Hno in HR |- *. exact HR. }
    apply (Ran_tries (fun ns => CallChangeNodeUpgradeState (Node_ ns)
                                  UpgradeStatePodDeletionRequired)) in HR'.
    destruct HR' as (Hr & Hcalls & _). split; [exact Hr|].
    rewrite Hcalls. unfold nodesOf. rewrite map_map. reflexivity.
  - intros Hsel. destruct spec as [s|]; [|discriminate]. rewrite Hsel in HR.
    apply Ran_prefix in HR. destruct HR as [k Hk].
    destruct (GoInt.len (nodesIn cs UpgradeStateWaitForJobsRequired) =? 0);
      simpl in Hk.
    + symmetry in Hk. apply app_eq_nil in Hk as [-> _]. reflexivity.
    + destruct (map fst d) as [|c [|c' l']]; [reflexivity| |discriminate].
      injection Hk as <- _. reflexivity.
Qed.

(** ** The pods handed to the Pod Manager for restart *)

Lemma ProcessPodRestartNodes_pods_spec ns pod :
  In pod (ProcessPodRestartNodes_pods ns) <-> pod = DriverPod ns /\ needsRestart ns.
Proof.
  unfold ProcessPodRestartNodes_pods, needsRestart.
  destruct (GetPodTemplateGeneration (DriverPod ns)) as [e|g].
  { split; [contradiction | intros (_ & g & H & _); discriminate]. }
  destruct (Z.eqb_spec g (GetGeneration (DriverDaemonSet ns))) as [Hg|Hg]; simpl.
  { split; [contradiction|]. intros (_ & g' & H & Hne & _).
    injection H as <-. contradiction. }
  destruct (Time_IsZero _) eqn:Hz; simpl.
  - split.
    + intros [<- | []]. split; [reflexivity|]. exists g. auto.
    + intros [-> _]. left. reflexivity.
  - split; [contradiction|]. intros (_ & g' & _ & _ & H). discriminate.
Qed.

Lemma ProcessPodRestartNodes_pods_sublist l :
  flat_map ProcessPodRestartNodes_pods l `sublist_of` map DriverPod l.
Proof.
  induction l as [|ns l IH]; simpl; [reflexivity|].
  unfold ProcessPodRestartNodes_pods at 1.
  destruct (GetPodTemplateGeneration (DriverPod ns)) as [e|g];
    [apply sublist_cons, IH|].
  destruct (_ && _); simpl; [apply sublist_skip, IH | apply sublist_cons, IH].
Qed.

Lemma podsRestarts_stepsOf cs pol h :
  List.filter isPodsRestart
    (stepCalls (stepsOf cs pol h UpgradeStatePodRestartRequired)) =
  [CallSchedulePodsRestart
     (flat_map ProcessPodRestartNodes_pods
        (nodesIn cs UpgradeStatePodRestartRequired))].
Proof.
  simpl stepsOf. rewrite stepCalls_app, List.filter_app. simpl.
  replace (List.filter isPodsRestart
             (stepCalls (flat_map ProcessPodRestartNodes_steps
                           (nodesIn cs UpgradeStatePodRestartRequired))))
    with (@nil Call); [reflexivity|].
  symmetry. apply filter_none.
  apply Forall_stepCalls_flat_map. intros ns _.
  unfold ProcessPodRestartNodes_steps, ProcessUpgradeFailedNodes_steps,
    driverPodInSync_steps.
  destruct (GetPodTemplateGeneration (DriverPod ns)); [constructor|].
  destruct (negb _); [constructor|].
  destruct (isDriverPodInSync ns) as [e|[|]]; try constructor.
  destruct (decide _); repeat constructor.
Qed.

(** X7: what a pass hands to the Pod Manager for restart.  A pass calls
    SchedulePodsRestart at most once, and exactly once when it returns nil,
    even when there is nothing to restart.  The pods of the call are driver
    pods of the PodRestartRequired list, in the order of the list, each unit
    giving its pod at most once; a pod is among them exactly when it is the
    driver pod of a unit of that list whose template generation differs from
    the daemonset's and whose deletion timestamp is zero, so a pod that is
    already terminating is never scheduled for restart. *)
Theorem X7_pods_scheduled_for_restart :
  forall (cs : ClusterUpgradeState) (pol : DriverUpgradePolicySpec) (w : World),
    AutoUpgrade pol = true ->
    exists d,
      calls (snd (ApplyState (Some cs) (Some pol) w)) = calls w ++ d /\
      (length (callsOfKind isPodsRestart d) <= 1)%nat /\
      (forall pods a,
          In (CallSchedulePodsRestart pods, a) d ->
          pods `sublist_of` map DriverPod (nodesIn cs UpgradeStatePodRestartRequired) /\
          (forall pod,
              In pod pods <->
              exists ns, In ns (nodesIn cs UpgradeStatePodRestartRequired) /\
                         pod = DriverPod ns /\ needsRestart ns)) /\
      (fst (ApplyState (Some cs) (Some pol) w) = inr tt ->
       exists pods, callsOfKind isPodsRestart d = [CallSchedulePodsRestart pods]).
Proof.
  intros cs pol w Hauto.
  destruct (ApplyState_Ran cs pol w Hauto) as (d & Hd & HR).
  exists d. split; [exact Hd|].
  destruct (ApplyState_calls_of_kind cs pol _ d _ _ isPodsRestart _ HR
              (callFrom_isPodsRestart cs)) as [Hin Hlen].
  rewrite filter_map_fst, podsRestarts_stepsOf in Hlen.
  split; [exact Hlen|]. split.
  - intros pods a Hev.
    assert (Hf : In (CallSchedulePodsRestart pods)
                    (List.filter isPodsRestart
                       (stepCalls (stepsOf cs pol (drainSpecs w)
                                     UpgradeStatePodRestartRequired)))).
    { apply filter_In. split; [eapply Hin; [exact Hev | reflexivity] | reflexivity]. }
    rewrite podsRestarts_stepsOf in Hf. destruct Hf as [Heq | []].
    injection Heq as <-. split; [apply ProcessPodRestartNodes_pods_sublist|].
    intros pod. rewrite in_flat_map. split.
    + intros (ns & Hns & Hpod). apply ProcessPodRestartNodes_pods_spec in Hpod.
      exists ns. tauto.
    + intros (ns & Hns & Hpod). exists ns. split; [exact Hns|].
      apply ProcessPodRestartNodes_pods_spec. exact Hpod.
  - intros Hok. rewrite Hok in HR.
    rewrite (ApplyState_calls_of_kind_ok cs pol _ d _ isPodsRestart _ HR
               (callFrom_isPodsRestart cs)).
    rewrite podsRestarts_stepsOf. eauto.
Qed.

(** ** A pass with drain enabled *)

Lemma noSet_In s l ds : noSet s -> ~ In (SetDrainSpec l ds) s.
Proof.
  unfold noSet. intros Hs Hin.
  rewrite forallb_forall in Hs. specialize (Hs _ Hin). discriminate.
Qed.

(** The drain specs a script leaves behind, when all its writes go to the
    spec at [p] and store a spec that satisfies [Q]. *)
Lemma Ran_store (Q : DrainSpec -> Prop) (p : loc) s h d r h' :
  Ran s h d r h' ->
  (forall l ds, In (SetDrainSpec l ds) s -> l = p /\ Q ds) ->
  (forall q, q <> p -> h' q = h q) /\ (h' p = h p \/ Q (h' p)).
Proof.
  induction 1 as [h|c s h d r h' HR IH|c e s h|c a s h d r h' HR IH|e s h
                 |l ds s h d r h' HR IH]; intros Hset; auto.
  - apply IH. intros l ds Hin. apply Hset. right. exact Hin.
  - apply IH. intros l ds Hin. apply Hset. right. exact Hin.
  - destruct (Hset l ds (or_introl eq_refl)) as [-> HQ].
    destruct IH as [Hother Hp].
    { intros l' ds' Hin. apply Hset. right. exact Hin. }
    unfold updateSpec in *. split.
    + intros q Hq. rewrite Hother by exact Hq.
      destruct (decide (q = p)); [contradiction | reflexivity].
    + destruct (decide (p = p)) as [_|Hne]; [|contradiction].
      right. destruct Hp as [-> | HQ']; assumption.
Qed.

Lemma ApplyState_steps_sets cs pol h l ds :
  In (SetDrainSpec l ds) (ApplyState_steps cs pol h) ->
  DrainSpec_ pol = Some l /\ ds = augmentedSpec (h l).
Proof.
  unfold ApplyState_steps. intros Hin.
  apply in_app_or in Hin as [Hin | Hin];
    [exfalso; exact (noSet_In _ _ _ (noSet_ApplyState_stepsBefore cs pol) Hin)|].
  apply in_app_or in Hin as [Hin | Hin];
    [|exfalso; exact (noSet_In _ _ _ (noSet_ApplyState_stepsAfter cs) Hin)].
  unfold ProcessDrainNodes_steps, drainDisabled_steps in Hin.
  destruct (DrainSpec_ pol) as [p|].
  - destruct (negb _).
    + apply in_map_iff in Hin as (ns & H & _). discriminate.
    + destruct Hin as [H | [H | []]]; [|discriminate].
      injection H as -> ->. auto.
  - apply in_map_iff in Hin as (ns & H & _). discriminate.
Qed.

Lemma nodesDrains_stepsOf cs pol h p :
  DrainSpec_ pol = Some p -> DrainSpec_Enable (h p) = true ->
  stepCalls (stepsOf cs pol h UpgradeStateDrainRequired) = [drainOf cs p h].
Proof.
  intros Hp Hen. simpl stepsOf. unfold ProcessDrainNodes_steps.
  rewrite Hp, Hen. reflexivity.
Qed.

Lemma no_restart_write_stepsOf cs pol h p X :
  DrainSpec_ pol = Some p -> DrainSpec_Enable (h p) = true ->
  Forall (fun c => isStateWrite UpgradeStatePodRestartRequired c = false)
    (stepCalls (stepsOf cs pol h X)).
Proof.
  intros Hp Hen.
  destruct (decide (X = UpgradeStateDrainRequired)) as [-> | HX].
  - rewrite (nodesDrains_stepsOf cs pol h p Hp Hen). repeat constructor.
  - eapply List.Forall_impl; [|apply callFrom_stepsOf].
    intros c Hc. destruct c; try reflexivity. simpl in *.
    apply bool_decide_eq_false. intros ->.
    destruct Hc as (_ & Hst & _). destruct X; simpl in Hst; intuition discriminate.
Qed.

(** X8: a pass under a policy whose drain spec, at address [p], has
    [Enable] set.  The pass writes PodRestartRequired for no node: the
    DrainRequired nodes are left to the Drain Manager.  It calls
    ScheduleNodesDrain at most once, with the spec at [p], all the nodes of
    the DrainRequired list in order and the selector extended by the
    skip-drain term; a pass that returns nil has made this call, also when
    the DrainRequired list is empty.  The only drain spec the pass may
    change is the one at [p], which is either untouched or holds the
    extended selector with [Enable] as before. *)
Theorem X8_drain_enabled_pass :
  forall (cs : ClusterUpgradeState) (pol : DriverUpgradePolicySpec) (w : World)
         (p : loc),
    AutoUpgrade pol = true ->
    DrainSpec_ pol = Some p ->
    DrainSpec_Enable (drainSpecs w p) = true ->
    exists d,
      calls (snd (ApplyState (Some cs) (Some pol) w)) = calls w ++ d /\
      Forall (fun ev => isStateWrite UpgradeStatePodRestartRequired (fst ev) = false) d /\
      (length (callsOfKind isNodesDrain d) <= 1)%nat /\
      (forall c, In c (callsOfKind isNodesDrain d) -> c = drainOf cs p (drainSpecs w)) /\
      (fst (ApplyState (Some cs) (Some pol) w) = inr tt ->
       callsOfKind isNodesDrain d = [drainOf cs p (drainSpecs w)]) /\
      (forall q, q <> p ->
                 drainSpecs (snd (ApplyState (Some cs) (Some pol) w)) q = drainSpecs w q) /\
      (drainSpecs (snd (ApplyState (Some cs) (Some pol) w)) p = drainSpecs w p \/
       drainSpecs (snd (ApplyState (Some cs) (Some pol) w)) p =
       augmentedSpec (drainSpecs w p)).
Proof.
  intros cs pol w p Hauto Hp Hen.
  destruct (ApplyState_Ran cs pol w Hauto) as (d & Hd & HR).
  exists d. split; [exact Hd|].
  destruct (ApplyState_calls_of_kind cs pol _ d _ _ isNodesDrain _ HR
              (callFrom_isNodesDrain cs)) as [Hin Hlen].
  rewrite filter_map_fst, (nodesDrains_stepsOf cs pol _ p Hp Hen) in Hlen.
  split; [|split; [|split; [|split]]].
  - eapply (Ran_Forall
              (fun c => isStateWrite UpgradeStatePodRestartRequired c = false));
      [exact HR|].
    rewrite ApplyState_steps_stepsOf, stepCalls_flat_map.
    induction allPhases as [|X Xs IH]; simpl; [constructor|].
    apply Forall_app. split; [|exact IH].
    apply (no_restart_write_stepsOf cs pol _ p X Hp Hen).
  - exact Hlen.
  - intros c Hc. apply filter_In in Hc as [Hc Hk].
    apply in_map_iff in Hc as ([c' a] & Heq & Hc). simpl in Heq. subst c'.
    pose proof (Hin c a Hc Hk) as Hs.
    rewrite (nodesDrains_stepsOf cs pol _ p Hp Hen) in Hs.
    destruct Hs as [<- | []]. reflexivity.
  - intros Hok. rewrite Hok in HR.
    rewrite (ApplyState_calls_of_kind_ok cs pol _ d _ isNodesDrain _ HR
               (callFrom_isNodesDrain cs)).
    rewrite (nodesDrains_stepsOf cs pol _ p Hp Hen). reflexivity.
  - apply (Ran_store (fun ds => ds = augmentedSpec (drainSpecs w p)) p) in HR;
      [exact HR|].
    intros l ds Hset. apply ApplyState_steps_sets in Hset as [Hl ->].
    rewrite Hp in Hl. injection Hl as <-. auto.
Qed.

(** ** The nodes that start an upgrade *)

Lemma ProcessUpgradeRequiredNodes_steps_take l :
  forall limit,
    limit <= GoInt.max_int ->
    ProcessUpgradeRequiredNodes_steps l limit =
    map (fun n => Do (CallChangeNodeUpgradeState n UpgradeStateCordonRequired))
        (take (Z.to_nat limit) (eligible l)).
Proof.
  unfold eligible.
  induction l as [|ns l IH]; intros limit Hmax; simpl.
  - rewrite take_nil. reflexivity.
  - destruct (Z.leb_spec limit 0) as [Hle|Hgt].
    + replace (Z.to_nat limit) with 0%nat by lia. reflexivity.
    + destruct (skipNodeUpgrade (Node_ ns)); simpl; [apply IH; exact Hmax|].
      replace (Z.to_nat limit) with (S (Z.to_nat (limit - 1))) by lia.
      simpl. f_equal. unfold GoInt.sub.
      rewrite GoInt_wrap_in_range
        by (unfold GoInt.in_range, GoInt.min_int, GoInt.max_int in *; lia).
      apply IH. lia.
Qed.

Lemma movedTo_ok st (l : list Call) :
  movedTo st (map ok l) = writeTargets (List.filter (isStateWrite st) l).
Proof.
  unfold movedTo, writeTargets.
  induction l as [|c l IH]; simpl; [reflexivity|].
  destruct c; simpl; try exact IH.
  destruct (decide (newNodeState = st)) as [Heq|Hne].
  - rewrite bool_decide_eq_true_2 by exact Heq. simpl. f_equal. exact IH.
  - rewrite bool_decide_eq_false_2 by exact Hne. simpl. exact IH.
Qed.

Lemma callFrom_cordonRequired cs X c :
  callFrom cs X c -> isStateWrite UpgradeStateCordonRequired c = true ->
  X = UpgradeStateUpgradeRequired.
Proof.
  destruct c; simpl; try discriminate. intros (_ & Hst & _) Heq.
  apply bool_decide_eq_true in Heq. subst.
  destruct X; simpl in Hst; intuition discriminate.
Qed.

Lemma upgradesAvailable_max cs pol :
  GoInt.len (nodesIn cs UpgradeStateUpgradeRequired) <= GoInt.max_int ->
  upgradesAvailable cs pol <= GoInt.max_int.
Proof.
  intros Hlen. unfold upgradesAvailable.
  destruct (MaxParallelUpgrades pol =? 0); [exact Hlen|].
  unfold GoInt.sub, GoInt.wrap, GoInt.max_int.
  pose proof (Z.mod_pos_bound
                (MaxParallelUpgrades pol - upgradesInProgress cs + 2 ^ 63) (2 ^ 64)).
  lia.
Qed.

Lemma cordonWrites_filter (l : list Node) :
  List.filter (isStateWrite UpgradeStateCordonRequired)
    (map (fun n => CallChangeNodeUpgradeState n UpgradeStateCordonRequired) l) =
  map (fun n => CallChangeNodeUpgradeState n UpgradeStateCordonRequired) l.
Proof. induction l; simpl; [reflexivity|]. f_equal. assumption. Qed.

Lemma writeTargets_writes st (l : list Node) :
  writeTargets (map (fun n => CallChangeNodeUpgradeState n st) l) = l.
Proof. induction l; simpl; [reflexivity|]. f_equal. assumption. Qed.

(** X9: which nodes start an upgrade.  With [limit] slots the
    UpgradeRequired processor writes CordonRequired for the first [limit]
    nodes of its list that do not carry the skip label, in the order of the
    list, and for no other node; it stops at the first write that fails.  In
    a pass the limit is [upgradesAvailable]: the nodes a pass has moved to
    CordonRequired are the first of these nodes, and all of them when the
    pass returns nil. *)
Theorem X9_first_eligible_nodes_start :
  forall (cs : ClusterUpgradeState) (pol : DriverUpgradePolicySpec) (w : World),
    AutoUpgrade pol = true ->
    GoInt.len (nodesIn cs UpgradeStateUpgradeRequired) <= GoInt.max_int ->
    let starting (limit : Z) :=
      take (Z.to_nat limit) (eligible (nodesIn cs UpgradeStateUpgradeRequired)) in
    (forall limit w0,
        limit <= GoInt.max_int ->
        exists d0,
          calls (snd (ProcessUpgradeRequiredNodes cs limit w0)) = calls w0 ++ d0 /\
          map fst d0 `prefix_of`
            map (fun n => CallChangeNodeUpgradeState n UpgradeStateCordonRequired)
                (starting limit) /\
          (fst (ProcessUpgradeRequiredNodes cs limit w0) = inr tt ->
           d0 = map ok (map (fun n => CallChangeNodeUpgradeState n
                                        UpgradeStateCordonRequired)
                            (starting limit)))) /\
    exists d,
      calls (snd (ApplyState (Some cs) (Some pol) w)) = calls w ++ d /\
      movedTo UpgradeStateCordonRequired d
        `prefix_of` starting (upgradesAvailable cs pol) /\
      (fst (ApplyState (Some cs) (Some pol) w) = inr tt ->
       movedTo UpgradeStateCordonRequired d = starting (upgradesAvailable cs pol)).
Proof.
  intros cs pol w Hauto Hlen starting. split.
  - intros limit w0 Hmax. rewrite ProcessUpgradeRequiredNodes_script.
    destruct (runScript_log
                (ProcessUpgradeRequiredNodes_steps
                   (nodesIn cs UpgradeStateUpgradeRequired) limit) w0
                (tryCalls_ProcessUpgradeRequiredNodes_steps _ _))
      as (d0 & Hd0 & Hpre & Hok).
    exists d0. split; [exact Hd0|].
    pose proof (ProcessUpgradeRequiredNodes_steps_take
                  (nodesIn cs UpgradeStateUpgradeRequired) limit Hmax) as Hsteps.
    split.
    + rewrite Hsteps, stepCalls_map_Do in Hpre. exact Hpre.
    + intros Hr. rewrite (Hok Hr), Hsteps, stepCalls_map_Do. reflexivity.
  - destruct (ApplyState_Ran cs pol w Hauto) as (d & Hd & HR).
    exists d. split; [exact Hd|].
    assert (Htry : Forall (fun c => isStateWrite UpgradeStateCordonRequired c = false)
                     (tryCalls (ApplyState_steps cs pol (drainSpecs w)))).
    { eapply List.Forall_impl; [|apply tryCalls_dropped].
      intros c [n ->]. reflexivity. }
    assert (Hall : movedTo UpgradeStateCordonRequired
                     (map ok (stepCalls (ApplyState_steps cs pol (drainSpecs w)))) =
                   starting (upgradesAvailable cs pol)).
    { rewrite movedTo_ok.
      rewrite (filter_stepCalls_only cs pol _ _ UpgradeStateUpgradeRequired
                 (callFrom_cordonRequired cs)).
      simpl stepsOf.
      rewrite ProcessUpgradeRequiredNodes_steps_take
        by (apply upgradesAvailable_max; exact Hlen).
      rewrite stepCalls_map_Do, cordonWrites_filter, writeTargets_writes.
      reflexivity. }
    split.
    + rewrite <- Hall. eapply Ran_movedTo_prefix; eassumption.
    + intros Hok. rewrite Hok in HR. rewrite <- Hall.
      eapply Ran_ok_dos_moved; eassumption.
Qed.

(** ** Cordon and uncordon *)

Lemma filter_prefix (p : Call -> bool) (l k : list Call) :
  l `prefix_of` k -> List.filter p l `prefix_of` List.filter p k.
Proof. intros [t ->]. rewrite List.filter_app. apply prefix_app_r. reflexivity. Qed.

Lemma cordons_stepsOf cs pol h :
  List.filter isCordon (stepCalls (stepsOf cs pol h UpgradeStateCordonRequired)) =
  map CallCordon (nodesOf cs UpgradeStateCordonRequired).
Proof.
  simpl stepsOf. unfold nodesOf.
  induction (nodesIn cs UpgradeStateCordonRequired) as [|ns l IH]; simpl;
    [reflexivity|].
  f_equal. exact IH.
Qed.

Lemma uncordons_stepsOf cs pol h :
  List.filter isUncordon (stepCalls (stepsOf cs pol h UpgradeStateUncordonRequired)) =
  map CallUncordon (nodesOf cs UpgradeStateUncordonRequired).
Proof.
  simpl stepsOf. unfold nodesOf.
  induction (nodesIn cs UpgradeStateUncordonRequired) as [|ns l IH]; simpl;
    [reflexivity|].
  f_equal. exact IH.
Qed.

Lemma followedBy_uncordon_stepsOf cs pol h X :
  followedBy uncordonNext (stepsOf cs pol h X).
Proof.
  destruct (decide (X = UpgradeStateUncordonRequired)) as [-> | HX].
  - simpl stepsOf.
    induction (nodesIn cs UpgradeStateUncordonRequired) as [|ns l IH]; simpl;
      [exact I|].
    split; [eauto|]. split; [exact I | exact IH].
  - apply followedBy_none.
    eapply List.Forall_impl; [|apply callFrom_stepsOf].
    intros c Hc. destruct c; try reflexivity. simpl in Hc.
    destruct Hc as [-> _]. contradiction.
Qed.

Lemma followedBy_uncordon cs pol h :
  followedBy uncordonNext (ApplyState_steps cs pol h).
Proof.
  rewrite ApplyState_steps_stepsOf.
  induction allPhases as [|X Xs IH]; simpl; [exact I|].
  apply followedBy_app; [apply followedBy_uncordon_stepsOf | exact IH].
Qed.

(** X10: cordon and uncordon calls of a pass.  The Uncordon calls of a pass
    go to the nodes of the UncordonRequired list, in the order of the list
    and at most one per unit, and the Cordon calls likewise to the nodes of
    the CordonRequired list; a pass that returns nil has made all of them.
    An Uncordon call that returned nil is followed at once by the write of
    Done for the same node. *)
Theorem X10_cordon_and_uncordon_calls :
  forall (cs : ClusterUpgradeState) (pol : DriverUpgradePolicySpec) (w : World),
    AutoUpgrade pol = true ->
    exists d,
      calls (snd (ApplyState (Some cs) (Some pol) w)) = calls w ++ d /\
      callsOfKind isUncordon d
        `prefix_of` map CallUncordon (nodesOf cs UpgradeStateUncordonRequired) /\
      callsOfKind isCordon d
        `prefix_of` map CallCordon (nodesOf cs UpgradeStateCordonRequired) /\
      (fst (ApplyState (Some cs) (Some pol) w) = inr tt ->
       callsOfKind isUncordon d =
         map CallUncordon (nodesOf cs UpgradeStateUncordonRequired) /\
       callsOfKind isCordon d =
         map CallCordon (nodesOf cs UpgradeStateCordonRequired)) /\
      (forall n pre post,
          d = pre ++ (CallUncordon n, None) :: post ->
          exists a post',
            post = (CallChangeNodeUpgradeState n UpgradeStateDone, a) :: post').
Proof.
  intros cs pol w Hauto.
  destruct (ApplyState_Ran cs pol w Hauto) as (d & Hd & HR).
  exists d. split; [exact Hd|].
  pose proof (Ran_prefix _ _ _ _ _ HR) as Hpre.
  split; [|split; [|split]].
  - rewrite <- (uncordons_stepsOf cs pol (drainSpecs w)).
    rewrite <- (filter_stepCalls_only cs pol _ _ _ (callFrom_isUncordon cs)).
    apply filter_prefix. exact Hpre.
  - rewrite <- (cordons_stepsOf cs pol (drainSpecs w)).
    rewrite <- (filter_stepCalls_only cs pol _ _ _ (callFrom_isCordon cs)).
    apply filter_prefix. exact Hpre.
  - intros Hok. rewrite Hok in HR. split.
    + rewrite (ApplyState_calls_of_kind_ok cs pol _ d _ isUncordon _ HR
                 (callFrom_isUncordon cs)).
      apply uncordons_stepsOf.
    + rewrite (ApplyState_calls_of_kind_ok cs pol _ d _ isCordon _ HR
                 (callFrom_isCordon cs)).
      apply cordons_stepsOf.
  - intros n pre post Hsplit.
    eapply (Ran_next uncordonNext); [exact HR | apply followedBy_uncordon | exact Hsplit |].
    reflexivity.
Qed.

(** ** A pass over a fresh snapshot *)

Lemma nodesIn_NewClusterUpgradeState X : nodesIn NewClusterUpgradeState X = [].
Proof. unfold nodesIn, NewClusterUpgradeState. simpl. rewrite lookup_empty. reflexivity. Qed.

Lemma ApplyState_steps_NewClusterUpgradeState pol h :
  stepCalls (ApplyState_steps NewClusterUpgradeState pol h) =
  match DrainSpec_ pol with
  | Some p =>
      if DrainSpec_Enable (h p) then
        [CallScheduleNodesDrain
           {| DrainConfiguration_Spec := p; DrainConfiguration_Nodes := [] |}
           (augmentedSpec (h p))]
      else []
  | None => []
  end ++ [CallSchedulePodsRestart []].
Proof.
  rewrite ApplyState_steps_stepsOf. unfold allPhases, stepsOf.
  rewrite !nodesIn_NewClusterUpgradeState. simpl.
  assert (HW : ProcessWaitForJobsRequiredNodes_steps [] (WaitForCompletion pol) = []).
  { unfold ProcessWaitForJobsRequiredNodes_steps.
    destruct (WaitForCompletion pol) as [spec|]; [|reflexivity].
    destruct (String.eqb _ _); reflexivity. }
  rewrite HW. unfold ProcessPodDeletionRequiredNodes_steps, ProcessDrainNodes_steps.
  simpl. destruct (DrainSpec_ pol) as [p|]; [|reflexivity].
  destruct (DrainSpec_Enable (h p)); reflexivity.
Qed.

(** X11: a pass over the snapshot that [NewClusterUpgradeState] returns,
    which has no node in any phase.  Such a pass writes no phase and no
    annotation and cordons nothing, but it is not silent: it asks the Pod
    Manager to restart an empty list of pods, and before that, when the
    policy's drain spec is enabled, it asks the Drain Manager to drain an
    empty list of nodes.  These are the only calls, and a pass that returns
    nil has made them all. *)
Theorem X11_pass_over_fresh_snapshot :
  forall (pol : DriverUpgradePolicySpec) (w : World),
    (forall X, nodesIn NewClusterUpgradeState X = []) /\
    (AutoUpgrade pol = true ->
     let expected :=
       match DrainSpec_ pol with
       | Some p =>
           if DrainSpec_Enable (drainSpecs w p) then
             [CallScheduleNodesDrain
                {| DrainConfiguration_Spec := p; DrainConfiguration_Nodes := [] |}
                (augmentedSpec (drainSpecs w p))]
           else []
       | None => []
       end ++ [CallSchedulePodsRestart []] in
     exists d,
       calls (snd (ApplyState (Some NewClusterUpgradeState) (Some pol) w)) =
         calls w ++ d /\
       map fst d `prefix_of` expected /\
       (fst (ApplyState (Some NewClusterUpgradeState) (Some pol) w) = inr tt ->
        map fst d = expected)).
Proof.
  intros pol w. split; [apply nodesIn_NewClusterUpgradeState|].
  intros Hauto expected.
  destruct (ApplyState_Ran NewClusterUpgradeState pol w Hauto) as (d & Hd & HR).
  exists d. split; [exact Hd|]. split.
  - apply Ran_prefix in HR.
    rewrite ApplyState_steps_NewClusterUpgradeState in HR. exact HR.
  - intros Hok. rewrite Hok in HR. apply Ran_ok_calls in HR.
    rewrite ApplyState_steps_NewClusterUpgradeState in HR. exact HR.
Qed.

(** ** The calls of a pass do not depend on the answers *)

Lemma ApplyState_steps_ext cs pol h1 h2 :
  (forall p, DrainSpec_ pol = Some p -> h1 p = h2 p) ->
  ApplyState_steps cs pol h1 = ApplyState_steps cs pol h2.
Proof.
  intros Hh. unfold ApplyState_steps, ProcessDrainNodes_steps.
  destruct (DrainSpec_ pol) as [p|]; [|reflexivity].
  rewrite (Hh p eq_refl). reflexivity.
Qed.

(** The calls logged by a pass are the first calls of a list that the
    snapshot, the policy and the drain spec of the policy determine, and all
    of that list when the pass returns nil. *)
Lemma ApplyState_planned cs pol w :
  AutoUpgrade pol = true ->
  exists d,
    calls (snd (ApplyState (Some cs) (Some pol) w)) = calls w ++ d /\
    map fst d `prefix_of` stepCalls (ApplyState_steps cs pol (drainSpecs w)) /\
    (fst (ApplyState (Some cs) (Some pol) w) = inr tt ->
     map fst d = stepCalls (ApplyState_steps cs pol (drainSpecs w))).
Proof.
  intros Hauto.
  destruct (ApplyState_Ran cs pol w Hauto) as (d & Hd & HR).
  exists d. split; [exact Hd|]. split.
  - eapply Ran_prefix; exact HR.
  - intros Hok. rewrite Hok in HR. eapply Ran_ok_calls; exact HR.
Qed.

(** ** A refused cordon *)

Lemma answered_head log0 c a d : answered log0 ((c, a) :: d) -> a = collaborators log0 c.
Proof.
  intros H. specialize (H [] c a d eq_refl). rewrite app_nil_r in H. exact H.
Qed.

Lemma answered_tail log0 ev d : answered log0 (ev :: d) -> answered (log0 ++ [ev]) d.
Proof.
  intros H pre c a post Hd. rewrite <- app_assoc. simpl.
  apply (H (ev :: pre) c a post). rewrite Hd. reflexivity.
Qed.

Lemma answered_cons log0 c d :
  answered (log0 ++ [(c, collaborators log0 c)]) d ->
  answered log0 ((c, collaborators log0 c) :: d).
Proof.
  intros H pre c' a post Hd. destruct pre as [|x pre]; simpl in Hd.
  - injection Hd as <- <- _. rewrite app_nil_r. reflexivity.
  - injection Hd as <- Hd. specialize (H pre c' a post Hd).
    rewrite <- app_assoc in H. exact H.
Qed.

(** The log of a script is answered by the collaborators. *)
Lemma runScript_answered s w :
  exists d,
    calls (snd (runScript s w)) = calls w ++ d /\
    Ran s (drainSpecs w) d (fst (runScript s w)) (drainSpecs (snd (runScript s w))) /\
    answered (calls w) d.
Proof.
  revert w. induction s as [|[c|c|e|l ds] s IH]; intros w; simpl.
  - exists []. rewrite app_nil_r. split; [reflexivity|]. split; [constructor|].
    intros [|x pre] c a post H; discriminate.
  - unfold bind, call. destruct (collaborators (calls w) c) as [e|] eqn:Hc.
    + exists [(c, Some e)]. split; [reflexivity|]. split; [constructor|].
      rewrite <- Hc. apply answered_cons.
      intros [|x pre] c' a post H; discriminate.
    + destruct (IH {| calls := calls w ++ [(c, None)]; drainSpecs := drainSpecs w |})
        as (d & Hd & HR & Ha). simpl in Hd, HR, Ha.
      exists ((c, None) :: d). split; [|split].
      * rewrite Hd, <- app_assoc. reflexivity.
      * constructor. exact HR.
      * rewrite <- Hc. apply answered_cons. rewrite Hc. exact Ha.
  - unfold bind, ignoreError, call. simpl.
    destruct (IH {| calls := calls w ++ [(c, collaborators (calls w) c)];
                    drainSpecs := drainSpecs w |}) as (d & Hd & HR & Ha).
    simpl in Hd, HR, Ha.
    exists ((c, collaborators (calls w) c) :: d). split; [|split].
    + rewrite Hd, <- app_assoc. reflexivity.
    + constructor. exact HR.
    + apply answered_cons. exact Ha.
  - exists []. rewrite app_nil_r. split; [reflexivity|]. split; [constructor|].
    intros [|x pre] c a post H; discriminate.
  - unfold bind, writeDrainSpec.
    destruct (IH {| calls := calls w;
                    drainSpecs := updateSpec (drainSpecs w) l ds |})
      as (d & Hd & HR & Ha).
    simpl in Hd, HR, Ha. exists d. split; [exact Hd|]. split; [constructor; exact HR|].
    exact Ha.
Qed.

Lemma ApplyState_answered cs pol w :
  AutoUpgrade pol = true ->
  exists d,
    calls (snd (ApplyState (Some cs) (Some pol) w)) = calls w ++ d /\
    Ran (ApplyState_steps cs pol (drainSpecs w)) (drainSpecs w) d
        (fst (ApplyState (Some cs) (Some pol) w))
        (drainSpecs (snd (ApplyState (Some cs) (Some pol) w))) /\
    answered (calls w) d.
Proof.
  intros Hauto. rewrite (ApplyState_script cs pol w Hauto).
  apply runScript_answered.
Qed.

(** A script whose steps up to an error-checked call [c] all go through,
    and whose call [c] is refused, stops at [c] with the error of [c]. *)
Lemma Ran_fails_at s1 c s2 e :
  (forall e', ~ In (Abort e') s1) ->
  (forall log c', In c' (stepCalls s1) -> collaborators log c' = None) ->
  (forall log, collaborators log c = Some e) ->
  forall h d r h' log0,
    Ran (s1 ++ Do c :: s2) h d r h' -> answered log0 d ->
    r = inl e /\ d = map ok (stepCalls s1) ++ [(c, Some e)].
Proof.
  intros Hab Hnone Hc.
  induction s1 as [|st s1 IH]; intros h d r h' log0 HR Ha; simpl in HR.
  - inversion HR; subst.
    + apply answered_head in Ha. rewrite Hc in Ha. discriminate.
    + apply answered_head in Ha. rewrite Hc in Ha. injection Ha as ->. auto.
  - assert (Hab' : forall e', ~ In (Abort e') s1).
    { intros e' Hin. apply (Hab e'). right. exact Hin. }
    destruct st as [c0|c0|e0|l ds].
    + assert (Hnone' : forall log c', In c' (stepCalls s1) ->
                                      collaborators log c' = None).
      { intros log c' Hin. apply Hnone. right. exact Hin. }
      inversion HR; subst.
      * destruct (IH Hab' Hnone' _ _ _ _ _ H5 (answered_tail _ _ _ Ha)) as [-> ->].
        auto.
      * apply answered_head in Ha.
        rewrite (Hnone log0 c0 (or_introl eq_refl)) in Ha. discriminate.
    + assert (Hnone' : forall log c', In c' (stepCalls s1) ->
                                      collaborators log c' = None).
      { intros log c' Hin. apply Hnone. right. exact Hin. }
      inversion HR; subst.
      destruct (IH Hab' Hnone' _ _ _ _ _ H5 (answered_tail _ _ _ Ha)) as [-> ->].
      pose proof (answered_head _ _ _ _ Ha) as Hans.
      rewrite (Hnone log0 c0 (or_introl eq_refl)) in Hans. subst a. auto.
    + exfalso. apply (Hab e0). left. reflexivity.
    + inversion HR; subst. simpl in Hnone.
      exact (IH Hab' Hnone _ _ _ _ _ H6 Ha).
Qed.

Lemma stepCalls_cordons l :
  stepCalls (flat_map ProcessCordonRequiredNodes_steps l) =
  flat_map expectedCordon (map Node_ l).
Proof. induction l as [|ns l IH]; simpl; [reflexivity|]. rewrite IH. reflexivity. Qed.

Lemma tryCalls_cordons l : tryCalls (flat_map ProcessCordonRequiredNodes_steps l) = [].
Proof. apply tryCalls_flat_map. reflexivity. Qed.

Lemma Abort_stepsBeforeCordon cs pol e :
  In (Abort e) (stepsBeforeCordon cs pol) ->
  exists ns, In ns (nodesIn cs UpgradeStateUnknown ++ nodesIn cs UpgradeStateDone) /\
             GetPodTemplateGeneration (DriverPod ns) = inl e.
Proof.
  unfold stepsBeforeCordon. intros Hin.
  apply in_app_or in Hin as [Hin | Hin].
  { apply in_flat_map in Hin as (ns & Hns & Hin). exists ns.
    split; [apply in_or_app; left; exact Hns|].
    eapply Abort_ProcessDoneOrUnknownNodes_steps; eauto. }
  apply in_app_or in Hin as [Hin | Hin].
  { apply in_flat_map in Hin as (ns & Hns & Hin). exists ns.
    split; [apply in_or_app; right; exact Hns|].
    eapply Abort_ProcessDoneOrUnknownNodes_steps; eauto. }
  exfalso. revert Hin. generalize (upgradesAvailable cs pol).
  induction (nodesIn cs UpgradeStateUpgradeRequired) as [|ns l IH];
    intros limit; simpl; [auto|].
  destruct (limit <=? 0); [auto|].
  destruct (skipNodeUpgrade _); [apply IH|].
  simpl. intros [H | H]; [discriminate | eapply IH; eauto].
Qed.

Lemma cordonNext_isCordon c : cordonNext c = None -> isCordon c = false.
Proof. destruct c; simpl; congruence. Qed.

Lemma cordons_before l :
  List.filter isCordon (flat_map expectedCordon l) = map CallCordon l.
Proof. induction l; simpl; [reflexivity|]. f_equal. assumption. Qed.

Lemma waitForJobs_before l :
  writeTargets (List.filter (isStateWrite UpgradeStateWaitForJobsRequired)
                  (flat_map expectedCordon l)) = l.
Proof. induction l; simpl; [reflexivity|]. f_equal. assumption. Qed.

Lemma map_fst_ok (l : list Call) : map fst (map ok l) = l.
Proof. induction l; simpl; [reflexivity|]. f_equal. assumption. Qed.

(** C7: a CordonRequired node whose cordon fails.  When the Cordon Manager
    refuses the node [ns] of the CordonRequired list, while the cordons of
    the nodes before it in the list, every call that is not a cordon and the
    generation reads of the Unknown and Done units go through, [ApplyState]
    returns the error of the refused cordon; that cordon is the last call
    of the pass; every earlier call returned nil; the nodes before [ns] and
    only they were cordoned and moved to WaitForJobsRequired; so the phase
    of the refused node is not advanced.  In every pass, whatever the
    collaborators answer: a Cordon call that returns an error is the last
    call and its error is what [ApplyState] returns, and no phase was
    written for its node if the node is in none of the Unknown, Done and
    UpgradeRequired lists and occurs once in the CordonRequired list; a
    Cordon call that returns nil is followed at once by the write of
    WaitForJobsRequired for the same node; a pass that returns nil has
    cordoned and moved every CordonRequired node, in order.  The cordon
    processor itself logs, node by node, the cordon and then the write, all
    of them with nil answers when it returns nil. *)
Theorem C7_cordon_failure_stops_pass :
  forall (cs : ClusterUpgradeState) (pol : DriverUpgradePolicySpec) (w : World),
    AutoUpgrade pol = true ->
    let cordons := flat_map expectedCordon (nodesOf cs UpgradeStateCordonRequired) in
    (exists d,
        calls (snd (ApplyState (Some cs) (Some pol) w)) = calls w ++ d /\
        (forall n e pre post,
            d = pre ++ (CallCordon n, Some e) :: post ->
            fst (ApplyState (Some cs) (Some pol) w) = inl e /\
            post = [] /\
            ((forall X, In X [UpgradeStateUnknown; UpgradeStateDone;
                              UpgradeStateUpgradeRequired] ->
                        ~ In n (nodesOf cs X)) ->
             List.NoDup (nodesOf cs UpgradeStateCordonRequired) ->
             Forall (fun ev => ~ isPhaseWriteFor n (fst ev)) d)) /\
        (forall n pre post,
            d = pre ++ (CallCordon n, None) :: post ->
            exists a post',
              post = (CallChangeNodeUpgradeState n UpgradeStateWaitForJobsRequired, a)
                     :: post') /\
        (fst (ApplyState (Some cs) (Some pol) w) = inr tt ->
         exists pre post, d = pre ++ map ok cordons ++ post) /\
        (forall l1 ns l2 e,
            nodesIn cs UpgradeStateCordonRequired = l1 ++ ns :: l2 ->
            (forall log, collaborators log (CallCordon (Node_ ns)) = Some e) ->
            (forall log m, In m (map Node_ l1) ->
                           collaborators log (CallCordon m) = None) ->
            (forall log c, isCordon c = false -> collaborators log c = None) ->
            (forall ns', In ns' (nodesIn cs UpgradeStateUnknown ++
                                 nodesIn cs UpgradeStateDone) ->
                         exists g, GetPodTemplateGeneration (DriverPod ns') = inr g) ->
            fst (ApplyState (Some cs) (Some pol) w) = inl e /\
            exists pre,
              d = pre ++ [(CallCordon (Node_ ns), Some e)] /\
              Forall (fun ev => snd ev = None) pre /\
              callsOfKind isCordon pre = map CallCordon (map Node_ l1) /\
              movedTo UpgradeStateWaitForJobsRequired d = map Node_ l1)) /\
    (exists d0,
        calls (snd (ProcessCordonRequiredNodes cs w)) = calls w ++ d0 /\
        map fst d0 `prefix_of` cordons /\
        (fst (ProcessCordonRequiredNodes cs w) = inr tt -> d0 = map ok cordons)).
Proof.
  intros cs pol w Hauto cordons. split.
  2:{ rewrite ProcessCordonRequiredNodes_script.
      destruct (runScript_log
                  (flat_map ProcessCordonRequiredNodes_steps
                     (nodesIn cs UpgradeStateCordonRequired)) w (tryCalls_cordons _))
        as (d0 & Hd0 & Hpre & Hok).
      rewrite stepCalls_cordons in Hpre, Hok. exists d0. auto. }
  destruct (ApplyState_answered cs pol w Hauto) as (d & Hd & HR & Hans).
  exists d. split; [exact Hd|]. split; [|split; [|split]].
  - intros n e pre post Hsplit.
    destruct (Ran_error_last _ _ _ _ _ HR _ _ _ _ Hsplit) as [-> Hr].
    { intros Hin. pose proof (not_cordon_tryCalls cs pol (drainSpecs w)) as HF.
      rewrite List.Forall_forall in HF. specialize (HF _ Hin). discriminate. }
    split; [exact Hr|]. split; [reflexivity|].
    intros Helse Hnd. subst d.
    apply Forall_app. split;
      [|constructor; [intros [st Hst]; discriminate | constructor]].
    rewrite ApplyState_steps_cordon in HR.
    apply Ran_app_inv in HR as [(e' & _ & HR) | (d1 & d2 & h1 & Heq & HR1 & HR2)].
    + exfalso.
      pose proof (Ran_In _ _ _ _ _ (CallCordon n, Some e) HR (In_app_event _ _ _))
        as Hin.
      pose proof (not_cordon_stepsBeforeCordon cs pol) as HF.
      rewrite List.Forall_forall in HF. specialize (HF _ Hin). discriminate.
    + apply app_last_split in Heq as [[-> Heq] | (d2' & -> & ->)].
      * exfalso. subst d1.
        pose proof (Ran_In _ _ _ _ _ (CallCordon n, Some e) HR1 (In_app_event _ _ _))
          as Hin.
        pose proof (not_cordon_stepsBeforeCordon cs pol) as HF.
        rewrite List.Forall_forall in HF. specialize (HF _ Hin). discriminate.
      * apply Forall_app. split.
        -- eapply List.Forall_impl;
             [|exact (Ran_Forall _ _ _ _ _ _ HR1 (callFrom_stepsBeforeCordon cs pol))].
           intros [c a] (X & HX & Hc) [st Hst]. simpl in *. subst c.
           destruct Hc as (Hin & _). exact (Helse X HX Hin).
        -- eapply Ran_cordon_failure; [exact Hnd | | exact HR2].
           apply not_cordon_stepsAfterCordon.
  - intros n pre post Hsplit.
    eapply (Ran_next cordonNext); [exact HR | | exact Hsplit | reflexivity].
    apply followedBy_ApplyState_steps.
  - intros Hok. rewrite Hok in HR. rewrite ApplyState_steps_cordon in HR.
    apply Ran_app_ok in HR as (d1 & d' & h1 & -> & _ & HR).
    apply Ran_app_ok in HR as (d2 & d3 & h2 & -> & HR2 & _).
    apply Ran_ok_dos in HR2; [|apply tryCalls_cordons].
    rewrite stepCalls_cordons in HR2. exists d1, d3. rewrite HR2. reflexivity.
  - intros l1 ns l2 e Hpos Hrefuse Hbefore Hother Hgen.
    rewrite ApplyState_steps_cordon, Hpos, flat_map_app in HR. simpl in HR.
    rewrite <- app_assoc in HR. simpl in HR. rewrite app_assoc in HR.
    assert (Hcalls : stepCalls (stepsBeforeCordon cs pol ++
                                flat_map ProcessCordonRequiredNodes_steps l1) =
                     stepCalls (stepsBeforeCordon cs pol) ++
                     flat_map expectedCordon (map Node_ l1)).
    { rewrite stepCalls_app, stepCalls_cordons. reflexivity. }
    assert (HnotC : Forall (fun c => isCordon c = false)
                      (stepCalls (stepsBeforeCordon cs pol))).
    { eapply List.Forall_impl; [|apply not_cordon_stepsBeforeCordon].
      intros c. apply cordonNext_isCordon. }
    assert (Hab : forall e', ~ In (Abort e')
                                (stepsBeforeCordon cs pol ++
                                 flat_map ProcessCordonRequiredNodes_steps l1)).
    { intros e' Hin. apply in_app_or in Hin as [Hin | Hin].
      - apply Abort_stepsBeforeCordon in Hin as (ns' & Hns' & Hg).
        destruct (Hgen ns' Hns') as [g Hg']. congruence.
      - apply in_flat_map in Hin as (x & _ & Hin). simpl in Hin.
        intuition discriminate. }
    assert (Hnone : forall log c',
               In c' (stepCalls (stepsBeforeCordon cs pol ++
                                 flat_map ProcessCordonRequiredNodes_steps l1)) ->
               collaborators log c' = None).
    { intros log c' Hin. rewrite Hcalls in Hin.
      apply in_app_or in Hin as [Hin | Hin].
      - apply Hother. rewrite List.Forall_forall in HnotC. apply HnotC, Hin.
      - apply in_flat_map in Hin as (m & Hm & [<- | [<- | []]]).
        + apply Hbefore. exact Hm.
        + apply Hother. reflexivity. }
    destruct (Ran_fails_at _ _ _ e Hab Hnone Hrefuse _ _ _ _ _ HR Hans) as [Hr Hdeq].
    split; [exact Hr|]. rewrite Hcalls in Hdeq.
    exists (map ok (stepCalls (stepsBeforeCordon cs pol) ++
                    flat_map expectedCordon (map Node_ l1))).
    split; [exact Hdeq|]. split; [|split].
    + apply List.Forall_forall. intros ev Hin.
      apply in_map_iff in Hin as (c & <- & _). reflexivity.
    + unfold callsOfKind. rewrite map_fst_ok, List.filter_app.
      rewrite (filter_none _ _ HnotC), cordons_before. reflexivity.
    + rewrite Hdeq, movedTo_app, movedTo_ok, List.filter_app.
      rewrite (filter_none (isStateWrite UpgradeStateWaitForJobsRequired)
                 (stepCalls (stepsBeforeCordon cs pol))).
      2:{ eapply callFromSome_not_state; [apply callFrom_stepsBeforeCordon|].
          intros X HX. simpl in HX.
          repeat (destruct HX as [<- | HX]; [simpl; intuition discriminate|]).
          contradiction. }
      simpl. rewrite waitForJobs_before, app_nil_r. reflexivity.
Qed.

End Manager.

(** * The calls of a pass and the collaborators' answers *)

(** X12: the calls of a pass are decided by the snapshot, the policy and the
    drain spec the policy points to; what the collaborators answer only
    decides where the pass stops.  Two passes over the same snapshot and
    policy, started with the same drain spec but with collaborators that
    answer differently, make the same calls for as long as both run: the
    calls of one are the first calls of the other, a pass that returns nil
    has made at least the calls of the other one, and two passes that both
    return nil have made the same calls. *)
Theorem X12_calls_do_not_depend_on_answers :
  forall {PodDeletionSpec : Type}
         (collaborators1 collaborators2 :
            list (Event (PodDeletionSpec:=PodDeletionSpec)) -> Call -> option error)
         (GetPodTemplateGeneration : Pod -> error + Z)
         (GetUpgradeInitialStateAnnotationKey GetUpgradeSkipNodeLabelKey
            GetUpgradeSkipDrainPodLabelKey : string)
         (cs : ClusterUpgradeState) (pol : DriverUpgradePolicySpec)
         (w1 w2 : World),
    AutoUpgrade pol = true ->
    (forall p, DrainSpec_ pol = Some p -> drainSpecs w1 p = drainSpecs w2 p) ->
    let run1 :=
      ApplyState collaborators1 GetPodTemplateGeneration
        GetUpgradeInitialStateAnnotationKey GetUpgradeSkipNodeLabelKey
        GetUpgradeSkipDrainPodLabelKey (Some cs) (Some pol) w1 in
    let run2 :=
      ApplyState collaborators2 GetPodTemplateGeneration
        GetUpgradeInitialStateAnnotationKey GetUpgradeSkipNodeLabelKey
        GetUpgradeSkipDrainPodLabelKey (Some cs) (Some pol) w2 in
    exists d1 d2,
      calls (snd run1) = calls w1 ++ d1 /\
      calls (snd run2) = calls w2 ++ d2 /\
      (map fst d1 `prefix_of` map fst d2 \/ map fst d2 `prefix_of` map fst d1) /\
      (fst run1 = inr tt -> map fst d2 `prefix_of` map fst d1) /\
      (fst run1 = inr tt -> fst run2 = inr tt -> map fst d1 = map fst d2).
Proof.
  intros PodDeletionSpec collaborators1 collaborators2 gen kInit kNode kDrain
         cs pol w1 w2 Hauto Hspec run1 run2.
  destruct (ApplyState_planned collaborators1 gen kInit kNode kDrain cs pol w1 Hauto)
    as (d1 & Hd1 & Hpre1 & Hok1).
  destruct (ApplyState_planned collaborators2 gen kInit kNode kDrain cs pol w2 Hauto)
    as (d2 & Hd2 & Hpre2 & Hok2).
  rewrite (ApplyState_steps_ext gen kInit kNode kDrain cs pol
             (drainSpecs w1) (drainSpecs w2) Hspec) in Hpre1, Hok1.
  exists d1, d2. split; [exact Hd1|]. split; [exact Hd2|]. split; [|split].
  - eapply prefix_weak_total; eassumption.
  - intros H1. rewrite (Hok1 H1). exact Hpre2.
  - intros H1 H2. rewrite (Hok1 H1), (Hok2 H2). reflexivity.
Qed.

(** * The properties on the example cluster

    Each statement below lists the hypotheses of a theorem above at concrete
    data, followed by what the theorem then gives. *)

Abbreviation exApplyState collab :=
  (ApplyState (PodDeletionSpec:=unit) collab exGetPodTemplateGeneration
     exInitialStateKey exSkipNodeKey exSkipDrainKey).

Abbreviation exPol n drain := (exPolicy (PodDeletionSpec:=unit) n drain).

Abbreviation exW enabled := (exWorld (PodDeletionSpec:=unit) enabled).

Abbreviation exOk := (exAllSucceed (PodDeletionSpec:=unit)).

Abbreviation exKo := (exCordonFails (PodDeletionSpec:=unit)).

Lemma C1_witness :
  AutoUpgrade (exPol 0 None) = true /\
  snapshotFits exCluster /\
  GoInt.in_range (MaxParallelUpgrades (exPol 0 None)) /\
  GoInt.min_int <=
    MaxParallelUpgrades (exPol 0 None) - countNodes exCluster inProgressPhases /\
  (upgradesInProgress exCluster = countNodes exCluster inProgressPhases /\
   exists d,
     calls (snd (exApplyState exOk (Some exCluster) (Some (exPol 0 None)) (exW false)))
     = calls (exW false) ++ d /\
     (MaxParallelUpgrades (exPol 0 None) <> 0 ->
      Z.of_nat (length (List.filter
                          (fun ev => isStateWrite UpgradeStateCordonRequired (fst ev))
                          d))
      <= Z.max (MaxParallelUpgrades (exPol 0 None)
                - countNodes exCluster inProgressPhases) 0) /\
     (MaxParallelUpgrades (exPol 0 None) = 0 ->
      movedTo UpgradeStateCordonRequired d
        `prefix_of`
        eligible exSkipNodeKey (nodesIn exCluster UpgradeStateUpgradeRequired) /\
      (fst (exApplyState exOk (Some exCluster) (Some (exPol 0 None)) (exW false))
       = inr tt ->
       movedTo UpgradeStateCordonRequired d =
       eligible exSkipNodeKey (nodesIn exCluster UpgradeStateUpgradeRequired)))).
Proof.
  assert (H1 : AutoUpgrade (exPol 0 None) = true) by reflexivity.
  assert (H2 : snapshotFits exCluster) by (vm_compute; discriminate).
  assert (H3 : GoInt.in_range (MaxParallelUpgrades (exPol 0 None)))
    by (split; vm_compute; discriminate).
  assert (H4 : GoInt.min_int <=
               MaxParallelUpgrades (exPol 0 None)
               - countNodes exCluster inProgressPhases)
    by (vm_compute; discriminate).
  exact (conj H1 (conj H2 (conj H3 (conj H4
    (C1_parallel_upgrade_limit exOk exGetPodTemplateGeneration exInitialStateKey
       exSkipNodeKey exSkipDrainKey exCluster (exPol 0 None) (exW false)
       H1 H2 H3 H4))))).
Defined.

Lemma C2_witness :
  AutoUpgrade (exPol 1 None) = true /\
  (exApplyState exKo (Some exCluster) (Some (exPol 1 None)) (exW false) =
   runInOrder
     (phaseProcessors exKo exGetPodTemplateGeneration exInitialStateKey
        exSkipNodeKey exSkipDrainKey exCluster (exPol 1 None)) (exW false) /\
   (forall k p wk e wk',
       phaseProcessors exKo exGetPodTemplateGeneration exInitialStateKey
         exSkipNodeKey exSkipDrainKey exCluster (exPol 1 None) !! k = Some p ->
       runInOrder
         (take k (phaseProcessors exKo exGetPodTemplateGeneration exInitialStateKey
                    exSkipNodeKey exSkipDrainKey exCluster (exPol 1 None)))
         (exW false) = (inr tt, wk) ->
       p wk = (inl e, wk') ->
       exApplyState exKo (Some exCluster) (Some (exPol 1 None)) (exW false)
       = (inl e, wk')) /\
   (forall k,
       calls (snd (runInOrder
                     (take k (phaseProcessors exKo exGetPodTemplateGeneration
                                exInitialStateKey exSkipNodeKey exSkipDrainKey
                                exCluster (exPol 1 None)))
                     (exW false)))
         `prefix_of`
       calls (snd (exApplyState exKo (Some exCluster) (Some (exPol 1 None))
                     (exW false))))).
Proof.
  split; [reflexivity|].
  apply (C2_processors_in_order exKo exGetPodTemplateGeneration exInitialStateKey
           exSkipNodeKey exSkipDrainKey exCluster (exPol 1 None) (exW false)).
  reflexivity.
Defined.

Lemma C3_witness :
  AutoUpgrade (exPol 0 None) = true /\
  (let expected :=
     flat_map (expectedDoneOrUnknown (PodDeletionSpec:=unit)
                 exGetPodTemplateGeneration exInitialStateKey UpgradeStateUnknown)
              (nodesIn exCluster UpgradeStateUnknown) ++
     flat_map (expectedDoneOrUnknown (PodDeletionSpec:=unit)
                 exGetPodTemplateGeneration exInitialStateKey UpgradeStateDone)
              (nodesIn exCluster UpgradeStateDone) in
   exists d,
     calls (snd (exApplyState exOk (Some exCluster) (Some (exPol 0 None)) (exW false)))
     = calls (exW false) ++ d /\
     (exists later, map fst d `prefix_of` expected ++ later) /\
     (fst (exApplyState exOk (Some exCluster) (Some (exPol 0 None)) (exW false))
      = inr tt ->
      exists rest, d = map ok expected ++ rest)).
Proof.
  split; [reflexivity|].
  apply (C3_done_or_unknown_nodes exOk exGetPodTemplateGeneration exInitialStateKey
           exSkipNodeKey exSkipDrainKey exCluster (exPol 0 None) (exW false)).
  reflexivity.
Defined.

Lemma C4_witness :
  AutoUpgrade (exPol 0 None) = true /\
  (let restart :=
     flat_map (expectedInSync (PodDeletionSpec:=unit)
                 exGetPodTemplateGeneration exInitialStateKey)
              (nodesIn exCluster UpgradeStatePodRestartRequired) ++
     [CallSchedulePodsRestart
        (flat_map (ProcessPodRestartNodes_pods exGetPodTemplateGeneration)
           (nodesIn exCluster UpgradeStatePodRestartRequired))] in
   let failed :=
     flat_map (expectedInSync (PodDeletionSpec:=unit)
                 exGetPodTemplateGeneration exInitialStateKey)
              (nodesIn exCluster UpgradeStateFailed) in
   (exists d,
       calls (snd (ProcessPodRestartNodes exOk exGetPodTemplateGeneration
                     exInitialStateKey exCluster (exW false)))
       = calls (exW false) ++ d /\
       map fst d `prefix_of` restart /\
       (fst (ProcessPodRestartNodes exOk exGetPodTemplateGeneration
               exInitialStateKey exCluster (exW false)) = inr tt ->
        d = map ok restart)) /\
   (exists d,
       calls (snd (ProcessUpgradeFailedNodes exOk exGetPodTemplateGeneration
                     exInitialStateKey exCluster (exW false)))
       = calls (exW false) ++ d /\
       map fst d `prefix_of` failed /\
       (fst (ProcessUpgradeFailedNodes exOk exGetPodTemplateGeneration
               exInitialStateKey exCluster (exW false)) = inr tt ->
        d = map ok failed)) /\
   (exists d,
       calls (snd (exApplyState exOk (Some exCluster) (Some (exPol 0 None))
                     (exW false)))
       = calls (exW false) ++ d /\
       (forall n a, In (CallUncordon n, a) d ->
                    In n (nodesOf exCluster UpgradeStateUncordonRequired)) /\
       (fst (exApplyState exOk (Some exCluster) (Some (exPol 0 None)) (exW false))
        = inr tt ->
        exists pre post, d = pre ++ map ok restart ++ map ok failed ++ post))).
Proof.
  split; [reflexivity|].
  apply (C4_in_sync_nodes exOk exGetPodTemplateGeneration exInitialStateKey
           exSkipNodeKey exSkipDrainKey exCluster (exPol 0 None) (exW false)).
  reflexivity.
Defined.

(** The pod with no container status meets the three conditions of
    [claimedInSync] and is judged not in sync. *)
Lemma C5_counterexample :
  ~ (isDriverPodInSync exGetPodTemplateGeneration exNoStatus = inr true <->
     claimedInSync exGetPodTemplateGeneration exNoStatus).
Proof.
  intros [_ H].
  assert (Hc : claimedInSync exGetPodTemplateGeneration exNoStatus).
  { split; [reflexivity|]. split; [reflexivity|]. intros c []. }
  specialize (H Hc). vm_compute in H. discriminate H.
Qed.

Lemma C5_witness :
  In {| ContainerStatus_Name := "driver"; ContainerStatus_Ready := false |}
     (Pod_Status_ContainerStatuses (DriverPod exNotReady)) /\
  ContainerStatus_Ready
    {| ContainerStatus_Name := "driver"; ContainerStatus_Ready := false |} = false /\
  isDriverPodInSync exGetPodTemplateGeneration exNotReady <> inr true.
Proof.
  assert (H1 : In {| ContainerStatus_Name := "driver";
                     ContainerStatus_Ready := false |}
                  (Pod_Status_ContainerStatuses (DriverPod exNotReady)))
    by (left; reflexivity).
  split; [exact H1|]. split; [reflexivity|].
  exact (proj2 (C5_isDriverPodInSync_iff exGetPodTemplateGeneration exNotReady)
           _ H1 eq_refl).
Defined.

Lemma C6_witness :
  AutoUpgrade (exPol 0 None) = true /\
  skipNodeUpgrade exSkipNodeKey exNodeS = true /\
  (forall X, X <> UpgradeStateUpgradeRequired -> ~ In exNodeS (nodesOf exCluster X)) /\
  ((exists d,
       calls (snd (exApplyState exOk (Some exCluster) (Some (exPol 0 None))
                     (exW false)))
       = calls (exW false) ++ d /\
       Forall (fun ev => ~ isPhaseWriteFor exNodeS (fst ev)) d) /\
   (forall l limit w0,
       ProcessUpgradeRequiredNodes_loop exOk exSkipNodeKey l limit w0 =
       ProcessUpgradeRequiredNodes_loop exOk exSkipNodeKey
         (List.filter (fun ns => negb (skipNodeUpgrade exSkipNodeKey (Node_ ns))) l)
         limit w0)).
Proof.
  assert (H1 : AutoUpgrade (exPol 0 None) = true) by reflexivity.
  assert (H2 : skipNodeUpgrade exSkipNodeKey exNodeS = true)
    by (vm_compute; reflexivity).
  assert (H3 : forall X, X <> UpgradeStateUpgradeRequired ->
                         ~ In exNodeS (nodesOf exCluster X)).
  { intros X HX Hin. destruct X; try (apply HX; reflexivity);
      vm_compute in Hin;
      repeat match type of Hin with
             | _ \/ _ => destruct Hin as [Hin | Hin]; [discriminate Hin|]
             end; exact Hin. }
  exact (conj H1 (conj H2 (conj H3
    (C6_skip_label_keeps_node exOk exGetPodTemplateGeneration exInitialStateKey
       exSkipNodeKey exSkipDrainKey exCluster (exPol 0 None) (exW false) exNodeS
       H1 H2 H3)))).
Defined.

Lemma C7_witness :
  AutoUpgrade (exPol 0 None) = true /\
  nodesIn exCluster UpgradeStateCordonRequired = [] ++ exUnit exNodeC "1" exReady :: [] /\
  (forall log, exKo log (CallCordon exNodeC) = Some "cordon refused") /\
  (forall log m, In m (map Node_ (@nil NodeUpgradeState)) ->
                 exKo log (CallCordon m) = None) /\
  (forall log c, isCordon c = false -> exKo log c = None) /\
  (forall ns', In ns' (nodesIn exCluster UpgradeStateUnknown ++
                       nodesIn exCluster UpgradeStateDone) ->
               exists g, exGetPodTemplateGeneration (DriverPod ns') = inr g) /\
  (let cordons :=
     flat_map (expectedCordon (PodDeletionSpec:=unit))
              (nodesOf exCluster UpgradeStateCordonRequired) in
   (exists d,
       calls (snd (exApplyState exKo (Some exCluster) (Some (exPol 0 None)) (exW false)))
       = calls (exW false) ++ d /\
       (forall n e pre post,
           d = pre ++ (CallCordon n, Some e) :: post ->
           fst (exApplyState exKo (Some exCluster) (Some (exPol 0 None)) (exW false))
           = inl e /\
           post = [] /\
           ((forall X, In X [UpgradeStateUnknown; UpgradeStateDone;
                             UpgradeStateUpgradeRequired] ->
                       ~ In n (nodesOf exCluster X)) ->
            List.NoDup (nodesOf exCluster UpgradeStateCordonRequired) ->
            Forall (fun ev => ~ isPhaseWriteFor n (fst ev)) d)) /\
       (forall n pre post,
           d = pre ++ (CallCordon n, None) :: post ->
           exists a post',
             post = (CallChangeNodeUpgradeState n UpgradeStateWaitForJobsRequired, a)
                    :: post') /\
       (fst (exApplyState exKo (Some exCluster) (Some (exPol 0 None)) (exW false))
        = inr tt ->
        exists pre post, d = pre ++ map ok cordons ++ post) /\
       (forall l1 ns l2 e,
           nodesIn exCluster UpgradeStateCordonRequired = l1 ++ ns :: l2 ->
           (forall log, exKo log (CallCordon (Node_ ns)) = Some e) ->
           (forall log m, In m (map Node_ l1) -> exKo log (CallCordon m) = None) ->
           (forall log c, isCordon c = false -> exKo log c = None) ->
           (forall ns', In ns' (nodesIn exCluster UpgradeStateUnknown ++
                                nodesIn exCluster UpgradeStateDone) ->
                        exists g, exGetPodTemplateGeneration (DriverPod ns') = inr g) ->
           fst (exApplyState exKo (Some exCluster) (Some (exPol 0 None)) (exW false))
           = inl e /\
           exists pre,
             d = pre ++ [(CallCordon (Node_ ns), Some e)] /\
             Forall (fun ev => snd ev = None) pre /\
             callsOfKind isCordon pre = map CallCordon (map Node_ l1) /\
             movedTo UpgradeStateWaitForJobsRequired d = map Node_ l1)) /\
   (exists d0,
       calls (snd (ProcessCordonRequiredNodes exKo exCluster (exW false)))
       = calls (exW false) ++ d0 /\
       map fst d0 `prefix_of` cordons /\
       (fst (ProcessCordonRequiredNodes exKo exCluster (exW false)) = inr tt ->
        d0 = map ok cordons))) /\
  (fst (exApplyState exKo (Some exCluster) (Some (exPol 0 None)) (exW false))
   = inl "cordon refused" /\
   exists pre,
     calls (snd (exApplyState exKo (Some exCluster) (Some (exPol 0 None)) (exW false)))
     = pre ++ [(CallCordon exNodeC, Some "cordon refused")] /\
     movedTo UpgradeStateWaitForJobsRequired
       (calls (snd (exApplyState exKo (Some exCluster) (Some (exPol 0 None))
                      (exW false)))) = []) /\
  (exists pre post,
      calls (snd (exApplyState exOk (Some exCluster) (Some (exPol 0 None)) (exW false)))
      = pre ++
        [(CallCordon exNodeC, None);
         (CallChangeNodeUpgradeState exNodeC UpgradeStateWaitForJobsRequired, None)]
        ++ post).
Proof.
  assert (H1 : AutoUpgrade (exPol 0 None) = true) by reflexivity.
  assert (H2 : nodesIn exCluster UpgradeStateCordonRequired
               = [] ++ exUnit exNodeC "1" exReady :: []) by reflexivity.
  assert (H3 : forall log : list (Event (PodDeletionSpec:=unit)),
             exKo log (CallCordon exNodeC) = Some "cordon refused")
    by reflexivity.
  assert (H4 : forall (log : list (Event (PodDeletionSpec:=unit))) m,
             In m (map Node_ (@nil NodeUpgradeState)) ->
             exKo log (CallCordon m) = None)
    by (intros log m []).
  assert (H5 : forall (log : list (Event (PodDeletionSpec:=unit))) c,
             isCordon c = false -> exKo log c = None)
    by (intros log c Hc; destruct c; try reflexivity; discriminate).
  assert (H6 : forall ns', In ns' (nodesIn exCluster UpgradeStateUnknown ++
                                   nodesIn exCluster UpgradeStateDone) ->
                           exists g, exGetPodTemplateGeneration (DriverPod ns') = inr g).
  { intros ns' Hin.
    change (In ns' [exUnit exNodeA "1" exReady; exUnit exNodeB "1" exReady]) in Hin.
    destruct Hin as [<- | [<- | []]]; eexists; reflexivity. }
  pose proof (C7_cordon_failure_stops_pass exKo exGetPodTemplateGeneration
                exInitialStateKey exSkipNodeKey exSkipDrainKey exCluster (exPol 0 None)
                (exW false) H1) as Tko.
  pose proof (C7_cordon_failure_stops_pass exOk exGetPodTemplateGeneration
                exInitialStateKey exSkipNodeKey exSkipDrainKey exCluster (exPol 0 None)
                (exW false) H1) as Tok.
  split; [exact H1|]. split; [exact H2|]. split; [exact H3|]. split; [exact H4|].
  split; [exact H5|]. split; [exact H6|]. split; [exact Tko|]. split.
  - destruct Tko as [(d & Hd & _ & _ & _ & Hscenario) _].
    destruct (Hscenario [] (exUnit exNodeC "1" exReady) [] "cordon refused"
                H2 H3 H4 H5 H6) as (Hr & pre & Hdeq & _ & _ & Hmoved).
    split; [exact Hr|]. exists pre. rewrite Hd. simpl. split; assumption.
  - destruct Tok as [(d & Hd & _ & _ & Hall & _) _].
    destruct Hall as (pre & post & Hdeq); [vm_compute; reflexivity|].
    exists pre, post. rewrite Hd. simpl. exact Hdeq.
Defined.

Lemma C9_witness :
  AutoUpgrade (exPol 0 (Some 0%nat)) = true /\
  drainDisabled (exPol 0 (Some 0%nat)) (exW false) /\
  (let writes :=
     map (fun n => CallChangeNodeUpgradeState (PodDeletionSpec:=unit) n
                     UpgradeStatePodRestartRequired)
         (nodesOf exCluster UpgradeStateDrainRequired) in
   (exists d,
       calls (snd (exApplyState exOk (Some exCluster) (Some (exPol 0 (Some 0%nat)))
                     (exW false)))
       = calls (exW false) ++ d /\
       Forall (fun ev => ~ isDrainCall (fst ev)) d /\
       drainSpecs (snd (exApplyState exOk (Some exCluster)
                          (Some (exPol 0 (Some 0%nat))) (exW false)))
       = drainSpecs (exW false) /\
       (fst (exApplyState exOk (Some exCluster) (Some (exPol 0 (Some 0%nat)))
               (exW false)) = inr tt ->
        exists pre post, d = pre ++ map ok writes ++ post)) /\
   (exists d0,
       calls (snd (ProcessDrainNodes exOk exSkipDrainKey exCluster
                     (DrainSpec_ (exPol 0 (Some 0%nat))) (exW false)))
       = calls (exW false) ++ d0 /\
       map fst d0 `prefix_of` writes /\
       (fst (ProcessDrainNodes exOk exSkipDrainKey exCluster
               (DrainSpec_ (exPol 0 (Some 0%nat))) (exW false)) = inr tt ->
        d0 = map ok writes))).
Proof.
  assert (H1 : AutoUpgrade (exPol 0 (Some 0%nat)) = true) by reflexivity.
  assert (H2 : drainDisabled (exPol 0 (Some 0%nat)) (exW false)) by reflexivity.
  exact (conj H1 (conj H2
    (C9_drain_disabled exOk exGetPodTemplateGeneration exInitialStateKey
       exSkipNodeKey exSkipDrainKey exCluster (exPol 0 (Some 0%nat)) (exW false)
       H1 H2))).
Defined.

Lemma C10_witness :
  DrainSpec_Enable (drainSpecs (exW true) 0%nat) = true /\
  (let selector := DrainSpec_PodSelector (drainSpecs (exW true) 0%nat) in
   (DrainSpec_PodSelector
      (drainSpecs (drainPasses exOk exSkipDrainKey [exCluster; exCluster] 0%nat
                     (exW true)) 0%nat)
    = withCopies exSkipDrainKey selector (length [exCluster; exCluster]) /\
    DrainSpec_Enable
      (drainSpecs (drainPasses exOk exSkipDrainKey [exCluster; exCluster] 0%nat
                     (exW true)) 0%nat) = true /\
    (forall q, q <> 0%nat ->
               drainSpecs (drainPasses exOk exSkipDrainKey [exCluster; exCluster]
                             0%nat (exW true)) q
               = drainSpecs (exW true) q) /\
    exists d,
      calls (drainPasses exOk exSkipDrainKey [exCluster; exCluster] 0%nat (exW true))
      = calls (exW true) ++ d /\
      drainSelectors d =
      map (withCopies exSkipDrainKey selector)
          (seq 1 (length [exCluster; exCluster]))) /\
   (forall cs pol,
       AutoUpgrade pol = true -> DrainSpec_ pol = Some 0%nat ->
       fst (exApplyState exOk (Some cs) (Some pol) (exW true)) = inr tt ->
       DrainSpec_PodSelector
         (drainSpecs (snd (exApplyState exOk (Some cs) (Some pol) (exW true))) 0%nat)
       = withCopies exSkipDrainKey selector 1)).
Proof.
  split; [reflexivity|].
  apply (C10_drain_selector_accumulates exOk exGetPodTemplateGeneration
           exInitialStateKey exSkipNodeKey exSkipDrainKey
           [exCluster; exCluster] 0%nat (exW true)).
  reflexivity.
Defined.

(** * Passes over the example clusters, computed *)

(** Three UpgradeRequired nodes, a limit of two and nothing in progress:
    two nodes move, the third stays. *)
Example exThree_limit_two :
  fst (exApplyState exOk (Some exThree) (Some (exPol 2 None)) (exW false)) = inr tt /\
  movedTo UpgradeStateCordonRequired
    (calls (snd (exApplyState exOk (Some exThree) (Some (exPol 2 None)) (exW false))))
  = [exNodeA; exNodeU].
Proof. split; vm_compute; reflexivity. Qed.

(** The whole pass over [exCluster] with no limit and collaborators that
    never fail. *)
Example exCluster_pass :
  fst (exApplyState exOk (Some exCluster) (Some (exPol 0 None)) (exW false)) = inr tt /\
  map fst
    (calls (snd (exApplyState exOk (Some exCluster) (Some (exPol 0 None)) (exW false))))
  = [CallChangeNodeUpgradeState exNodeA UpgradeStateUpgradeRequired;
     CallChangeNodeUpgradeAnnotation exNodeB exInitialStateKey "true";
     CallChangeNodeUpgradeState exNodeB UpgradeStateUpgradeRequired;
     CallChangeNodeUpgradeState exNodeU UpgradeStateCordonRequired;
     CallCordon exNodeC;
     CallChangeNodeUpgradeState exNodeC UpgradeStateWaitForJobsRequired;
     CallChangeNodeUpgradeState exNodeD UpgradeStatePodRestartRequired;
     CallChangeNodeUpgradeState exNodeR UpgradeStateDone;
     CallChangeNodeUpgradeAnnotation exNodeR exInitialStateKey "null";
     CallSchedulePodsRestart [];
     CallChangeNodeUpgradeState exNodeF UpgradeStateUncordonRequired].
Proof. split; vm_compute; reflexivity. Qed.

(** The same pass when the Cordon Manager refuses: the pass stops at the
    cordon of [exNodeC] and returns its error. *)
Example exCluster_cordon_refused :
  exists pre,
    fst (exApplyState exKo (Some exCluster) (Some (exPol 0 None)) (exW false))
    = inl "cordon refused" /\
    calls (snd (exApplyState exKo (Some exCluster) (Some (exPol 0 None)) (exW false)))
    = pre ++ [(CallCordon exNodeC, Some "cordon refused")] /\
    map fst pre =
    [CallChangeNodeUpgradeState exNodeA UpgradeStateUpgradeRequired;
     CallChangeNodeUpgradeAnnotation exNodeB exInitialStateKey "true";
     CallChangeNodeUpgradeState exNodeB UpgradeStateUpgradeRequired;
     CallChangeNodeUpgradeState exNodeU UpgradeStateCordonRequired].
Proof.
  eexists. split; [vm_compute; reflexivity|]. split.
  - vm_compute.
    match goal with
    | |- ?a :: ?b :: ?c :: ?d :: ?l = _ => instantiate (1 := [a; b; c; d])
    end.
    reflexivity.
  - vm_compute. reflexivity.
Qed.

(** Two passes with drain enabled over one policy object: the Drain Manager
    is handed the exclusion term once, then twice. *)
Example exCluster_drain_twice :
  drainSelectors
    (calls (snd (exApplyState exOk (Some exCluster) (Some (exPol 0 (Some 0%nat)))
                   (snd (exApplyState exOk (Some exCluster)
                           (Some (exPol 0 (Some 0%nat))) (exW true))))))
  = ["example.com/upgrade-skip-drain!=true";
     "example.com/upgrade-skip-drain!=true,example.com/upgrade-skip-drain!=true"].
Proof. vm_compute. reflexivity. Qed.

(** A driver pod of the current generation, running, with no container
    status reported, is not in sync. *)
Example exNoStatus_not_in_sync :
  isDriverPodInSync exGetPodTemplateGeneration exNoStatus = inr false.
Proof. reflexivity. Qed.

(** * The further properties on the example cluster *)

Abbreviation exPass collab pol w :=
  (exApplyState collab (Some exCluster) (Some pol) w).

Lemma X1_witness :
  AutoUpgrade (exPol 0 None) = true /\
  exists d,
    calls (snd (exPass exOk (exPol 0 None) (exW false))) = calls (exW false) ++ d /\
    (forall n st a,
        In (CallChangeNodeUpgradeState n st, a) d ->
        exists X, In n (nodesOf exCluster X) /\ In st (exitPhases X)).
Proof.
  assert (H1 : AutoUpgrade (exPol 0 None) = true) by reflexivity.
  exact (conj H1
    (X1_phase_writes_follow_table exOk exGetPodTemplateGeneration exInitialStateKey
       exSkipNodeKey exSkipDrainKey exCluster (exPol 0 None) (exW false) H1)).
Defined.

Lemma X2_witness :
  AutoUpgrade (exPol 0 None) = true /\
  exists d,
    calls (snd (exPass exOk (exPol 0 None) (exW false))) = calls (exW false) ++ d /\
    Forall (fun ev => annotationWriteOk exInitialStateKey exCluster (fst ev)) d.
Proof.
  assert (H1 : AutoUpgrade (exPol 0 None) = true) by reflexivity.
  exact (conj H1
    (X2_annotation_writes exOk exGetPodTemplateGeneration exInitialStateKey
       exSkipNodeKey exSkipDrainKey exCluster (exPol 0 None) (exW false) H1)).
Defined.

Lemma X3_witness :
  AutoUpgrade (exPol 0 None) = true /\
  exists d,
    calls (snd (exPass exOk (exPol 0 None) (exW false))) = calls (exW false) ++ d /\
    writeTargets (map fst d) `sublist_of` flat_map (nodesOf exCluster) allPhases /\
    (List.NoDup (flat_map (nodesOf exCluster) allPhases) ->
     List.NoDup (writeTargets (map fst d))).
Proof.
  assert (H1 : AutoUpgrade (exPol 0 None) = true) by reflexivity.
  exact (conj H1
    (X3_one_phase_write_per_unit exOk exGetPodTemplateGeneration exInitialStateKey
       exSkipNodeKey exSkipDrainKey exCluster (exPol 0 None) (exW false) H1)).
Defined.

Lemma X4_witness :
  AutoUpgrade (exPol 0 None) = true /\
  exists d,
    calls (snd (exPass exKo (exPol 0 None) (exW false))) = calls (exW false) ++ d /\
    (forall c e pre post,
        d = pre ++ (c, Some e) :: post -> ~ isDroppedWrite c ->
        post = [] /\ fst (exPass exKo (exPol 0 None) (exW false)) = inl e) /\
    (forall e,
        fst (exPass exKo (exPol 0 None) (exW false)) = inl e ->
        (exists pre c, d = pre ++ [(c, Some e)]) \/
        generationError exGetPodTemplateGeneration exCluster e).
Proof.
  assert (H1 : AutoUpgrade (exPol 0 None) = true) by reflexivity.
  exact (conj H1
    (X4_errors_are_returned_unchanged exKo exGetPodTemplateGeneration
       exInitialStateKey exSkipNodeKey exSkipDrainKey exCluster (exPol 0 None)
       (exW false) H1)).
Defined.

Lemma X5_witness :
  AutoUpgrade (exPol 0 None) = true /\
  exists d,
    calls (snd (exPass exOk (exPol 0 None) (exW false))) = calls (exW false) ++ d /\
    (length (callsOfKind isCompletionCheck d) <= 1)%nat /\
    (forall c, In c (callsOfKind isCompletionCheck d) ->
               exists spec,
                 WaitForCompletion (exPol 0 None) = Some spec /\
                 WaitForCompletionSpec_PodSelector spec <> "" /\
                 nodesOf exCluster UpgradeStateWaitForJobsRequired <> [] /\
                 c = completionCheckOf exCluster spec) /\
    (length (callsOfKind isEviction d) <= 1)%nat /\
    (forall c, In c (callsOfKind isEviction d) ->
               nodesOf exCluster UpgradeStatePodDeletionRequired <> [] /\
               c = evictionOf exCluster (exPol 0 None)) /\
    (fst (exPass exOk (exPol 0 None) (exW false)) = inr tt ->
     nodesOf exCluster UpgradeStatePodDeletionRequired <> [] ->
     callsOfKind isEviction d = [evictionOf exCluster (exPol 0 None)]).
Proof.
  assert (H1 : AutoUpgrade (exPol 0 None) = true) by reflexivity.
  exact (conj H1
    (X5_pod_manager_batches exOk exGetPodTemplateGeneration exInitialStateKey
       exSkipNodeKey exSkipDrainKey exCluster (exPol 0 None) (exW false) H1)).
Defined.

Lemma X7_witness :
  AutoUpgrade (exPol 0 None) = true /\
  exists d,
    calls (snd (exPass exOk (exPol 0 None) (exW false))) = calls (exW false) ++ d /\
    (length (callsOfKind isPodsRestart d) <= 1)%nat /\
    (forall pods a,
        In (CallSchedulePodsRestart pods, a) d ->
        pods `sublist_of`
          map DriverPod (nodesIn exCluster UpgradeStatePodRestartRequired) /\
        (forall pod,
            In pod pods <->
            exists ns, In ns (nodesIn exCluster UpgradeStatePodRestartRequired) /\
                       pod = DriverPod ns /\
                       needsRestart exGetPodTemplateGeneration ns)) /\
    (fst (exPass exOk (exPol 0 None) (exW false)) = inr tt ->
     exists pods, callsOfKind isPodsRestart d = [CallSchedulePodsRestart pods]).
Proof.
  assert (H1 : AutoUpgrade (exPol 0 None) = true) by reflexivity.
  exact (conj H1
    (X7_pods_scheduled_for_restart exOk exGetPodTemplateGeneration exInitialStateKey
       exSkipNodeKey exSkipDrainKey exCluster (exPol 0 None) (exW false) H1)).
Defined.

Lemma X8_witness :
  AutoUpgrade (exPol 0 (Some 0%nat)) = true /\
  DrainSpec_ (exPol 0 (Some 0%nat)) = Some 0%nat /\
  DrainSpec_Enable (drainSpecs (exW true) 0%nat) = true /\
  exists d,
    calls (snd (exPass exOk (exPol 0 (Some 0%nat)) (exW true)))
    = calls (exW true) ++ d /\
    Forall (fun ev => isStateWrite UpgradeStatePodRestartRequired (fst ev) = false) d /\
    (length (callsOfKind isNodesDrain d) <= 1)%nat /\
    (forall c, In c (callsOfKind isNodesDrain d) ->
               c = drainOf exSkipDrainKey exCluster 0%nat (drainSpecs (exW true))) /\
    (fst (exPass exOk (exPol 0 (Some 0%nat)) (exW true)) = inr tt ->
     callsOfKind isNodesDrain d =
     [drainOf exSkipDrainKey exCluster 0%nat (drainSpecs (exW true))]) /\
    (forall q, q <> 0%nat ->
               drainSpecs (snd (exPass exOk (exPol 0 (Some 0%nat)) (exW true))) q
               = drainSpecs (exW true) q) /\
    (drainSpecs (snd (exPass exOk (exPol 0 (Some 0%nat)) (exW true))) 0%nat
     = drainSpecs (exW true) 0%nat \/
     drainSpecs (snd (exPass exOk (exPol 0 (Some 0%nat)) (exW true))) 0%nat
     = augmentedSpec exSkipDrainKey (drainSpecs (exW true) 0%nat)).
Proof.
  assert (H1 : AutoUpgrade (exPol 0 (Some 0%nat)) = true) by reflexivity.
  assert (H2 : DrainSpec_ (exPol 0 (Some 0%nat)) = Some 0%nat) by reflexivity.
  assert (H3 : DrainSpec_Enable (drainSpecs (exW true) 0%nat) = true) by reflexivity.
  exact (conj H1 (conj H2 (conj H3
    (X8_drain_enabled_pass exOk exGetPodTemplateGeneration exInitialStateKey
       exSkipNodeKey exSkipDrainKey exCluster (exPol 0 (Some 0%nat)) (exW true)
       0%nat H1 H2 H3)))).
Defined.

Lemma X9_witness :
  AutoUpgrade (exPol 2 None) = true /\
  GoInt.len (nodesIn exThree UpgradeStateUpgradeRequired) <= GoInt.max_int /\
  (let starting (limit : Z) :=
     take (Z.to_nat limit)
          (eligible exSkipNodeKey (nodesIn exThree UpgradeStateUpgradeRequired)) in
   (forall limit w0,
       limit <= GoInt.max_int ->
       exists d0,
         calls (snd (ProcessUpgradeRequiredNodes exOk exSkipNodeKey exThree limit w0))
         = calls w0 ++ d0 /\
         map fst d0 `prefix_of`
           map (fun n => CallChangeNodeUpgradeState n UpgradeStateCordonRequired)
               (starting limit) /\
         (fst (ProcessUpgradeRequiredNodes exOk exSkipNodeKey exThree limit w0)
          = inr tt ->
          d0 = map ok (map (fun n => CallChangeNodeUpgradeState n
                                       UpgradeStateCordonRequired)
                           (starting limit)))) /\
   exists d,
     calls (snd (exApplyState exOk (Some exThree) (Some (exPol 2 None)) (exW false)))
     = calls (exW false) ++ d /\
     movedTo UpgradeStateCordonRequired d
       `prefix_of` starting (upgradesAvailable exThree (exPol 2 None)) /\
     (fst (exApplyState exOk (Some exThree) (Some (exPol 2 None)) (exW false))
      = inr tt ->
      movedTo UpgradeStateCordonRequired d =
      starting (upgradesAvailable exThree (exPol 2 None)))).
Proof.
  assert (H1 : AutoUpgrade (exPol 2 None) = true) by reflexivity.
  assert (H2 : GoInt.len (nodesIn exThree UpgradeStateUpgradeRequired)
               <= GoInt.max_int) by (vm_compute; discriminate).
  exact (conj H1 (conj H2
    (X9_first_eligible_nodes_start exOk exGetPodTemplateGeneration exInitialStateKey
       exSkipNodeKey exSkipDrainKey exThree (exPol 2 None) (exW false) H1 H2))).
Defined.

Lemma X10_witness :
  AutoUpgrade (exPol 0 None) = true /\
  exists d,
    calls (snd (exPass exOk (exPol 0 None) (exW false))) = calls (exW false) ++ d /\
    callsOfKind isUncordon d
      `prefix_of` map CallUncordon (nodesOf exCluster UpgradeStateUncordonRequired) /\
    callsOfKind isCordon d
      `prefix_of` map CallCordon (nodesOf exCluster UpgradeStateCordonRequired) /\
    (fst (exPass exOk (exPol 0 None) (exW false)) = inr tt ->
     callsOfKind isUncordon d =
       map CallUncordon (nodesOf exCluster UpgradeStateUncordonRequired) /\
     callsOfKind isCordon d =
       map CallCordon (nodesOf exCluster UpgradeStateCordonRequired)) /\
    (forall n pre post,
        d = pre ++ (CallUncordon n, None) :: post ->
        exists a post',
          post = (CallChangeNodeUpgradeState n UpgradeStateDone, a) :: post').
Proof.
  assert (H1 : AutoUpgrade (exPol 0 None) = true) by reflexivity.
  exact (conj H1
    (X10_cordon_and_uncordon_calls exOk exGetPodTemplateGeneration exInitialStateKey
       exSkipNodeKey exSkipDrainKey exCluster (exPol 0 None) (exW false) H1)).
Defined.

Lemma X12_witness :
  AutoUpgrade (exPol 0 None) = true /\
  (forall p, DrainSpec_ (exPol 0 None) = Some p ->
             drainSpecs (exW false) p = drainSpecs (exW false) p) /\
  (let run1 := exPass exOk (exPol 0 None) (exW false) in
   let run2 := exPass exKo (exPol 0 None) (exW false) in
   exists d1 d2,
     calls (snd run1) = calls (exW false) ++ d1 /\
     calls (snd run2) = calls (exW false) ++ d2 /\
     (map fst d1 `prefix_of` map fst d2 \/ map fst d2 `prefix_of` map fst d1) /\
     (fst run1 = inr tt -> map fst d2 `prefix_of` map fst d1) /\
     (fst run1 = inr tt -> fst run2 = inr tt -> map fst d1 = map fst d2)).
Proof.
  assert (H1 : AutoUpgrade (exPol 0 None) = true) by reflexivity.
  assert (H2 : forall p, DrainSpec_ (exPol 0 None) = Some p ->
                         drainSpecs (exW false) p = drainSpecs (exW false) p)
    by reflexivity.
  exact (conj H1 (conj H2
    (X12_calls_do_not_depend_on_answers exOk exKo exGetPodTemplateGeneration
       exInitialStateKey exSkipNodeKey exSkipDrainKey exCluster (exPol 0 None)
       (exW false) (exW false) H1 H2))).
Defined.

(** Two WaitForJobsRequired nodes, no selector in the policy, and a state
    provider that refuses every write: both writes are attempted and the
    processor still returns nil. *)
Example exWaitForJobs_errors_dropped :
  let refuse (_ : list (Event (PodDeletionSpec:=unit))) (c : Call) :=
    match c with
    | CallChangeNodeUpgradeState _ _ => Some "write refused"
    | _ => None
    end in
  let cs := exSnapshot [(UpgradeStateWaitForJobsRequired,
                         [exUnit exNodeA "1" exReady; exUnit exNodeB "1" exReady])] in
  ProcessWaitForJobsRequiredNodes refuse cs None (exW false) =
  (inr tt,
   {| calls := [(CallChangeNodeUpgradeState exNodeA UpgradeStatePodDeletionRequired,
                 Some "write refused");
                (CallChangeNodeUpgradeState exNodeB UpgradeStatePodDeletionRequired,
                 Some "write refused")];
      drainSpecs := drainSpecs (exW false) |}).
Proof. reflexivity. Qed.

(** A pass over a fresh snapshot with drain enabled: a drain of no node,
    then a restart of no pod. *)
Example exFresh_pass_drain_enabled :
  map fst
    (calls (snd (exApplyState exOk (Some NewClusterUpgradeState)
                   (Some (exPol 0 (Some 0%nat))) (exW true))))
  = [CallScheduleNodesDrain
       {| DrainConfiguration_Spec := 0%nat; DrainConfiguration_Nodes := [] |}
       {| DrainSpec_Enable := true;
          DrainSpec_PodSelector := "example.com/upgrade-skip-drain!=true" |};
     CallSchedulePodsRestart []].
Proof. vm_compute. reflexivity. Qed.
